(** * MOPAK wave processing: a shallow embedding of [process_mopak.py]

    The development follows the Python module function by function.
    Integer and index computations are modelled on [Z] and [nat], and
    float64 arrays on lists of primitive binary64 floats.  Properties of
    the underlying mathematics (rotations, angles, least-squares
    residuals, zero crossings) are stated in real arithmetic, on Stdlib's
    [R].  Python exceptions are values of an error monad; a NumPy array
    that is assigned to in place lives in a store indexed by object
    identity. *)

From Stdlib Require Import ZArith List Lia Bool Reals Lra Psatz RNsatz Machin Floats Uint63.
From stdpp Require Import base option list gmap.
Import ListNotations.

Set Warnings "-inexact-float".

(** ** Exceptions

    A Python call either returns a value or raises.  Only the exception
    classes that the modelled functions can raise are listed. *)

Inductive exn : Type :=
| IndexError
| ValueError
| ZeroDivisionError
| UnboundLocalError.

Inductive result (A : Type) : Type :=
| Ok (a : A)
| Raise (e : exn).

Arguments Ok {A} a.
Arguments Raise {A} e.

Definition rbind {A B : Type} (m : result A) (k : A -> result B) : result B :=
  match m with
  | Ok a => k a
  | Raise e => Raise e
  end.

(** [result] is a monad in stdpp's sense, which gives the [x ← m; k]
    notation used below to sequence Python statements. *)
#[global] Instance result_ret : MRet result := fun A a => Ok a.
#[global] Instance result_bind : MBind result := fun A B k m => rbind m k.

(** [raises m]: the call ends in an exception. *)
Definition raises {A : Type} (m : result A) : Prop := exists e, m = Raise e.

(** Sequencing a list of computations: the first exception wins, as in a
    NumPy gather that checks each index in turn. *)
Fixpoint rmapM {A B : Type} (f : A -> result B) (l : list A) : result (list B) :=
  match l with
  | [] => Ok []
  | a :: l' =>
      b ← f a; bs ← rmapM f l'; Ok (b :: bs)
  end.

(** ** NumPy arrays

    One-dimensional arrays are lists.  The helpers below follow NumPy's
    indexing rules: a negative index counts from the end, an index outside
    [-len, len) raises [IndexError], and a binary operation on arrays of
    different lengths either stretches a one-element operand or raises
    [ValueError]. *)

Section Arrays.

Context {A : Type}.

(** [np.where(mask)[0]]: the positions at which the mask holds, ascending. *)
Fixpoint where_from (P : A -> bool) (i : nat) (l : list A) : list nat :=
  match l with
  | [] => []
  | x :: l' => if P x then i :: where_from P (S i) l' else where_from P (S i) l'
  end.

Definition np_where (P : A -> bool) (l : list A) : list nat :=
  where_from P 0%nat l.

(** [a[k]] for a Python integer [k]. *)
Definition getitem (a : list A) (k : Z) : result A :=
  let n := Z.of_nat (length a) in
  let k' := if (k <? 0)%Z then (k + n)%Z else k in
  if ((0 <=? k') && (k' <? n))%Z then
    match a !! Z.to_nat k' with
    | Some x => Ok x
    | None => Raise IndexError
    end
  else Raise IndexError.

(** [a[idx]] for an integer array [idx]. *)
Definition gather (a : list A) (idx : list Z) : result (list A) :=
  rmapM (getitem a) idx.

(** [a[:-1]]. *)
Definition drop_last (a : list A) : list A := removelast a.

(** [np.diff] for a given subtraction. *)
Fixpoint diff_with (sub : A -> A -> A) (a : list A) : list A :=
  match a with
  | x :: (y :: _) as tl => sub y x :: diff_with sub tl
  | _ => []
  end.

(** [a[i:j]] for a non-negative start; a stop at or before the start gives
    the empty array. *)
Definition slice (a : list A) (i j : Z) : list A :=
  firstn (Z.to_nat (j - i)) (skipn (Z.to_nat i) a).

(** [a[k] = v] for a non-negative position [k]. *)
Definition setitem (a : list A) (k : nat) (v : A) : result (list A) :=
  if (k <? length a)%nat then Ok (<[k := v]> a) else Raise IndexError.

(** [a[idx] = v] for an index array: every index must exist. *)
Fixpoint put (a : list A) (idx : list nat) (v : A) : result (list A) :=
  match idx with
  | [] => Ok a
  | i :: idx' =>
      if (i <? length a)%nat then put (<[i := v]> a) idx' v else Raise IndexError
  end.

End Arrays.

(** Elementwise binary operation with broadcasting of 1-d operands. *)
Definition broadcast2 {A B C : Type} (f : A -> B -> C) (a : list A) (b : list B)
  : result (list C) :=
  if (length a =? length b)%nat then Ok (zip_with f a b)
  else
    match a, b with
    | _, [y] => Ok (map (fun x => f x y) a)
    | [x], _ => Ok (map (f x) b)
    | _, _ => Raise ValueError
    end.

Lemma broadcast2_same_length {A B C : Type} (f : A -> B -> C) a b :
  length a = length b -> broadcast2 f a b = Ok (zip_with f a b).
Proof. intros H. unfold broadcast2. now rewrite H, Nat.eqb_refl. Qed.

Lemma where_from_bounds {A : Type} (P : A -> bool) (l : list A) (i k : nat) :
  In k (where_from P i l) -> (i <= k < i + length l)%nat.
Proof.
  revert i. induction l as [|x l IH]; intros i; simpl; [tauto|].
  destruct (P x); simpl.
  - intros [<-|H]; [lia|]. apply IH in H. lia.
  - intros H. apply IH in H. lia.
Qed.

Lemma getitem_in_range {A : Type} (a : list A) (k : Z) :
  (0 <= k < Z.of_nat (length a))%Z -> exists x, getitem a k = Ok x /\ a !! Z.to_nat k = Some x.
Proof.
  intros Hk. unfold getitem.
  destruct (Z.ltb_spec k 0); [lia|].
  destruct (Z.leb_spec 0 k); [|lia].
  destruct (Z.ltb_spec k (Z.of_nat (length a))); [|lia]. simpl.
  destruct (a !! Z.to_nat k) as [x|] eqn:E.
  - now exists x.
  - apply lookup_ge_None in E. lia.
Qed.

Lemma getitem_out_of_range {A : Type} (a : list A) (k : Z) :
  (Z.of_nat (length a) <= k)%Z -> getitem a k = Raise IndexError.
Proof.
  intros Hk. unfold getitem.
  destruct (Z.ltb_spec k 0); [lia|].
  destruct (Z.ltb_spec k (Z.of_nat (length a))); [lia|].
  now rewrite andb_false_r.
Qed.

Lemma gather_in_range {A : Type} (a : list A) (idx : list Z) :
  Forall (fun k => 0 <= k < Z.of_nat (length a))%Z idx ->
  exists l, gather a idx = Ok l /\ length l = length idx.
Proof.
  unfold gather. induction 1 as [|k idx Hk _ [l [IH Hl]]]; simpl.
  - now exists [].
  - destruct (getitem_in_range a k Hk) as [x [Hx _]].
    exists (x :: l). unfold mbind, result_bind. rewrite Hx; simpl.
    unfold mbind, result_bind. rewrite IH; simpl. split; [reflexivity|]. now rewrite Hl.
Qed.

Lemma gather_out_of_range {A : Type} (a : list A) (idx : list Z) (k : Z) :
  In k idx -> (Z.of_nat (length a) <= k)%Z ->
  Forall (fun j => - Z.of_nat (length a) <= j)%Z idx ->
  gather a idx = Raise IndexError.
Proof.
  unfold gather. induction idx as [|j idx IH]; simpl; [tauto|].
  intros Hin Hk Hall. inversion Hall as [|? ? Hj Hrest]; subst.
  unfold mbind, result_bind.
  destruct (getitem a j) as [x|e] eqn:Ej; simpl.
  - destruct Hin as [->|Hin].
    + rewrite getitem_out_of_range in Ej by assumption. discriminate.
    + unfold mbind, result_bind. now rewrite (IH Hin Hk Hrest).
  - unfold getitem in Ej.
    destruct (_ && _); [|congruence].
    destruct (a !! _); congruence.
Qed.

Lemma getitem_raise {A : Type} (a : list A) (k : Z) (e : exn) :
  getitem a k = Raise e -> e = IndexError.
Proof.
  unfold getitem. destruct (_ && _); [|congruence].
  destruct (a !! _); congruence.
Qed.

Lemma getitem_ok_range {A : Type} (a : list A) (k : Z) (x : A) :
  getitem a k = Ok x -> (- Z.of_nat (length a) <= k < Z.of_nat (length a))%Z.
Proof.
  unfold getitem.
  destruct (Z.ltb_spec k 0);
    destruct (Z.leb_spec 0 (k + Z.of_nat (length a)));
    destruct (Z.leb_spec 0 k);
    destruct (Z.ltb_spec (k + Z.of_nat (length a)) (Z.of_nat (length a)));
    destruct (Z.ltb_spec k (Z.of_nat (length a)));
    simpl; try discriminate; lia.
Qed.

Lemma getitem_zero {A : Type} (a : list A) (x : A) :
  getitem a 0 = Ok x -> exists a', a = x :: a'.
Proof.
  unfold getitem. simpl.
  destruct a as [|y a']; simpl; [discriminate|].
  intros [= ->]. now exists a'.
Qed.

Lemma gather_raise {A : Type} (a : list A) (idx : list Z) (e : exn) :
  gather a idx = Raise e -> e = IndexError.
Proof.
  unfold gather. induction idx as [|k idx IH]; simpl; [discriminate|].
  unfold mbind, result_bind, rbind.
  destruct (getitem a k) eqn:Ek; [|intros [= <-]; eapply getitem_raise, Ek].
  destruct (rmapM (getitem a) idx); [discriminate|].
  intros [= <-]. now apply IH.
Qed.

Lemma gather_length {A : Type} (a : list A) (idx : list Z) (l : list A) :
  gather a idx = Ok l -> length l = length idx.
Proof.
  unfold gather. revert l. induction idx as [|k idx IH]; simpl; intros l.
  - now intros [= <-].
  - unfold mbind, result_bind, rbind.
    destruct (getitem a k); [|discriminate].
    destruct (rmapM (getitem a) idx); [|discriminate].
    intros [= <-]. simpl. f_equal. now apply IH.
Qed.

Lemma diff_with_length {A : Type} (sub : A -> A -> A) (a : list A) :
  length (diff_with sub a) = (length a - 1)%nat.
Proof.
  induction a as [|x [|y a] IH]; simpl in *; try reflexivity.
  rewrite IH. lia.
Qed.

Lemma where_from_spec {A : Type} (P : A -> bool) (l : list A) (i k : nat) :
  In k (where_from P i l) <->
  (i <= k)%nat /\ exists x, l !! (k - i)%nat = Some x /\ P x = true.
Proof.
  revert i. induction l as [|x l IH]; intros i; simpl.
  - split; [tauto|]. intros (_ & y & Hy & _). discriminate.
  - assert (Hrec : In k (where_from P (S i) l) <->
                   (i < k)%nat /\ exists y, (x :: l) !! (k - i)%nat = Some y /\ P y = true).
    { rewrite IH. split.
      - intros (Hle & y & Hy & HP). split; [lia|]. exists y. split; [|exact HP].
        replace (k - i)%nat with (S (k - S i)) by lia. exact Hy.
      - intros (Hlt & y & Hy & HP). split; [lia|]. exists y. split; [|exact HP].
        replace (k - i)%nat with (S (k - S i)) in Hy by lia. exact Hy. }
    destruct (P x) eqn:Px; simpl; rewrite Hrec.
    + split.
      * intros [<-|(Hlt & y & Hy & HP)].
        -- split; [lia|]. exists x. rewrite Nat.sub_diag. now split.
        -- split; [lia|]. now exists y.
      * intros (Hle & y & Hy & HP).
        destruct (Nat.eq_dec i k) as [->|Hne]; [now left|].
        right. split; [lia|]. now exists y.
    + split.
      * intros (Hlt & y & Hy & HP). split; [lia|]. now exists y.
      * intros (Hle & y & Hy & HP).
        destruct (Nat.eq_dec i k) as [->|Hne].
        -- rewrite Nat.sub_diag in Hy. simpl in Hy. congruence.
        -- split; [lia|]. now exists y.
Qed.

Lemma np_where_spec {A : Type} (P : A -> bool) (l : list A) (k : nat) :
  In k (np_where P l) <-> exists x, l !! k = Some x /\ P x = true.
Proof.
  unfold np_where. rewrite where_from_spec, Nat.sub_0_r.
  split; [tauto|]. intros H. split; [lia|exact H].
Qed.

Lemma getitem_minus_one {A : Type} (a : list A) (d : A) :
  a <> [] -> getitem a (-1) = Ok (List.last a d).
Proof.
  intros Ha. unfold getitem. simpl.
  destruct (Z.leb_spec 0 (-1 + Z.of_nat (length a))) as [H0|H0].
  - destruct (Z.ltb_spec (-1 + Z.of_nat (length a)) (Z.of_nat (length a))); [|lia]. simpl.
    replace (Z.to_nat (-1 + Z.of_nat (length a))) with (length a - 1)%nat by lia.
    destruct (exists_last Ha) as (a' & x & ->).
    rewrite last_last, length_app. simpl.
    replace (length a' + 1 - 1)%nat with (length a' + 0)%nat by lia.
    now rewrite lookup_app_r, Nat.add_0_r, Nat.sub_diag by lia.
  - destruct a; [congruence|]. simpl in H0. lia.
Qed.

Lemma getitem_lookup {A : Type} (a : list A) (n : nat) (x : A) :
  a !! n = Some x -> getitem a (Z.of_nat n) = Ok x.
Proof.
  intros H. pose proof (lookup_lt_Some _ _ _ H) as Hn.
  destruct (getitem_in_range a (Z.of_nat n) ltac:(lia)) as [y [Hy Ly]].
  rewrite Nat2Z.id in Ly. congruence.
Qed.

Lemma lookup_repeat {A : Type} (x : A) (n i : nat) :
  (i < n)%nat -> repeat x n !! i = Some x.
Proof.
  revert i. induction n as [|n IH]; intros [|i] Hi; simpl; try lia; [reflexivity|].
  apply IH. lia.
Qed.

Lemma put_Forall {A : Type} (P : A -> Prop) (a : list A) (idx : list nat) (v : A) (a' : list A) :
  put a idx v = Ok a' -> Forall P a -> P v -> Forall P a'.
Proof.
  revert a. induction idx as [|i idx IH]; intros a; simpl.
  - now intros [= <-].
  - destruct (Nat.ltb_spec i (length a)); [|discriminate].
    intros Hput Ha Hv. apply (IH _ Hput); [|exact Hv].
    now apply Forall_insert.
Qed.

Lemma Forall_map_all {A B : Type} (g : A -> B) (P : B -> Prop) (l : list A) :
  (forall x, P (g x)) -> Forall P (map g l).
Proof. intros Hg. induction l; simpl; constructor; auto. Qed.

Lemma Forall_map_image {A B : Type} (g : A -> B) (P : A -> Prop) (Q : B -> Prop) (l : list A) :
  (forall x, P x -> Q (g x)) -> Forall P l -> Forall Q (map g l).
Proof. intros Hg. induction 1; simpl; constructor; auto. Qed.

Lemma broadcast2_Forall {A B C : Type} (f : A -> B -> C) (P : C -> Prop)
  (a : list A) (b : list B) (c : list C) :
  (forall x y, P (f x y)) -> broadcast2 f a b = Ok c -> Forall P c.
Proof.
  intros Hf. unfold broadcast2.
  destruct (length a =? length b)%nat.
  - intros [= <-]. apply Forall_forall. intros z Hz.
    apply elem_of_zip_with in Hz. destruct Hz as (x & y & -> & _). apply Hf.
  - destruct b as [|y [|y' b]]; destruct a as [|x [|x' a]]; try discriminate;
      intros [= <-]; simpl; repeat constructor; try apply Hf;
      apply Forall_map_all; intros; apply Hf.
Qed.

Lemma np_where_nil {A : Type} (P : A -> bool) (l : list A) :
  np_where P l = [] -> forall x, In x l -> P x = false.
Proof.
  intros Hnil x Hin.
  destruct (P x) eqn:Px; [exfalso|reflexivity].
  apply list_elem_of_In, list_elem_of_lookup in Hin. destruct Hin as [k Hk].
  assert (Hk' : In k (np_where P l)) by (apply np_where_spec; eauto).
  rewrite Hnil in Hk'. exact Hk'.
Qed.



Lemma combine_firstn_l {A B : Type} (l1 : list A) (l2 : list B) :
  combine (firstn (length l2) l1) l2 = combine l1 l2.
Proof.
  revert l2. induction l1 as [|a l1 IH]; intros [|b l2]; simpl; try reflexivity.
  now rewrite IH.
Qed.

(** Stepping through a sequence of Python statements that returned. *)
Ltac inv_bind H :=
  unfold mbind, result_bind, rbind in H;
  repeat match type of H with
         | match ?m with Ok _ => _ | Raise _ => _ end = _ =>
             let E := fresh "E" in
             destruct m eqn:E; [|discriminate H]; cbv beta iota in H
         end.

(** ** More on index arrays

    Facts about [np.where], index assignment and list positions that the
    sections below share. *)

(** Strictly ascending positions. *)
Definition ascending_positions (idx : list nat) : Prop :=
  forall a b : nat, (a < b < length idx)%nat -> (nth a idx 0 < nth b idx 0)%nat.

Lemma where_from_ascending_positions {A : Type} (P : A -> bool) (l : list A) (i : nat) :
  ascending_positions (where_from P i l).
Proof.
  revert i. induction l as [|x l IH]; intros i; simpl; [intros a b; simpl; lia|].
  destruct (P x); [|apply IH].
  intros a b Hab. simpl in Hab.
  destruct b as [|b]; [lia|]. destruct a as [|a]; simpl.
  - assert (Hin : In (nth b (where_from P (S i) l) 0%nat) (where_from P (S i) l))
      by (apply nth_In; lia).
    apply where_from_bounds in Hin. lia.
  - apply IH. lia.
Qed.

Lemma ascending_positions_tail (a : nat) (idx : list nat) :
  ascending_positions (a :: idx) -> ascending_positions idx.
Proof. intros H i j Hij. apply (H (S i) (S j)). simpl. lia. Qed.

Lemma where_from_length {A : Type} (P : A -> bool) (i : nat) (l : list A) :
  (length (where_from P i l) <= length l)%nat.
Proof.
  revert i. induction l as [|x l IH]; intros i; simpl; [lia|].
  destruct (P x); simpl; specialize (IH (S i)); lia.
Qed.

Lemma where_from_map {A B : Type} (g : A -> B) (P : B -> bool) (i : nat) (l : list A) :
  where_from P i (map g l) = where_from (fun x => P (g x)) i l.
Proof.
  revert i. induction l as [|x l IH]; intros i; simpl; [reflexivity|].
  now rewrite IH.
Qed.

Lemma where_from_ext {A : Type} (P Q : A -> bool) (i : nat) (l : list A) :
  (forall x, P x = Q x) -> where_from P i l = where_from Q i l.
Proof.
  intros H. revert i. induction l as [|x l IH]; intros i; simpl; [reflexivity|].
  now rewrite H, IH.
Qed.

Lemma np_where_all_false {A : Type} (P : A -> bool) (l : list A) :
  Forall (fun x => P x = false) l -> np_where P l = [].
Proof.
  intros H. unfold np_where. generalize 0%nat.
  induction H as [|x l Hx _ IH]; intros i; simpl; [reflexivity|].
  rewrite Hx. apply IH.
Qed.

Lemma Forall_zip_with_all {A B C : Type} (f : A -> B -> C) (P : C -> Prop)
  (a : list A) (b : list B) :
  (forall x y, P (f x y)) -> Forall P (zip_with f a b).
Proof.
  intros H. revert b. induction a as [|x a IH]; intros [|y b]; simpl; constructor; auto.
Qed.

Lemma last_nth_pred {A : Type} (l : list A) (d : A) :
  List.last l d = nth (length l - 1) l d.
Proof.
  induction l as [|x [|y l] IH]; try reflexivity.
  change (List.last (x :: y :: l) d) with (List.last (y :: l) d).
  rewrite IH. simpl. now rewrite Nat.sub_0_r.
Qed.

Lemma firstn_snoc_nth {A : Type} (l : list A) (m : nat) (d : A) :
  (m < length l)%nat -> firstn (S m) l = firstn m l ++ [nth m l d].
Proof.
  revert m. induction l as [|x l IH]; intros m Hm; simpl in Hm; [lia|].
  destruct m as [|m]; [reflexivity|].
  cbn [firstn nth app]. f_equal. apply IH. lia.
Qed.

Lemma put_length {A : Type} (a : list A) (idx : list nat) (v : A) (a' : list A) :
  put a idx v = Ok a' -> length a' = length a.
Proof.
  revert a. induction idx as [|i idx IH]; intros a; simpl.
  - now intros [= <-].
  - destruct (i <? length a)%nat; [|discriminate].
    intros H. rewrite (IH _ H). apply length_insert.
Qed.

Lemma put_lookup {A : Type} (a : list A) (idx : list nat) (v : A) (a' : list A) (i : nat) :
  put a idx v = Ok a' ->
  (In i idx -> a' !! i = Some v) /\ (~ In i idx -> a' !! i = a !! i).
Proof.
  revert a. induction idx as [|j idx IH]; intros a; simpl.
  - intros [= <-]. tauto.
  - destruct (Nat.ltb_spec j (length a)) as [Hj|]; [|discriminate].
    intros Hput. destruct (IH _ Hput) as [Hin Hout]. split.
    + intros [->|Hi]; [|now apply Hin].
      destruct (in_dec Nat.eq_dec i idx) as [Hi|Hi]; [now apply Hin|].
      rewrite (Hout Hi). now apply list_lookup_insert_eq.
    + intros Hi. rewrite Hout by tauto.
      apply list_lookup_insert_ne. intros ->. tauto.
Qed.

(** ** Burst segmentation: [identify_samples] *)

Module Burst.

Local Open Scope Z_scope.

(** Timestamps are [datetime64[ns]] values: nanoseconds since the epoch. *)
Definition datetime64 := Z.

Definition ns_per_second : Z := 1000000000.
Definition seconds_per_day : Z := 86400.

(** [ds["time"].diff(dim="time")]: successive differences, one entry shorter. *)
Definition diff (t : list datetime64) : list Z := diff_with Z.sub t.

(** The [.dt.seconds] accessor: the seconds component of a timedelta once
    whole days are split off, so always in [0, 86400). *)
Definition dt_seconds (td : Z) : Z := (td / ns_per_second) mod seconds_per_day.

(** [sample[start:stop] = v] for non-negative bounds: positions outside the
    array are ignored by the slice. *)
Definition slice_assign (start stop : nat) (v : Z) (sample : list Z) : list Z :=
  imap (fun j x => if (start <=? j)%nat && (j <? stop)%nat then v else x) sample.

(** One pass of the [for i, end in enumerate(ends)] loop body. *)
Definition label_step (ends : list nat) (sample : list Z) (ie : nat * nat) : list Z :=
  let '(i, end_) := ie in
  let len := length sample in
  let '(start, stop) :=
    if (i =? 0)%nat then (0%nat, end_)
    else if (end_ =? List.last ends 0%nat)%nat
         then (nth (i - 1) ends 0%nat, S len)
         else (nth (i - 1) ends 0%nat, end_) in
  slice_assign start stop (Z.of_nat i) sample.

Definition enumerate {A : Type} (l : list A) : list (nat * A) :=
  combine (seq 0 (length l)) l.

Definition gap_ends (time : list datetime64) (threshold : Z) : list nat :=
  map S (np_where (fun d => threshold <? d) (map dt_seconds (diff time))).

Definition identify_samples (time : list datetime64) (threshold : Z) : list Z :=
  let ends := gap_ends time threshold in
  let sample := repeat 0 (length time) in
  fold_left (label_step ends) (enumerate ends) sample.

(** The number of distinct labels of a labelling. *)
Definition distinct_labels (sample : list Z) : nat := length (nodup Z.eq_dec sample).

(** Timestamps in whole seconds, for readable examples. *)
Definition at_seconds (s : Z) : datetime64 := s * ns_per_second.

Lemma slice_assign_length start stop v sample :
  length (slice_assign start stop v sample) = length sample.
Proof. unfold slice_assign. apply length_imap. Qed.

Lemma slice_assign_zero_zeros start stop n :
  slice_assign start stop 0 (repeat 0 n) = repeat 0 n.
Proof.
  unfold slice_assign.
  apply list_eq. intros j.
  rewrite list_lookup_imap.
  destruct (repeat 0 n !! j) as [x|] eqn:E; simpl; [|reflexivity].
  assert (Hx : x = 0).
  { apply list_elem_of_lookup_2 in E. apply list_elem_of_In in E.
    now apply repeat_spec in E. }
  subst x. now destruct (_ && _).
Qed.

(** With a single detected gap the loop runs once, with [i = 0], and writes
    label [0] over a prefix of an array that already holds zeros: the
    samples after the gap never receive a label of their own. *)
Lemma identify_samples_single_gap (time : list datetime64) (threshold : Z) (e : nat) :
  gap_ends time threshold = [e] ->
  identify_samples time threshold = repeat 0 (length time).
Proof.
  intros He. unfold identify_samples. rewrite He. cbn.
  apply slice_assign_zero_zeros.
Qed.

(** C1 (evaluation at the failing input).  Five samples one second apart
    except for a 3000-second gap before the fourth, threshold 2400: the gap
    is detected at index 3, yet every sample is labelled [0], so one burst
    id is produced where the burst contract asks for two. *)
Theorem identify_samples_one_gap_single_label :
  gap_ends (map at_seconds [0; 1; 2; 3002; 3003]) 2400 = [3%nat] /\
  identify_samples (map at_seconds [0; 1; 2; 3002; 3003]) 2400 = [0; 0; 0; 0; 0] /\
  distinct_labels (identify_samples (map at_seconds [0; 1; 2; 3002; 3003]) 2400) = 1%nat.
Proof. repeat split; vm_compute; reflexivity. Qed.

(** *** What the labelling loop computes *)

(** The number of the given gap positions at or before sample [j]. *)
Definition gaps_before (ends : list nat) (j : nat) : nat :=
  length (List.filter (fun e => (e <=? j)%nat) ends).

Lemma gap_ends_ascending (time : list datetime64) (threshold : Z) :
  ascending_positions (gap_ends time threshold).
Proof.
  unfold gap_ends, np_where. intros a b Hab. rewrite length_map in Hab.
  rewrite (nth_indep _ 0%nat 1%nat), (nth_indep _ 0%nat 1%nat (n := b))
    by (rewrite length_map; lia).
  rewrite !(map_nth S).
  pose proof (where_from_ascending_positions (fun d => threshold <? d)
                (map dt_seconds (diff time)) 0 a b Hab). lia.
Qed.

Lemma gaps_before_snoc (l : list nat) (e j : nat) :
  gaps_before (l ++ [e]) j = (gaps_before l j + if (e <=? j)%nat then 1 else 0)%nat.
Proof.
  unfold gaps_before. rewrite List.filter_app, length_app. simpl.
  now destruct (e <=? j)%nat.
Qed.

Lemma gaps_before_skip (ends : list nat) (m j : nat) :
  (m < length ends)%nat -> (j < nth m ends 0)%nat ->
  gaps_before (firstn (S m) ends) j = gaps_before (firstn m ends) j.
Proof.
  intros Hm Hj. rewrite (firstn_snoc_nth ends m 0%nat Hm), gaps_before_snoc.
  destruct (Nat.leb_spec (nth m ends 0%nat) j); lia.
Qed.

Lemma gaps_before_all (ends : list nat) (m j : nat) :
  ascending_positions ends ->
  (m <= length ends)%nat ->
  (1 <= m -> nth (m - 1) ends 0 <= j)%nat ->
  gaps_before (firstn m ends) j = m.
Proof.
  intros Hasc. induction m as [|m IH]; intros Hm Hj; [reflexivity|].
  rewrite (firstn_snoc_nth ends m 0%nat) by lia. rewrite gaps_before_snoc.
  replace (S m - 1)%nat with m in Hj by lia.
  rewrite IH; [| lia |].
  - destruct (Nat.leb_spec (nth m ends 0%nat) j); lia.
  - intros H1. specialize (Hasc (m - 1)%nat m). lia.
Qed.

Lemma slice_assign_tabulate (start stop : nat) (v : Z) (f : nat -> Z) (n : nat) :
  slice_assign start stop v (map f (seq 0 n))
  = map (fun j => if (start <=? j)%nat && (j <? stop)%nat then v else f j) (seq 0 n).
Proof.
  unfold slice_assign. apply list_eq. intros j.
  rewrite list_lookup_imap, !list_lookup_fmap.
  destruct (seq 0 n !! j) as [k|] eqn:E; simpl; [|reflexivity].
  apply lookup_seq in E. destruct E as [-> _]. reflexivity.
Qed.

Lemma enumerate_snoc {A : Type} (l : list A) (m : nat) (d : A) :
  (m < length l)%nat ->
  firstn (S m) (enumerate l) = firstn m (enumerate l) ++ [(m, nth m l d)].
Proof.
  intros Hm. unfold enumerate.
  rewrite (firstn_snoc_nth _ m (0%nat, d)) by (rewrite length_combine, length_seq; lia).
  f_equal. f_equal. rewrite combine_nth by now rewrite length_seq.
  rewrite seq_nth by lia. reflexivity.
Qed.

Lemma repeat_tabulate (n : nat) : repeat 0 n = map (fun _ : nat => 0) (seq 0 n).
Proof.
  apply list_eq. intros j. rewrite list_lookup_fmap.
  destruct (Nat.lt_ge_cases j n) as [H|H].
  - rewrite lookup_seq_lt by exact H. simpl. apply lookup_repeat. exact H.
  - rewrite lookup_seq_ge by exact H. simpl. apply lookup_ge_None_2.
    now rewrite repeat_length.
Qed.

(** After the passes for the gaps [0 .. m-1], none of them the last one,
    the samples before gap [m-1] carry their final labels and the samples
    from it onward still carry the initial zero. *)
Lemma labelling_prefix (ends : list nat) (n m : nat) :
  ascending_positions ends ->
  (m < length ends)%nat ->
  fold_left (label_step ends) (firstn m (enumerate ends)) (repeat 0 n)
  = map (fun j => if (j <? nth (m - 1) ends 0)%nat
                  then Z.of_nat (gaps_before (firstn m ends) j) else 0)
        (seq 0 n).
Proof.
  intros Hasc. induction m as [|m IH]; intros Hm.
  - simpl. rewrite repeat_tabulate. apply map_ext. intros j. now destruct (_ <? _)%nat.
  - rewrite (enumerate_snoc ends m 0%nat) by lia.
    rewrite fold_left_app, IH by lia. cbn [fold_left label_step].
    rewrite length_map, length_seq.
    replace (S m - 1)%nat with m by lia.
    assert (Hlast : m = 0%nat \/
                    (nth m ends 0 =? List.last ends 0)%nat = false).
    { right. apply Nat.eqb_neq.
      rewrite last_nth_pred.
      specialize (Hasc m (length ends - 1)%nat). lia. }
    destruct (Nat.eqb_spec m 0) as [->|Hm0].
    + rewrite slice_assign_tabulate. apply map_ext. intros j.
      cbn [firstn Nat.sub]. unfold gaps_before at 1. cbn [List.filter length].
      destruct (Nat.ltb_spec j (nth 0 ends 0%nat)) as [Hj|Hj]; simpl.
      * rewrite gaps_before_skip by lia. reflexivity.
      * now destruct (j <? nth 0 ends 0)%nat.
    + destruct Hlast as [? | Hl]; [lia|]. rewrite Hl.
      rewrite slice_assign_tabulate. apply map_ext. intros j.
      assert (Hlt : (nth (m - 1) ends 0 < nth m ends 0)%nat).
      { specialize (Hasc (m - 1)%nat m). lia. }
      destruct (Nat.leb_spec (nth (m - 1) ends 0%nat) j) as [H1|H1];
        destruct (Nat.ltb_spec j (nth m ends 0%nat)) as [H2|H2]; simpl.
      * rewrite gaps_before_skip by lia.
        rewrite gaps_before_all; [reflexivity|exact Hasc|lia|intros; exact H1].
      * destruct (Nat.ltb_spec j (nth (m - 1) ends 0%nat)); [lia|reflexivity].
      * destruct (Nat.ltb_spec j (nth (m - 1) ends 0%nat)); [|lia].
        rewrite gaps_before_skip by lia. reflexivity.
      * lia.
Qed.

(** X1.  [identify_samples] gives sample [j] the number of detected gaps,
    the last one not counted, that lie at or before [j].  The labels start
    at 0 and go up by one at every detected gap but the last: the samples
    after the last gap carry the label of the samples just before it, so
    [k] detected gaps give [max 1 k] labels, not [k + 1]. *)
Theorem identify_samples_ignores_last_gap (time : list datetime64) (threshold : Z) :
  identify_samples time threshold
  = map (fun j => Z.of_nat (gaps_before (removelast (gap_ends time threshold)) j))
        (seq 0 (length time)).
Proof.
  unfold identify_samples.
  pose proof (gap_ends_ascending time threshold) as Hasc.
  set (ends := gap_ends time threshold) in *.
  set (n := length time).
  rewrite removelast_firstn_len.
  destruct (length ends) as [|m] eqn:Hk.
  - destruct ends; [|discriminate]. simpl. apply repeat_tabulate.
  - rewrite <- (firstn_all (enumerate ends)).
    replace (length (enumerate ends)) with (S m)
      by (unfold enumerate; rewrite length_combine, length_seq; lia).
    rewrite (enumerate_snoc ends m 0%nat) by lia.
    rewrite fold_left_app, labelling_prefix by (exact Hasc || lia).
    cbn [fold_left label_step Init.Nat.pred].
    rewrite length_map, length_seq.
    destruct (Nat.eqb_spec m 0) as [->|Hm0].
    + rewrite slice_assign_tabulate.
      apply map_ext. intros j.
      cbn [firstn]. unfold gaps_before. cbn [List.filter length Z.of_nat].
      repeat match goal with |- context [if ?b then _ else _] => destruct b end;
        reflexivity.
    + rewrite last_nth_pred, Hk. replace (S m - 1)%nat with m by lia.
      rewrite Nat.eqb_refl, slice_assign_tabulate.
      apply map_ext_in. intros j Hj. apply in_seq in Hj.
      destruct (Nat.leb_spec (nth (m - 1) ends 0%nat) j) as [H1|H1];
        destruct (Nat.ltb_spec j (S n)) as [H2|H2]; try lia; simpl.
      * rewrite gaps_before_all; [reflexivity|exact Hasc|lia|intros; exact H1].
      * destruct (Nat.ltb_spec j (nth (m - 1) ends 0%nat)); [reflexivity|lia].
Qed.

Lemma dt_seconds_whole_days (td D : Z) :
  dt_seconds (td + D * seconds_per_day * ns_per_second) = dt_seconds td.
Proof.
  unfold dt_seconds. rewrite Z.div_add by (unfold ns_per_second; lia).
  apply Z_mod_plus_full.
Qed.

Lemma diff_shift (c : Z) (t : list Z) :
  diff (map (fun x => x + c) t) = diff t.
Proof.
  unfold diff. induction t as [|x [|y t] IH]; try reflexivity.
  cbn [map diff_with] in *. rewrite IH. f_equal. lia.
Qed.

Lemma gap_seconds_shift (D : Z) (pre suf : list datetime64) :
  map dt_seconds (diff (pre ++ map (fun t => t + D * seconds_per_day * ns_per_second) suf))
  = map dt_seconds (diff (pre ++ suf)).
Proof.
  induction pre as [|x [|x' pre] IH].
  - simpl. now rewrite diff_shift.
  - destruct suf as [|y suf]; [reflexivity|].
    simpl in IH. unfold diff in *. cbn [app map diff_with] in *.
    rewrite IH. f_equal.
    replace (y + D * seconds_per_day * ns_per_second - x)
      with ((y - x) + D * seconds_per_day * ns_per_second) by lia.
    apply dt_seconds_whole_days.
  - unfold diff in *. cbn [app map diff_with] in *. now rewrite IH.
Qed.

(** X2.  Only the seconds-within-the-day part of each time step is compared
    with the threshold ([.dt.seconds]): moving every sample from some point
    on by a whole number of days, forwards or backwards, changes no label.
    A gap of exactly one day is as invisible as no gap. *)
Theorem identify_samples_whole_days_invisible
  (pre suf : list datetime64) (D threshold : Z) :
  identify_samples (pre ++ map (fun t => t + D * seconds_per_day * ns_per_second) suf)
                   threshold
  = identify_samples (pre ++ suf) threshold.
Proof.
  unfold identify_samples, gap_ends.
  now rewrite gap_seconds_shift, !length_app, length_map.
Qed.

End Burst.

(** ** Frame rotation: [rotate]

    The round-trip property is stated in real arithmetic, so this section
    works on [R].  A (3 x n) array is stored by columns: entry [j] of a
    [series] is the triple [(a[0,j], a[1,j], a[2,j])]. *)

Module Rotation.

Local Open Scope R_scope.

Definition vec3 : Type := (R * R * R)%type.
Definition series : Type := list vec3.

(** The body of [rotate] at one sample index; the source computes the same
    expressions on whole rows. *)
Definition rotate_sample (IFLAG : Z) (IN ANGLES : vec3) : vec3 :=
  let '(phi, theta, psi) := ANGLES in
  let '(up, vp, wp) := IN in
  if (IFLAG =? 1)%Z then
    let u := up * cos theta * cos psi + vp * cos theta * sin psi - wp * sin theta in
    let v := up * (sin phi * sin theta * cos psi - cos phi * sin psi)
             + vp * (sin phi * sin theta * sin psi + cos phi * cos psi)
             + wp * (cos theta * sin phi) in
    let w := up * (cos phi * sin theta * cos psi + sin phi * sin psi)
             + vp * (cos phi * sin theta * sin psi - sin phi * cos psi)
             + wp * (cos theta * cos phi) in
    (u, v, w)
  else
    let u := up * cos theta * cos psi
             + vp * (sin phi * sin theta * cos psi - cos phi * sin psi)
             + wp * (cos phi * sin theta * cos psi + sin phi * sin psi) in
    let v := up * cos theta * sin psi
             + vp * (sin phi * sin theta * sin psi + cos phi * cos psi)
             + wp * (cos phi * sin theta * sin psi - sin phi * cos psi) in
    let w := up * (- sin theta) + vp * (cos theta * sin phi) + wp * (cos theta * cos phi) in
    (u, v, w).

(** [rotate(IN, ANGLES, IFLAG)].  Rows of equal length combine entry by
    entry; NumPy stretches a one-column operand over the other and rejects
    any other pair of lengths. *)
Definition rotate (IN ANGLES : series) (IFLAG : Z) : result series :=
  broadcast2 (rotate_sample IFLAG) IN ANGLES.

Lemma rotate_sample_inverse (v a : vec3) :
  rotate_sample 1 (rotate_sample 0 v a) a = v.
Proof.
  destruct a as [[phi theta] psi], v as [[up vp] wp].
  unfold rotate_sample; simpl.
  pose proof (sin2_cos2 phi) as Hp.
  pose proof (sin2_cos2 theta) as Ht.
  pose proof (sin2_cos2 psi) as Hs.
  unfold Rsqr in Hp, Ht, Hs.
  generalize dependent (sin phi). generalize dependent (cos phi).
  generalize dependent (sin theta). generalize dependent (cos theta).
  generalize dependent (sin psi). generalize dependent (cos psi).
  intros c3 s3 Hs c2 s2 Ht c1 s1 Hp.
  repeat f_equal; nsatz.
Qed.

Lemma zip_with_rotate_inverse (IN ANGLES : series) :
  length IN = length ANGLES ->
  zip_with (rotate_sample 1) (zip_with (rotate_sample 0) IN ANGLES) ANGLES = IN.
Proof.
  revert ANGLES.
  induction IN as [|v IN IH]; intros [|a ANGLES] Hlen; simpl in *; try discriminate.
  - reflexivity.
  - rewrite rotate_sample_inverse. f_equal. apply IH. congruence.
Qed.

Lemma rotate_same_length (IN ANGLES : series) (IFLAG : Z) :
  length IN = length ANGLES ->
  rotate IN ANGLES IFLAG = Ok (zip_with (rotate_sample IFLAG) IN ANGLES).
Proof. apply broadcast2_same_length. Qed.

(** C3.  For a (3 x n) vector series and a (3 x n) Euler-angle series,
    rotating body to earth (flag 0) returns a series, and rotating that
    series back earth to body (flag 1) with the same angles returns the
    original vectors exactly, in real arithmetic. *)
Theorem rotate_round_trip (IN ANGLES : series) :
  length IN = length ANGLES ->
  exists EARTH : series,
    rotate IN ANGLES 0 = Ok EARTH /\
    length EARTH = length IN /\
    rotate EARTH ANGLES 1 = Ok IN.
Proof.
  intros Hlen.
  exists (zip_with (rotate_sample 0) IN ANGLES).
  assert (Hl : length (zip_with (rotate_sample 0) IN ANGLES) = length IN).
  { rewrite length_zip_with. lia. }
  split; [now apply rotate_same_length|].
  split; [exact Hl|].
  rewrite rotate_same_length by congruence.
  f_equal. now apply zip_with_rotate_inverse.
Qed.

Lemma rotate_round_trip_witness :
  length [(1, 2, 3); (0, -1, 4)] = length [(0, 1, 2); (1, 0, 3)] /\
  exists EARTH : series,
    rotate [(1, 2, 3); (0, -1, 4)] [(0, 1, 2); (1, 0, 3)] 0 = Ok EARTH /\
    length EARTH = 2%nat /\
    rotate EARTH [(0, 1, 2); (1, 0, 3)] 1 = Ok [(1, 2, 3); (0, -1, 4)].
Proof.
  split; [reflexivity|].
  apply (rotate_round_trip [(1, 2, 3); (0, -1, 4)] [(0, 1, 2); (1, 0, 3)]).
  reflexivity.
Defined.

(** *** Rotations keep vector lengths, invert both ways, and compose *)

(** The squared Euclidean length of a column. *)
Definition norm2 (v : vec3) : R :=
  let '(a, b, c) := v in a * a + b * b + c * c.

Ltac trig_atoms :=
  repeat match goal with
         | |- context [sin ?a] =>
             let s := fresh "s" in let c := fresh "c" in let H := fresh "H" in
             pose proof (sin2_cos2 a) as H; unfold Rsqr in H;
             set (s := sin a) in *; set (c := cos a) in *;
             clearbody s c
         end.

Lemma rotate_sample_norm (IFLAG : Z) (v a : vec3) :
  norm2 (rotate_sample IFLAG v a) = norm2 v.
Proof.
  destruct a as [[phi theta] psi], v as [[up vp] wp].
  unfold rotate_sample, norm2. destruct (IFLAG =? 1)%Z; trig_atoms; nsatz.
Qed.

Lemma rotate_sample_inverse_rev (v a : vec3) :
  rotate_sample 0 (rotate_sample 1 v a) a = v.
Proof.
  destruct a as [[phi theta] psi], v as [[up vp] wp].
  unfold rotate_sample; simpl. trig_atoms.
  repeat f_equal; nsatz.
Qed.

(** X3.  [rotate] changes the direction of a vector, never its size: in
    either direction, each column of the result has the Euclidean length
    of the column of [IN] it was computed from. *)
Theorem rotate_preserves_norm (IN ANGLES : series) (IFLAG : Z) :
  length IN = length ANGLES ->
  exists OUT : series,
    rotate IN ANGLES IFLAG = Ok OUT /\
    Forall2 (fun v w => norm2 w = norm2 v) IN OUT.
Proof.
  intros Hlen. eexists. split; [now apply rotate_same_length|].
  revert ANGLES Hlen. induction IN as [|v IN IH]; intros [|a ANGLES] Hlen;
    simpl in *; try discriminate; constructor.
  - apply rotate_sample_norm.
  - apply IH. congruence.
Qed.

Lemma rotate_preserves_norm_witness :
  length [(1, 2, 3); (0, -1, 4)] = length [(0, 1, 2); (1, 0, 3)] /\
  exists OUT : series,
    rotate [(1, 2, 3); (0, -1, 4)] [(0, 1, 2); (1, 0, 3)] 0 = Ok OUT /\
    Forall2 (fun v w => norm2 w = norm2 v) [(1, 2, 3); (0, -1, 4)] OUT.
Proof.
  split; [reflexivity|].
  apply (rotate_preserves_norm [(1, 2, 3); (0, -1, 4)] [(0, 1, 2); (1, 0, 3)] 0).
  reflexivity.
Defined.

(** X4.  The round trip also closes the other way round: rotating earth to
    body (flag 1) and then body to earth (flag 0) with the same angles
    returns the original series, so the two directions of [rotate] are
    inverse to each other on both sides. *)
Theorem rotate_round_trip_earth_first (IN ANGLES : series) :
  length IN = length ANGLES ->
  exists BODY : series,
    rotate IN ANGLES 1 = Ok BODY /\
    length BODY = length IN /\
    rotate BODY ANGLES 0 = Ok IN.
Proof.
  intros Hlen.
  exists (zip_with (rotate_sample 1) IN ANGLES).
  assert (Hl : length (zip_with (rotate_sample 1) IN ANGLES) = length IN).
  { rewrite length_zip_with. lia. }
  split; [now apply rotate_same_length|].
  split; [exact Hl|].
  rewrite rotate_same_length by congruence.
  f_equal. revert ANGLES Hlen Hl.
  induction IN as [|v IN IH]; intros [|a ANGLES] Hlen Hl; simpl in *; try discriminate.
  - reflexivity.
  - rewrite rotate_sample_inverse_rev. f_equal. apply IH; [congruence|].
    rewrite length_zip_with. lia.
Qed.

Lemma rotate_round_trip_earth_first_witness :
  length [(1, 2, 3); (0, -1, 4)] = length [(0, 1, 2); (1, 0, 3)] /\
  exists BODY : series,
    rotate [(1, 2, 3); (0, -1, 4)] [(0, 1, 2); (1, 0, 3)] 1 = Ok BODY /\
    length BODY = 2%nat /\
    rotate BODY [(0, 1, 2); (1, 0, 3)] 0 = Ok [(1, 2, 3); (0, -1, 4)].
Proof.
  split; [reflexivity|].
  apply (rotate_round_trip_earth_first [(1, 2, 3); (0, -1, 4)] [(0, 1, 2); (1, 0, 3)]).
  reflexivity.
Defined.

(** A series of pure yaw rotations: roll and pitch are zero. *)
Definition yaw_only (psi : list R) : series := map (fun a => (0, 0, a)) psi.

Lemma rotate_sample_yaw_compose (v : vec3) (a b : R) :
  rotate_sample 0 (rotate_sample 0 v (0, 0, a)) (0, 0, b) = rotate_sample 0 v (0, 0, a + b).
Proof.
  destruct v as [[up vp] wp]. unfold rotate_sample. simpl.
  rewrite cos_plus, sin_plus, sin_0, cos_0. f_equal; [f_equal|]; ring.
Qed.

(** X5.  Yaw rotations add up: with roll and pitch zero, rotating body to
    earth by the yaw angles [psi1] and then by [psi2] is the same as
    rotating once by [psi1 + psi2]. *)
Theorem rotate_yaw_composes (IN : series) (psi1 psi2 : list R) :
  length psi1 = length IN -> length psi2 = length IN ->
  exists MID : series,
    rotate IN (yaw_only psi1) 0 = Ok MID /\
    rotate MID (yaw_only psi2) 0 = rotate IN (yaw_only (zip_with Rplus psi1 psi2)) 0.
Proof.
  intros H1 H2. unfold yaw_only.
  exists (zip_with (rotate_sample 0) IN (map (fun a => (0, 0, a)) psi1)).
  split; [apply rotate_same_length; rewrite length_map; lia|].
  rewrite !rotate_same_length
    by (rewrite ?length_zip_with, ?length_map, ?length_zip_with; lia).
  f_equal. revert psi1 psi2 H1 H2.
  induction IN as [|v IN IH]; intros [|a psi1] [|b psi2] H1 H2; simpl in H1, H2;
    try discriminate; [reflexivity|].
  cbn [zip_with map].
  rewrite rotate_sample_yaw_compose. f_equal. apply IH; congruence.
Qed.

Lemma rotate_yaw_composes_witness :
  length [1; 2] = length [(1, 2, 3); (0, -1, 4)] /\
  length [3; 4] = length [(1, 2, 3); (0, -1, 4)] /\
  exists MID : series,
    rotate [(1, 2, 3); (0, -1, 4)] (yaw_only [1; 2]) 0 = Ok MID /\
    rotate MID (yaw_only [3; 4]) 0
    = rotate [(1, 2, 3); (0, -1, 4)] (yaw_only (zip_with Rplus [1; 2] [3; 4])) 0.
Proof.
  split; [reflexivity|]. split; [reflexivity|].
  apply (rotate_yaw_composes [(1, 2, 3); (0, -1, 4)] [1; 2] [3; 4]); reflexivity.
Defined.

End Rotation.

(** ** float64 arrays *)

Module F64.

Local Open Scope float_scope.

(** Conversion of a Python integer to float64; exact below 2^53, which
    covers every array length, index and band count that occurs here. *)
Definition of_Z (z : Z) : float :=
  if (z <? 0)%Z then - of_uint63 (Uint63.of_Z (- z)) else of_uint63 (Uint63.of_Z z).

(** [np.cumsum]: the first entry is copied, later ones accumulate. *)
Fixpoint cumsum_from (acc : float) (a : list float) : list float :=
  match a with
  | [] => []
  | x :: a' => let acc' := acc + x in acc' :: cumsum_from acc' a'
  end.

Definition cumsum (a : list float) : list float :=
  match a with
  | [] => []
  | x :: a' => x :: cumsum_from x a'
  end.

(** [np.maximum] on two entries: a NaN on either side is the result. *)
Definition fmax (a b : float) : float :=
  if is_nan a then a else if is_nan b then b else if a <? b then b else a.

(** [np.max]: refuses an empty array. *)
Definition np_max (a : list float) : result float :=
  match a with
  | [] => Raise ValueError
  | x :: a' => Ok (fold_left fmax a' x)
  end.

Lemma cumsum_from_length acc a : length (cumsum_from acc a) = length a.
Proof. revert acc. induction a; intros; simpl; auto. Qed.

Lemma cumsum_length a : length (cumsum a) = length a.
Proof. destruct a; simpl; auto using cumsum_from_length. Qed.

End F64.

(** ** Spectral estimation: [log_avg], [wave_spectra], [wave_spectra_statistics] *)

Module Spectra.

Import F64.
Local Open Scope float_scope.

(** Transcendental and rounding functions of the C library as NumPy exposes
    them.  Their values are not defined in this file; every statement below
    holds for all of them. *)
Class NumLib : Type := {
  np_log : float -> float;
  np_exp : float -> float;
  np_floor : float -> float;
  np_arctan2 : float -> float -> float;
  np_abs_complex : float * float -> float;
  scipy_fft : list float -> result (list (float * float));
}.

(** The five arrays [log_avg] returns: [F, S, dF, Ns, Ne]. *)
Record bands : Type := {
  band_F : list float;
  band_S : list float;
  band_dF : list float;
  band_Ns : list Z;
  band_Ne : list Z;
}.

Section LogAvg.

Context {lib : NumLib}.

(** [np.concatenate([np.array([AA[0]+1]), np.diff(AA)])]: samples per band. *)
Definition band_sizes (AA0 : Z) (AA : list Z) : list Z :=
  (AA0 + 1)%Z :: diff_with Z.sub AA.

(** Band transitions: the positions where the log-frequency band number
    increases, followed by the last position. *)
Definition transitions (f : list float) (lf0 dlf : float) : list Z :=
  let lf := map np_log f in
  let NDX := map (fun x => 1 + np_floor ((x - lf0) / dlf)) lf in
  map Z.of_nat (np_where (fun d => 0 <? d) (diff_with PrimFloat.sub NDX))
    ++ [(Z.of_nat (length f) - 1)%Z].

Definition log_avg (f s : list float) (n : Z) : result bands :=
  let lf := map np_log f in
  lf_last ← getitem lf (Z.of_nat (length f) - 1);
  lf0 ← getitem lf 0;
  let dlf := 1.000000001 * (lf_last - lf0) / of_Z n in
  let AA := transitions f lf0 dlf in
  let Cs := cumsum s in
  let Cf := cumsum f in
  AA0 ← getitem AA 0;
  CfAA0 ← getitem Cf AA0;
  CfAA ← gather Cf AA;
  let sizes := map of_Z (band_sizes AA0 AA) in
  let F := zip_with PrimFloat.div (CfAA0 :: diff_with PrimFloat.sub CfAA) sizes in
  CsAA0 ← getitem Cs AA0;
  CsAA ← gather Cs AA;
  let S := zip_with PrimFloat.div (CsAA0 :: diff_with PrimFloat.sub CsAA) sizes in
  f9 ← getitem f 9;
  f8 ← getitem f 8;
  let dF := map (fun c => c * (f9 - f8)) sizes in
  let Ns := 0%Z :: map (fun a => (a + 1)%Z) (drop_last AA) in
  let Ne := AA in
  Ok {| band_F := F; band_S := S; band_dF := dF; band_Ns := Ns; band_Ne := Ne |}.

End LogAvg.

(** Samples per band as the caller computes them: [Ne - Ns + 1]. *)
Definition band_counts (b : bands) : list Z :=
  zip_with (fun e s => (e - s + 1)%Z) (band_Ne b) (band_Ns b).

Definition sumZ (l : list Z) : Z := fold_right Z.add 0%Z l.

(** [tiles start Ns Ne stop]: the closed index ranges [Ns[k] .. Ne[k]] are
    non-empty, start at [start], follow one another without gap or overlap,
    and end just before [stop]. *)
Fixpoint tiles (start : Z) (Ns Ne : list Z) (stop : Z) : Prop :=
  match Ns, Ne with
  | [], [] => start = stop
  | s :: Ns', e :: Ne' => s = start /\ (s <= e)%Z /\ tiles (e + 1) Ns' Ne' stop
  | _, _ => False
  end.

(** How many bands contain bin [i]. *)
Definition bands_containing (b : bands) (i : Z) : nat :=
  length (List.filter (fun se => ((fst se <=? i) && (i <=? snd se))%Z)
            (combine (band_Ns b) (band_Ne b))).

(** *** Index lemmas *)

(** [ascending start w m]: the entries of [w] increase strictly, the first
    is at least [start] and the last is below [m]. *)
Fixpoint ascending (start : Z) (w : list Z) (m : Z) : Prop :=
  match w with
  | [] => (start <= m)%Z
  | a :: w' => (start <= a)%Z /\ ascending (a + 1) w' m
  end.

Lemma ascending_weaken (start start' : Z) (w : list Z) (m : Z) :
  (start' <= start)%Z -> ascending start w m -> ascending start' w m.
Proof. destruct w; simpl; intuition lia. Qed.

Lemma where_from_ascending {A : Type} (P : A -> bool) (l : list A) (i : nat) (m : Z) :
  (Z.of_nat (i + length l) <= m)%Z ->
  ascending (Z.of_nat i) (map Z.of_nat (where_from P i l)) m.
Proof.
  revert i. induction l as [|x l IH]; intros i Hm; simpl length in *; simpl; [lia|].
  assert (Hnext : ascending (Z.of_nat (S i)) (map Z.of_nat (where_from P (S i) l)) m).
  { apply IH. lia. }
  destruct (P x); simpl.
  - split; [lia|]. replace (Z.of_nat i + 1)%Z with (Z.of_nat (S i)) by lia. exact Hnext.
  - eapply ascending_weaken; [|exact Hnext]. lia.
Qed.

Lemma ascending_bounds (start : Z) (w : list Z) (m : Z) :
  ascending start w m -> Forall (fun a => start <= a < m)%Z w.
Proof.
  revert start. induction w as [|a w IH]; intros start H; simpl in *; [constructor|].
  destruct H as [Ha Hw]. pose proof (IH _ Hw) as Hall.
  assert (Ham : (a < m)%Z).
  { destruct w as [|b w]; simpl in Hw; [lia|].
    inversion Hall; subst. lia. }
  constructor; [lia|].
  eapply Forall_impl; [exact Hall|]. simpl. intros; lia.
Qed.

Lemma ascending_tiles (start : Z) (w : list Z) (m : Z) :
  ascending start w m ->
  tiles start (start :: map (fun a => (a + 1)%Z) w) (w ++ [m]) (m + 1).
Proof.
  revert start. induction w as [|a w IH]; intros start H; simpl in *.
  - repeat split; lia.
  - destruct H as [Ha Hw]. repeat split; [lia|]. apply (IH _ Hw).
Qed.

Lemma tiles_length start Ns Ne stop :
  tiles start Ns Ne stop -> length Ns = length Ne.
Proof.
  revert start Ne. induction Ns as [|s Ns IH]; intros start [|e Ne]; simpl; try tauto.
  intros (_ & _ & H). f_equal. eapply IH, H.
Qed.

Lemma tiles_sum start Ns Ne stop :
  tiles start Ns Ne stop ->
  sumZ (zip_with (fun e s => (e - s + 1)%Z) Ne Ns) = (stop - start)%Z.
Proof.
  revert start Ne. induction Ns as [|s Ns IH]; intros start [|e Ne]; simpl; try tauto.
  - intros ->. lia.
  - intros (-> & Hle & H). rewrite (IH _ _ H). lia.
Qed.

Lemma tiles_span start Ns Ne stop : tiles start Ns Ne stop -> (start <= stop)%Z.
Proof.
  revert start Ne. induction Ns as [|s Ns IH]; intros start [|e Ne]; simpl; try tauto.
  - lia.
  - intros (-> & Hle & H). apply IH in H. lia.
Qed.

Lemma tiles_cover_once start Ns Ne stop (i : Z) :
  tiles start Ns Ne stop ->
  length (List.filter (fun se => ((fst se <=? i) && (i <=? snd se))%Z) (combine Ns Ne))
  = if ((start <=? i) && (i <? stop))%Z then 1%nat else 0%nat.
Proof.
  revert start Ne. induction Ns as [|s Ns IH]; intros start [|e Ne]; simpl; try tauto.
  - intros ->. destruct (Z.leb_spec stop i), (Z.ltb_spec i stop); simpl; lia || reflexivity.
  - intros (-> & Hle & H). pose proof (tiles_span _ _ _ _ H) as Hspan.
    specialize (IH _ _ H).
    destruct (Z.leb_spec start i), (Z.leb_spec i e), (Z.ltb_spec i stop),
      (Z.leb_spec (e + 1) i); simpl in *; try lia; rewrite IH; reflexivity.
Qed.

Lemma zip_counts_sizes (start : Z) (w : list Z) (m : Z) :
  zip_with (fun e s => (e - s + 1)%Z) (w ++ [m]) (start :: map (fun a => (a + 1)%Z) w)
  = (hd m (w ++ [m]) - start + 1)%Z :: diff_with Z.sub (w ++ [m]).
Proof.
  revert start. induction w as [|a w IH]; intros start; simpl; [reflexivity|].
  rewrite IH. f_equal.
  destruct (w ++ [m]) as [|b r] eqn:E; [now destruct w|].
  simpl. f_equal. lia.
Qed.

(** *** What [log_avg] returns *)

Section LogAvgFacts.

Context {lib : NumLib}.

Lemma transitions_shape (f : list float) (lf0 dlf : float) :
  (1 <= length f)%nat ->
  exists w : list Z,
    transitions f lf0 dlf = w ++ [(Z.of_nat (length f) - 1)%Z] /\
    ascending 0 w (Z.of_nat (length f) - 1).
Proof.
  intros Hf. unfold transitions. eexists. split; [reflexivity|].
  apply (where_from_ascending _ _ 0%nat).
  rewrite diff_with_length, !length_map. lia.
Qed.

(** Every statement of [log_avg] that can fail is an index lookup. *)
Lemma log_avg_raises_index_error (f s : list float) (n : Z) (e : exn) :
  log_avg f s n = Raise e -> e = IndexError.
Proof.
  unfold log_avg, mbind, result_bind, rbind.
  repeat match goal with
         | |- match ?m with Ok _ => _ | Raise _ => _ end = _ -> _ =>
             let E := fresh "E" in
             destruct m eqn:E;
             [| intros [= <-];
                first [eapply getitem_raise, E | eapply gather_raise, E]]
         end.
  discriminate.
Qed.

Lemma log_avg_inv (f s : list float) (n : Z) (b : bands) :
  log_avg f s n = Ok b ->
  exists (w : list Z) (f9 f8 : float),
    (10 <= length f)%nat /\
    (length f <= length s)%nat /\
    getitem f 9 = Ok f9 /\ getitem f 8 = Ok f8 /\
    ascending 0 w (Z.of_nat (length f) - 1) /\
    band_Ne b = w ++ [(Z.of_nat (length f) - 1)%Z] /\
    band_Ns b = 0%Z :: map (fun a => (a + 1)%Z) w /\
    band_dF b = map (fun c => of_Z c * (f9 - f8)) (band_counts b) /\
    length (band_F b) = length (band_Ne b) /\
    length (band_S b) = length (band_Ne b) /\
    length (band_dF b) = length (band_Ne b).
Proof.
  intros H. unfold log_avg in H. inv_bind H.
  injection H as <-.
  match goal with E : getitem f 9 = Ok ?x |- _ => rename x into f9, E into E9 end.
  match goal with E : getitem f 8 = Ok ?x |- _ => rename x into f8, E into E8 end.
  pose proof (getitem_ok_range _ _ _ E9) as R9.
  assert (Hlen : (10 <= length f)%nat) by lia.
  match goal with E : getitem (transitions f ?l0 ?d) 0 = Ok ?x |- _ =>
    rename x into AA0, E into EAA0;
    destruct (transitions_shape f l0 d ltac:(lia)) as [w [HAA Hasc]];
    rewrite HAA in *
  end.
  match goal with E : gather (cumsum s) _ = Ok ?x |- _ => rename x into CsAA, E into ECs end.
  match goal with E : gather (cumsum f) _ = Ok ?x |- _ => rename x into CfAA, E into ECf end.
  assert (Hs : (length f <= length s)%nat).
  { destruct (le_lt_dec (length f) (length s)) as [|Hlt]; [assumption|exfalso].
    rewrite (gather_out_of_range _ _ (Z.of_nat (length f) - 1)) in ECs; [discriminate| | |].
    - apply in_or_app. right. now left.
    - rewrite cumsum_length. lia.
    - apply Forall_app. split.
      + eapply Forall_impl; [apply (ascending_bounds _ _ _ Hasc)|]. simpl. intros; lia.
      + repeat constructor. lia. }
  assert (HAA0 : AA0 = hd (Z.of_nat (length f) - 1)%Z (w ++ [(Z.of_nat (length f) - 1)%Z])).
  { apply getitem_zero in EAA0. destruct EAA0 as [r ->]. reflexivity. }
  assert (Hsizes : band_sizes AA0 (w ++ [(Z.of_nat (length f) - 1)%Z])
                   = zip_with (fun e s => (e - s + 1)%Z) (w ++ [(Z.of_nat (length f) - 1)%Z])
                       (0%Z :: map (fun a => (a + 1)%Z) w)).
  { rewrite zip_counts_sizes. unfold band_sizes. rewrite HAA0. f_equal. lia. }
  assert (Hn : length (band_sizes AA0 (w ++ [(Z.of_nat (length f) - 1)%Z]))
               = length (w ++ [(Z.of_nat (length f) - 1)%Z])).
  { unfold band_sizes. simpl. rewrite diff_with_length, length_app. simpl. lia. }
  exists w, f9, f8. unfold band_counts, drop_last.
  cbn [band_Ne band_Ns band_dF band_F band_S].
  rewrite removelast_last.
  repeat (split; [first [assumption | reflexivity]|]).
  split; [rewrite <- Hsizes; unfold band_sizes; cbn [map]; now rewrite map_map|].
  unfold band_sizes in Hn. cbn [length] in Hn.
  split; [|split]; cbn [length map].
  - rewrite length_zip_with, length_map, !diff_with_length, (gather_length _ _ _ ECf).
    rewrite diff_with_length in Hn. lia.
  - rewrite length_zip_with, length_map, !diff_with_length, (gather_length _ _ _ ECs).
    rewrite diff_with_length in Hn. lia.
  - rewrite !length_map. exact Hn.
Qed.

Lemma log_avg_returns (f s : list float) (n : Z) :
  (10 <= length f)%nat -> (length f <= length s)%nat ->
  exists b, log_avg f s n = Ok b.
Proof.
  intros Hf Hs. unfold log_avg, mbind, result_bind, rbind.
  destruct (getitem_in_range (map np_log f) (Z.of_nat (length f) - 1)) as [lf_last [-> _]];
    [rewrite length_map; lia|].
  destruct (getitem_in_range (map np_log f) 0) as [lf0 [-> _]];
    [rewrite length_map; lia|].
  set (dlf := 1.000000001 * (lf_last - lf0) / of_Z n).
  destruct (transitions_shape f lf0 dlf ltac:(lia)) as [w [HAA Hasc]].
  rewrite HAA.
  assert (Hrange : forall c : list float, (length f <= length c)%nat ->
            Forall (fun k => 0 <= k < Z.of_nat (length c))%Z
                   (w ++ [(Z.of_nat (length f) - 1)%Z])).
  { intros c Hc. apply Forall_app. split.
    - eapply Forall_impl; [apply (ascending_bounds _ _ _ Hasc)|]. simpl. intros; lia.
    - repeat constructor; lia. }
  destruct (getitem_in_range (w ++ [(Z.of_nat (length f) - 1)%Z]) 0) as [AA0 [EAA0 LAA0]];
    [rewrite length_app; simpl; lia|].
  rewrite EAA0.
  assert (HAA0 : (0 <= AA0 < Z.of_nat (length f))%Z).
  { pose proof (Hrange f ltac:(lia)) as Hr.
    rewrite Forall_forall in Hr. apply Hr.
    eapply list_elem_of_lookup_2, LAA0. }
  destruct (getitem_in_range (cumsum f) AA0) as [? [-> _]]; [rewrite cumsum_length; lia|].
  destruct (gather_in_range (cumsum f) (w ++ [(Z.of_nat (length f) - 1)%Z])) as [? [-> _]];
    [apply Hrange; rewrite cumsum_length; lia|].
  destruct (getitem_in_range (cumsum s) AA0) as [? [-> _]]; [rewrite cumsum_length; lia|].
  destruct (gather_in_range (cumsum s) (w ++ [(Z.of_nat (length f) - 1)%Z])) as [? [-> _]];
    [apply Hrange; rewrite cumsum_length; lia|].
  destruct (getitem_in_range f 9) as [? [-> _]]; [lia|].
  destruct (getitem_in_range f 8) as [? [-> _]]; [lia|].
  eexists. reflexivity.
Qed.

End LogAvgFacts.

(** [np.arange(1, n + 1)] as float64. *)
Definition arange1 (n : nat) : list float :=
  map (fun k => of_Z (Z.of_nat k)) (seq 1 n).

(** C7.  Whenever [log_avg] is given at least the ten frequencies it reads
    and a spectrum at least as long as the frequency array, it returns, and
    the returned bands [Ns[k] .. Ne[k]] tile the bin indices [0 .. len(f)-1]
    in order: the per-band sample counts [Ne - Ns + 1] add up to the number
    of input bins, and every bin lies in exactly one band. *)
Theorem log_avg_bands_partition_bins {lib : NumLib} (f s : list float) (n : Z) :
  (10 <= length f)%nat ->
  (length f <= length s)%nat ->
  exists b : bands,
    log_avg f s n = Ok b /\
    tiles 0 (band_Ns b) (band_Ne b) (Z.of_nat (length f)) /\
    sumZ (band_counts b) = Z.of_nat (length f) /\
    (forall i : Z, (0 <= i < Z.of_nat (length f))%Z -> bands_containing b i = 1%nat) /\
    (forall i : Z, (i < 0 \/ Z.of_nat (length f) <= i)%Z -> bands_containing b i = 0%nat).
Proof.
  intros Hf Hs.
  destruct (log_avg_returns f s n Hf Hs) as [b Hb].
  exists b. split; [exact Hb|].
  destruct (log_avg_inv f s n b Hb)
    as (w & f9 & f8 & _ & _ & _ & _ & Hasc & HNe & HNs & _).
  assert (Ht : tiles 0 (band_Ns b) (band_Ne b) (Z.of_nat (length f))).
  { rewrite HNe, HNs.
    replace (Z.of_nat (length f)) with (Z.of_nat (length f) - 1 + 1)%Z at 2 by lia.
    now apply ascending_tiles. }
  split; [exact Ht|].
  split.
  - unfold band_counts. rewrite (tiles_sum _ _ _ _ Ht). lia.
  - split; intros i Hi; unfold bands_containing;
      rewrite (tiles_cover_once _ _ _ _ i Ht).
    + destruct (Z.leb_spec 0 i), (Z.ltb_spec i (Z.of_nat (length f))); simpl; lia || reflexivity.
    + destruct (Z.leb_spec 0 i), (Z.ltb_spec i (Z.of_nat (length f))); simpl; lia || reflexivity.
Qed.

Lemma log_avg_bands_partition_bins_witness :
  (10 <= length (arange1 12))%nat /\
  (length (arange1 12) <= length (arange1 12))%nat /\
  forall lib : NumLib,
  exists b : bands,
    log_avg (arange1 12) (arange1 12) 4 = Ok b /\
    tiles 0 (band_Ns b) (band_Ne b) 12 /\
    sumZ (band_counts b) = 12%Z.
Proof.
  split; [vm_compute; lia|]. split; [vm_compute; lia|].
  intros lib.
  destruct (@log_avg_bands_partition_bins lib (arange1 12) (arange1 12) 4)
    as (b & Hb & Ht & Hsum & _); [vm_compute; lia | vm_compute; lia |].
  exists b. split; [exact Hb|]. split; [exact Ht | exact Hsum].
Defined.

(** C9.  [log_avg] reads [f[9]] and [f[8]]: with fewer than ten frequencies
    the call raises [IndexError]; and when it returns, every band's bandwidth
    is its bin count times the one spacing [f[9] - f[8]], whatever the
    spacing of the band's own frequencies, so the bandwidths are those of
    the grid only when the grid is evenly spaced. *)
Theorem log_avg_requires_ten_bins {lib : NumLib} (f s : list float) (n : Z) :
  ((length f < 10)%nat -> log_avg f s n = Raise IndexError) /\
  (forall b : bands, log_avg f s n = Ok b ->
     (10 <= length f)%nat /\
     exists f9 f8 : float,
       f !! 9%nat = Some f9 /\ f !! 8%nat = Some f8 /\
       band_dF b = map (fun c => of_Z c * (f9 - f8)) (band_counts b)).
Proof.
  split.
  - intros Hshort. destruct (log_avg f s n) as [b|e] eqn:E.
    + destruct (log_avg_inv f s n b E) as (_ & _ & _ & Hlen & _). lia.
    + f_equal. eapply log_avg_raises_index_error, E.
  - intros b E.
    destruct (log_avg_inv f s n b E)
      as (w & f9 & f8 & Hlen & _ & E9 & E8 & _ & _ & _ & HdF & _).
    split; [exact Hlen|]. exists f9, f8.
    destruct (getitem_in_range f 9 ltac:(lia)) as [x9 [Hx9 L9]].
    destruct (getitem_in_range f 8 ltac:(lia)) as [x8 [Hx8 L8]].
    rewrite E9 in Hx9. rewrite E8 in Hx8. injection Hx9 as <-. injection Hx8 as <-.
    repeat split; assumption.
Qed.

Lemma log_avg_requires_ten_bins_witness :
  (length (arange1 9) < 10)%nat /\
  forall lib : NumLib, log_avg (arange1 9) (arange1 9) 4 = Raise IndexError.
Proof.
  split; [vm_compute; lia|].
  intros lib.
  apply (proj1 (@log_avg_requires_ten_bins lib (arange1 9) (arange1 9) 4)).
  vm_compute; lia.
Defined.

(** *** [wave_spectra_statistics] *)

Section SpectraStatistics.

Context {lib : NumLib}.

(** [p_spectra[nP + k]] for the integer array [nP] and a fixed offset. *)
Definition neighbours (a : list float) (nP : list Z) (k : Z) : result (list float) :=
  gather a (map (fun i => (i + k)%Z) nP).

Definition wave_spectra_statistics (u_spectra p_spectra Tdir Ts F dF : list float)
  : result (float * float * float * float) :=
  pdF ← broadcast2 PrimFloat.mul p_spectra dF;
  m0 ← np_max (cumsum pdF);
  let Hm0 := PrimFloat.sqrt m0 * 4 in
  B ← np_max p_spectra;
  let nP := map Z.of_nat (np_where (fun x => x =? B) p_spectra) in
  Aarr ← neighbours p_spectra nP (-1);
  A ← getitem Aarr 0;
  Carr ← neighbours p_spectra nP 1;
  C ← getitem Carr 0;
  Fhi ← neighbours F nP 1;
  Flo ← neighbours F nP (-1);
  let slope := - (C - A) / (2 * (A - 2 * B + C)) in
  let shift := map (fun d => d * slope / 2)
                 (zip_with PrimFloat.sub (map np_log Fhi) (map np_log Flo)) in
  Fpk ← gather F nP;
  Fs ← getitem (map np_exp (zip_with PrimFloat.add (map np_log Fpk) shift)) 0;
  Tdir_pk ← gather Tdir nP;
  Tdir0 ← getitem Tdir_pk 0;
  Ts_pk ← gather Ts nP;
  Ts0 ← getitem Ts_pk 0;
  Ok (Hm0, Fs, Tdir0, Ts0).

End SpectraStatistics.

(** The band indices at which the spectrum attains its maximum:
    [np.where(p_spectra == np.max(p_spectra))[0]]. *)
Definition peak_bins (p_spectra : list float) : list nat :=
  match np_max p_spectra with
  | Ok B => np_where (fun x => x =? B) p_spectra
  | Raise _ => []
  end.

Section SpectraStatisticsFacts.

Context {lib : NumLib}.

Lemma np_max_zeros (k : nat) : np_max (repeat 0 (S k)) = Ok 0.
Proof.
  simpl. f_equal. induction k as [|k IH]; simpl; [reflexivity|].
  change (fmax 0 0) with 0. exact IH.
Qed.

Lemma peak_bins_zeros (k : nat) : In k (peak_bins (repeat 0 (S k))).
Proof.
  unfold peak_bins. rewrite np_max_zeros. apply np_where_spec.
  exists 0. split; [|reflexivity].
  apply lookup_repeat. lia.
Qed.

(** The right-neighbour lookup [p_spectra[nP+1]] fails as soon as the last
    band is one of the peak bins. *)
Lemma right_neighbour_raises (p : list float) (B : float) :
  In (length p - 1)%nat (np_where (fun x => x =? B) p) ->
  neighbours p (map Z.of_nat (np_where (fun x => x =? B) p)) 1 = Raise IndexError.
Proof.
  intros Hin. unfold neighbours.
  assert (Hne : (1 <= length p)%nat).
  { apply np_where_spec in Hin. destruct Hin as (x & Hx & _).
    apply lookup_lt_Some in Hx. lia. }
  apply (gather_out_of_range _ _ (Z.of_nat (length p))); [|lia|].
  - apply in_map_iff. exists (Z.of_nat (length p - 1)). split; [lia|].
    now apply in_map.
  - apply Forall_forall. intros j Hj.
    apply list_elem_of_In, in_map_iff in Hj. destruct Hj as (i & <- & Hi).
    apply in_map_iff in Hi. destruct Hi as (m & <- & _). lia.
Qed.

Lemma wss_peak_last_raises (u p Tdir Ts F dF : list float) :
  In (length p - 1)%nat (peak_bins p) ->
  raises (wave_spectra_statistics u p Tdir Ts F dF).
Proof.
  unfold peak_bins. destruct (np_max p) as [B|] eqn:EB; [|simpl; tauto].
  intros Hin. unfold wave_spectra_statistics, mbind, result_bind, rbind.
  destruct (broadcast2 PrimFloat.mul p dF) as [pdF|e]; [|now exists e].
  destruct (np_max (cumsum pdF)) as [m0|e]; [|now exists e].
  rewrite EB.
  destruct (neighbours p _ (-1)) as [Aarr|e]; [|now exists e].
  destruct (getitem Aarr 0) as [A|e]; [|now exists e].
  rewrite (right_neighbour_raises p B Hin). now exists IndexError.
Qed.

Lemma wss_peak_first_returns (u p Tdir Ts F dF : list float) (B p1 F0 F1 t0 s0 : float) :
  peak_bins p = [0%nat] ->
  np_max p = Ok B ->
  length dF = length p ->
  p !! 1%nat = Some p1 ->
  F !! 0%nat = Some F0 -> F !! 1%nat = Some F1 ->
  Tdir !! 0%nat = Some t0 -> Ts !! 0%nat = Some s0 ->
  exists m0 : float,
    np_max (cumsum (zip_with PrimFloat.mul p dF)) = Ok m0 /\
    let A := List.last p 0 in
    let slope := - (p1 - A) / (2 * (A - 2 * B + p1)) in
    wave_spectra_statistics u p Tdir Ts F dF
    = Ok (PrimFloat.sqrt m0 * 4,
          np_exp (np_log F0 + (np_log F1 - np_log (List.last F 0)) * slope / 2),
          t0, s0).
Proof.
  intros Hpk HB HdF Hp1 HF0 HF1 Ht0 Hs0.
  unfold peak_bins in Hpk. rewrite HB in Hpk.
  assert (Hp : p <> []) by (intros ->; discriminate).
  assert (HF : F <> []) by (intros ->; discriminate).
  destruct (np_max (cumsum (zip_with PrimFloat.mul p dF))) as [m0|e] eqn:Em0.
  2:{ destruct p as [|x p]; [congruence|]. destruct dF as [|y dF]; [discriminate|].
      simpl in Em0. discriminate. }
  exists m0. split; [reflexivity|].
  unfold wave_spectra_statistics, neighbours, gather, mbind, result_bind, rbind.
  rewrite (broadcast2_same_length _ p dF) by congruence.
  rewrite Em0, HB, Hpk. cbn [map rmapM Z.of_nat Z.add].
  unfold mbind, result_bind, rbind.
  change (Z.of_nat 0 + -1)%Z with (-1)%Z.
  change (Z.of_nat 0 + 1)%Z with (Z.of_nat 1).
  rewrite (getitem_minus_one p 0 Hp), (getitem_minus_one F 0 HF).
  rewrite (getitem_lookup p 1 p1 Hp1), (getitem_lookup F 1 F1 HF1).
  rewrite (getitem_lookup F 0 F0 HF0), (getitem_lookup Tdir 0 t0 Ht0).
  rewrite (getitem_lookup Ts 0 s0 Hs0).
  reflexivity.
Qed.

End SpectraStatisticsFacts.

(** C2 (amended).  [wave_spectra_statistics] has no boundary handling.
    When the maximum of the spectrum is attained at the last band -- as it
    is for every non-empty zero-energy spectrum, whose maximum is attained
    everywhere -- the call raises.  When it is attained at the first band
    only, the call returns: the left neighbour is the last band (index -1
    wraps around), and the direction and spread are the entries stored at
    index 0, not a missing-value marker. *)
Theorem wave_spectra_statistics_boundary_peaks {lib : NumLib} :
  (forall u p Tdir Ts F dF : list float,
      In (length p - 1)%nat (peak_bins p) ->
      raises (wave_spectra_statistics u p Tdir Ts F dF)) /\
  (forall (u Tdir Ts F dF : list float) (k : nat),
      raises (wave_spectra_statistics u (repeat 0%float (S k)) Tdir Ts F dF)) /\
  (forall (u p Tdir Ts F dF : list float) (B p1 F0 F1 t0 s0 : float),
      peak_bins p = [0%nat] ->
      np_max p = Ok B ->
      length dF = length p ->
      p !! 1%nat = Some p1 ->
      F !! 0%nat = Some F0 -> F !! 1%nat = Some F1 ->
      Tdir !! 0%nat = Some t0 -> Ts !! 0%nat = Some s0 ->
      exists Hm0 : float,
        let A := List.last p 0 in
        let slope := - (p1 - A) / (2 * (A - 2 * B + p1)) in
        wave_spectra_statistics u p Tdir Ts F dF
        = Ok (Hm0,
              np_exp (np_log F0 + (np_log F1 - np_log (List.last F 0)) * slope / 2),
              t0, s0)).
Proof.
  split; [|split].
  - apply wss_peak_last_raises.
  - intros u Tdir Ts F dF k. apply wss_peak_last_raises.
    rewrite repeat_length. replace (S k - 1)%nat with k by lia.
    apply peak_bins_zeros.
  - intros u p Tdir Ts F dF B p1 F0 F1 t0 s0 H1 H2 H3 H4 H5 H6 H7 H8.
    destruct (wss_peak_first_returns u p Tdir Ts F dF B p1 F0 F1 t0 s0 H1 H2 H3 H4 H5 H6 H7 H8)
      as (m0 & _ & Hr).
    exists (PrimFloat.sqrt m0 * 4). exact Hr.
Qed.

(** Three bands with the peak in the last one, then in the first one. *)
Definition rising : list float := [1; 2; 3].
Definition falling : list float := [3; 2; 1].
Definition unit_widths : list float := [1; 1; 1].
Definition directions : list float := [10; 20; 30].
Definition spreads : list float := [40; 50; 60].

Lemma wave_spectra_statistics_boundary_peaks_witness :
  In (length rising - 1)%nat (peak_bins rising) /\
  peak_bins falling = [0%nat] /\
  forall lib : NumLib,
    raises (wave_spectra_statistics rising rising directions spreads rising unit_widths) /\
    exists Hm0 Fs : float,
      wave_spectra_statistics falling falling directions spreads rising unit_widths
      = Ok (Hm0, Fs, 10, 40).
Proof.
  split; [vm_compute; auto|]. split; [reflexivity|].
  intros lib.
  destruct (@wave_spectra_statistics_boundary_peaks lib) as (Hlast & _ & Hfirst).
  split.
  - apply Hlast. vm_compute; auto.
  - destruct (Hfirst falling falling directions spreads rising unit_widths 3 2 1 2 10 40)
      as (Hm0 & Hr); try reflexivity.
    exists Hm0. eexists. exact Hr.
Defined.

(** C2 (counterexample).  With the peak in the last of three bands the call
    raises [IndexError] instead of returning; with the peak in the first
    band it returns the direction 10 and spread 40 stored at index 0, which
    are numbers, not NaN. *)
Lemma wave_spectra_statistics_boundary_counterexample :
  (forall lib : NumLib,
      wave_spectra_statistics rising rising directions spreads rising unit_widths
      = Raise IndexError) /\
  (forall lib : NumLib,
      exists Hm0 Fs : float,
        wave_spectra_statistics falling falling directions spreads rising unit_widths
        = Ok (Hm0, Fs, 10, 40) /\
        is_nan 10 = false /\ is_nan 40 = false).
Proof.
  split; intros lib.
  - vm_compute. reflexivity.
  - eexists. eexists. split; [vm_compute; reflexivity|]. split; reflexivity.
Qed.

(** *** [arctan3] and [wave_spectra] *)

(** complex128 values as (real, imaginary) pairs. *)
Definition complex : Type := (float * float)%type.

Definition cmul (a b : complex) : complex :=
  (fst a * fst b - snd a * snd b, fst a * snd b + snd a * fst b).

Definition conj (a : complex) : complex := (fst a, - snd a).

(** [np.pi]. *)
Definition np_pi : float := 3.141592653589793.

Section WaveSpectra.

Context {lib : NumLib}.

Definition arctan3 (y x : list float) : result (list float) :=
  theta ← broadcast2 np_arctan2 y x;
  Ok (map (fun t => if t <? 0 then t + 2 * np_pi else t) theta).

(** The scaled one-sided power spectrum of one series:
    [abs(fft[1:n/2+1]**2) * 2 / n**2 / f[0]]. *)
Definition power (x_fft : list complex) (n : Z) (f0 : float) : list float :=
  map (fun z => np_abs_complex (cmul z z) * 2 / of_Z (n * n) / f0)
      (slice x_fft 1 (n / 2 + 1)).

(** The scaled co-spectrum of two series:
    [real(a_fft * conj(b_fft) * 2 / n**2 / f[0])[1:n/2+1]].  The scalings
    by real numbers are applied to the real part. *)
Definition cross_power (a_fft b_fft : list complex) (n : Z) (f0 : float)
  : result (list float) :=
  prod ← broadcast2 (fun a b => cmul a (conj b)) a_fft b_fft;
  Ok (slice (map (fun z => fst z * 2 / of_Z (n * n) / f0) prod) 1 (n / 2 + 1)).

(** The seven arrays [wave_spectra] returns. *)
Record puv : Type := {
  u_spectra : list float;
  p_spectra : list float;
  puv_Tdir : list float;
  puv_Ts : list float;
  puv_F : list float;
  puv_dF : list float;
  puv_dof : list Z;
}.

(** The opening lines: an odd-length record loses its final sample. *)
Definition make_even (u v p : list float) : list float * list float * list float :=
  if Z.odd (Z.of_nat (length p)) then (drop_last u, drop_last v, drop_last p) else (u, v, p).

Definition wave_spectra (u v p : list float) (dt : float) (nF : Z) (hp hv : float)
  (params : list float) : result puv :=
  lf_cutoff ← getitem params 0;
  max_fac ← getitem params 1;
  min_spec ← getitem params 2;
  n_dir ← getitem params 3;
  let '(u, v, p) := make_even u v p in
  let n := Z.of_nat (length p) in
  let Dt := of_Z n * dt in
  (* [np.arange(1, (n+1)/2) / Dt]: [n] is even here, so the range is 1 .. n/2. *)
  let f := map (fun k => k / Dt) (arange1 (Z.to_nat (n / 2))) in
  u_fft ← scipy_fft u;
  v_fft ← scipy_fft v;
  p_fft ← scipy_fft p;
  f0 ← getitem f 0;
  let u_power := power u_fft n f0 in
  let v_power := power v_fft n f0 in
  let p_power := power p_fft n f0 in
  pu_power ← cross_power p_fft u_fft n f0;
  pv_power ← cross_power p_fft v_fft n f0;
  uv_power ← cross_power u_fft v_fft n f0;
  buu ← log_avg f u_power nF;
  bvv ← log_avg f v_power nF;
  bpp ← log_avg f p_power nF;
  bpu ← log_avg f pu_power nF;
  bpv ← log_avg f pv_power nF;
  buv ← log_avg f uv_power nF;
  let dof := map (fun c => (2 * c)%Z) (band_counts bpv) in
  let aa := map Z.of_nat (np_where (fun x => lf_cutoff <? x) (band_F buv)) in
  F ← gather (band_F buv) aa;
  dF ← gather (band_dF bpv) aa;
  dof ← gather dof aa;
  Cuu ← gather (band_S buu) aa;
  Cvv ← gather (band_S bvv) aa;
  Cpp ← gather (band_S bpp) aa;
  Cpu ← gather (band_S bpu) aa;
  Cpv ← gather (band_S bpv) aa;
  Cuv ← gather (band_S buv) aa;
  us ← broadcast2 PrimFloat.add Cuu Cvv;
  let ps := Cpp in
  th ← arctan3 Cpu Cpv;
  let Tdir := map (fun t => 57.296 * t) th in
  dsq ← broadcast2 (fun a b => (a - b) * (a - b)) Cuu Cvv;
  num ← broadcast2 (fun d c => PrimFloat.sqrt (d + 4 * (c * c))) dsq Cuv;
  den ← broadcast2 PrimFloat.add Cuu Cvv;
  R2 ← broadcast2 PrimFloat.div num den;
  let Ts := map (fun r => 57.296 * PrimFloat.sqrt ((1 - r) / 2)) R2 in
  let ad := np_where (fun x => x <? min_spec) ps in
  Tdir ← put Tdir ad nan;
  Ts ← put Ts ad nan;
  Ok {| u_spectra := us; p_spectra := ps; puv_Tdir := Tdir; puv_Ts := Ts;
        puv_F := F; puv_dF := dF; puv_dof := dof |}.

End WaveSpectra.

Lemma drop_last_length {A : Type} (a : list A) :
  length (drop_last a) = (length a - 1)%nat.
Proof.
  unfold drop_last.
  destruct a as [|x a] using rev_ind; [reflexivity|].
  rewrite removelast_last, length_app. simpl. lia.
Qed.




(** *** Shapes, short records and blanked bands *)

Section SpectraShapes.

Context {lib : NumLib}.

Lemma log_avg_short_raises (f s : list float) (n : Z) :
  (length f < 10 \/ length s < length f)%nat -> log_avg f s n = Raise IndexError.
Proof.
  intros Hshort. destruct (log_avg f s n) as [b|e] eqn:E.
  - destruct (log_avg_inv f s n b E) as (_ & _ & _ & Hlen & Hs & _). lia.
  - f_equal. eapply log_avg_raises_index_error, E.
Qed.

Lemma ascending_length (start : Z) (w : list Z) (m : Z) :
  ascending start w m -> (Z.of_nat (length w) <= m - start)%Z.
Proof.
  revert start. induction w as [|a w IH]; intros start H; simpl in *; [lia|].
  destruct H as [H1 H2]. specialize (IH _ H2). lia.
Qed.

(** X6.  [log_avg] needs a spectrum at least as long as the frequency
    array: a shorter one raises [IndexError].  When the call returns, the
    five arrays it returns have one entry per band, and there is at least
    one band and at most one per input frequency. *)
Theorem log_avg_band_arrays (f s : list float) (n : Z) :
  ((length s < length f)%nat -> log_avg f s n = Raise IndexError) /\
  (forall b : bands, log_avg f s n = Ok b ->
     length (band_F b) = length (band_Ne b) /\
     length (band_S b) = length (band_Ne b) /\
     length (band_dF b) = length (band_Ne b) /\
     length (band_Ns b) = length (band_Ne b) /\
     (1 <= length (band_Ne b) <= length f)%nat).
Proof.
  split.
  - intros Hs. apply log_avg_short_raises. now right.
  - intros b E.
    destruct (log_avg_inv f s n b E)
      as (w & f9 & f8 & Hlen & _ & _ & _ & Hasc & HNe & HNs & _ & HF & HS & HdF).
    repeat (split; [assumption|]).
    pose proof (ascending_length _ _ _ Hasc) as Hw.
    rewrite HNe, HNs, length_app. cbn [length]. rewrite length_map. lia.
Qed.

Lemma arange1_length (n : nat) : length (arange1 n) = n.
Proof. unfold arange1. now rewrite length_map, length_seq. Qed.

Lemma make_even_length (u v p : list float) :
  (length (snd (make_even u v p)) <= length p)%nat.
Proof.
  unfold make_even. destruct (Z.odd _); simpl; [|lia].
  rewrite drop_last_length. lia.
Qed.

Lemma broadcast2_equal_length {A B C : Type} (g : A -> B -> C)
  (a : list A) (b : list B) (c : list C) :
  length a = length b -> broadcast2 g a b = Ok c -> length c = length a.
Proof.
  intros Hlen. rewrite broadcast2_same_length by exact Hlen.
  intros [= <-]. rewrite length_zip_with. lia.
Qed.

Lemma gather_Forall {A : Type} (P : A -> Prop) (a : list A) (idx : list Z) (l : list A) :
  gather a idx = Ok l -> Forall P a -> Forall P l.
Proof.
  intros H Ha. unfold gather in H. revert l H.
  induction idx as [|k idx IH]; intros l; simpl.
  - intros [= <-]. constructor.
  - unfold mbind, result_bind, rbind.
    destruct (getitem a k) as [x|] eqn:Ex; [|discriminate].
    destruct (rmapM (getitem a) idx) as [xs|]; [|discriminate].
    intros [= <-]. constructor; [|now apply IH].
    unfold getitem in Ex. destruct (_ && _); [|discriminate].
    destruct (a !! _) as [y|] eqn:Ey; [|discriminate]. injection Ex as <-.
    rewrite Forall_forall in Ha. apply Ha. eapply list_elem_of_lookup_2, Ey.
Qed.

Lemma tiles_counts_positive (start : Z) (Ns Ne : list Z) (stop : Z) :
  tiles start Ns Ne stop ->
  Forall (fun c => 1 <= c)%Z (zip_with (fun e s => (e - s + 1)%Z) Ne Ns).
Proof.
  revert start Ne. induction Ns as [|s Ns IH]; intros start [|e Ne]; simpl; try tauto.
  - constructor.
  - intros (-> & Hle & H). constructor; [lia|]. eapply IH, H.
Qed.

Lemma log_avg_counts_positive (f s : list float) (n : Z) (b : bands) :
  log_avg f s n = Ok b -> Forall (fun c => 1 <= c)%Z (band_counts b).
Proof.
  intros E.
  destruct (log_avg_inv f s n b E) as (w & f9 & f8 & _ & _ & _ & _ & Hasc & HNe & HNs & _).
  unfold band_counts. rewrite HNe, HNs.
  eapply tiles_counts_positive, ascending_tiles, Hasc.
Qed.

(** What a returning call of [wave_spectra] went through. *)
Lemma wave_spectra_inv (u v p : list float) (dt : float) (nF : Z) (hp hv : float)
  (params : list float) (r : puv) :
  wave_spectra u v p dt nF hp hv params = Ok r ->
  exists min_spec : float,
    getitem params 2 = Ok min_spec /\
    (20 <= length p)%nat /\
    length (u_spectra r) = length (p_spectra r) /\
    length (puv_Tdir r) = length (p_spectra r) /\
    length (puv_Ts r) = length (p_spectra r) /\
    length (puv_F r) = length (p_spectra r) /\
    length (puv_dF r) = length (p_spectra r) /\
    length (puv_dof r) = length (p_spectra r) /\
    Forall (fun d => 2 <= d /\ Z.even d = true)%Z (puv_dof r) /\
    (forall i x, p_spectra r !! i = Some x -> (x <? min_spec) = true ->
                 puv_Tdir r !! i = Some nan /\ puv_Ts r !! i = Some nan).
Proof.
  intros H. unfold wave_spectra in H. inv_bind H.
  pose proof (make_even_length u v p) as Hev.
  destruct (make_even u v p) as [[u' v'] p']. cbn [snd] in Hev.
  inv_bind H. injection H as <-.
  cbn [u_spectra p_spectra puv_Tdir puv_Ts puv_F puv_dF puv_dof].
  match goal with
  | E : gather (map _ (band_counts ?b)) _ = Ok ?l, Eb : log_avg _ _ _ = Ok ?b |- _ =>
      assert (Hdof : Forall (fun d => 2 <= d /\ Z.even d = true)%Z l);
      [apply (gather_Forall _ _ _ _ E);
       apply Forall_map_image with (P := fun c => (1 <= c)%Z);
       [intros c Hc; split; [lia|apply Z.even_mul]
       |apply (log_avg_counts_positive _ _ _ _ Eb)]|]
  end.
  repeat match goal with
         | E : gather _ _ = Ok _ |- _ => apply gather_length in E
         | E : put _ _ _ = Ok _ |- _ =>
             let L := fresh "L" in
             pose proof (put_length _ _ _ _ E) as L;
             let K := fresh "K" in
             pose proof (fun i => proj1 (put_lookup _ _ _ _ i E)) as K;
             clear E
         end.
  match goal with E : getitem params 2 = Ok ?m |- _ => exists m end.
  split; [reflexivity|]. split.
  { match goal with E : log_avg ?f _ _ = Ok ?b |- _ =>
      destruct (log_avg_inv f _ _ b E) as (_ & _ & _ & Hf & _)
    end.
    rewrite length_map, arange1_length in Hf.
    assert (20 <= Z.of_nat (length p'))%Z.
    { destruct (Z.le_gt_cases 20 (Z.of_nat (length p'))) as [|Hlt]; [assumption|].
      assert (Z.of_nat (length p') / 2 < 10)%Z by (apply Z.div_lt_upper_bound; lia).
      lia. }
    lia. }
  match goal with E : arctan3 _ _ = Ok _ |- _ =>
    unfold arctan3 in E; inv_bind E; injection E as <-
  end.
  repeat match goal with
         | E : broadcast2 _ ?a ?b = Ok ?c |- _ =>
             apply broadcast2_equal_length in E; [|congruence]
         end.
  repeat match goal with
         | H : context [length (map _ _)] |- _ => rewrite length_map in H
         end.
  repeat (split; [first [exact Hdof | congruence]|]).
  intros i x Hx Hlow. split; [apply K0|apply K]; apply np_where_spec; eauto.
Qed.

(** X7.  [wave_spectra] cannot process a record of fewer than 20 samples:
    the frequency array then has fewer than the ten entries [log_avg]
    reads, and the call raises, whatever the other arguments are. *)
Theorem wave_spectra_short_record_raises (u v p : list float) (dt : float) (nF : Z)
  (hp hv : float) (params : list float) :
  (length p < 20)%nat ->
  raises (wave_spectra u v p dt nF hp hv params).
Proof.
  intros Hshort. destruct (wave_spectra u v p dt nF hp hv params) as [r|e] eqn:E.
  - destruct (wave_spectra_inv _ _ _ _ _ _ _ _ _ E) as (m & _ & Hlen & _). lia.
  - now exists e.
Qed.


(** X9.  When [wave_spectra] returns, the degrees of freedom of every band
    are twice the number of frequency bins averaged into it: an even
    number, at least 2. *)
Theorem wave_spectra_dof_even (u v p : list float) (dt : float) (nF : Z)
  (hp hv : float) (params : list float) (r : puv) :
  wave_spectra u v p dt nF hp hv params = Ok r ->
  Forall (fun d => 2 <= d /\ Z.even d = true)%Z (puv_dof r).
Proof.
  intros E. destruct (wave_spectra_inv _ _ _ _ _ _ _ _ _ E) as (m & _ & _ & H).
  tauto.
Qed.

(** X10.  When [wave_spectra] returns, every band whose pressure spectrum
    is below [min_spec] (the third entry of [params]) has NaN as its
    direction and as its spread. *)
Theorem wave_spectra_blanks_weak_bands (u v p : list float) (dt : float) (nF : Z)
  (hp hv : float) (params : list float) (r : puv) :
  wave_spectra u v p dt nF hp hv params = Ok r ->
  exists min_spec : float,
    params !! 2%nat = Some min_spec /\
    forall i x, p_spectra r !! i = Some x -> (x <? min_spec) = true ->
                puv_Tdir r !! i = Some nan /\ puv_Ts r !! i = Some nan.
Proof.
  intros E. destruct (wave_spectra_inv _ _ _ _ _ _ _ _ _ E) as (m & Hm & _ & H).
  exists m. split; [|apply H].
  destruct (getitem_in_range params 2) as (y & Hy & Ly).
  - apply getitem_ok_range in Hm. lia.
  - rewrite Hm in Hy. injection Hy as <-. exact Ly.
Qed.

(** X11.  Away from the ends [wave_spectra_statistics] returns: when the
    pressure spectrum has its maximum at one band [k+1] that has a
    neighbour on each side, the call returns the direction and the spread
    of that band, and the peak frequency is the band's centre frequency
    shifted in log space by the parabola through the three spectral values
    around the peak. *)
Theorem wave_spectra_statistics_interior_peak (u p Tdir Ts F dF : list float) (k : nat)
  (A B C Flo Fpk Fhi t0 s0 : float) :
  peak_bins p = [S k] ->
  np_max p = Ok B ->
  length dF = length p ->
  p !! k = Some A -> p !! S (S k) = Some C ->
  F !! k = Some Flo -> F !! S k = Some Fpk -> F !! S (S k) = Some Fhi ->
  Tdir !! S k = Some t0 -> Ts !! S k = Some s0 ->
  exists Hm0 : float,
    wave_spectra_statistics u p Tdir Ts F dF
    = Ok (Hm0,
          np_exp (np_log Fpk
                  + (np_log Fhi - np_log Flo) * (- (C - A) / (2 * (A - 2 * B + C))) / 2),
          t0, s0).
Proof.
  intros Hpk HB HdF HA HC HFlo HFpk HFhi Ht0 Hs0.
  unfold peak_bins in Hpk. rewrite HB in Hpk.
  destruct (np_max (cumsum (zip_with PrimFloat.mul p dF))) as [m0|e] eqn:Em0.
  2:{ destruct p as [|x p]; [discriminate|]. destruct dF as [|y dF]; [discriminate|].
      simpl in Em0. discriminate. }
  exists (PrimFloat.sqrt m0 * 4).
  unfold wave_spectra_statistics, neighbours, gather, mbind, result_bind, rbind.
  rewrite (broadcast2_same_length _ p dF) by congruence.
  rewrite Em0, HB, Hpk. cbn [map rmapM].
  unfold mbind, result_bind, rbind.
  replace (Z.of_nat (S k) + -1)%Z with (Z.of_nat k) by lia.
  replace (Z.of_nat (S k) + 1)%Z with (Z.of_nat (S (S k))) by lia.
  rewrite (getitem_lookup p k A HA), (getitem_lookup p _ C HC).
  rewrite (getitem_lookup F k Flo HFlo), (getitem_lookup F _ Fhi HFhi).
  rewrite (getitem_lookup F _ Fpk HFpk), (getitem_lookup Tdir _ t0 Ht0).
  rewrite (getitem_lookup Ts _ s0 Hs0).
  reflexivity.
Qed.

End SpectraShapes.

(** A library instance that computes, for running the code on examples:
    identity functions and a transform without imaginary parts. *)
Definition plain_lib : NumLib :=
  {| np_log := fun x => x;
     np_exp := fun x => x;
     np_floor := fun x => x;
     np_arctan2 := fun y x => y;
     np_abs_complex := fun z => PrimFloat.abs (fst z);
     scipy_fft := fun x => Ok (map (fun a => (a, 0)) x) |}.

Lemma log_avg_band_arrays_witness :
  (length (arange1 11) < length (arange1 12))%nat /\
  forall lib : NumLib, log_avg (arange1 12) (arange1 11) 4 = Raise IndexError.
Proof.
  split; [vm_compute; lia|].
  intros lib.
  apply (proj1 (@log_avg_band_arrays lib (arange1 12) (arange1 11) 4)).
  vm_compute; lia.
Defined.

Lemma wave_spectra_short_record_raises_witness :
  (length (arange1 19) < 20)%nat /\
  forall lib : NumLib,
    raises (wave_spectra (arange1 19) (arange1 19) (arange1 19) 1 100 0 0
              [0.03; 200; 0.1; 0]).
Proof.
  split; [vm_compute; lia|].
  intros lib.
  apply (@wave_spectra_short_record_raises lib). vm_compute; lia.
Defined.


Lemma wave_spectra_dof_even_witness :
  exists r : puv,
    @wave_spectra plain_lib (arange1 20) (arange1 20) (arange1 20) 1 100 0 0
      [0.03; 200; 0.1; 0] = Ok r /\
    Forall (fun d => 2 <= d /\ Z.even d = true)%Z (puv_dof r).
Proof.
  destruct (@wave_spectra plain_lib (arange1 20) (arange1 20) (arange1 20) 1 100 0 0
              [0.03; 200; 0.1; 0]) as [r|e] eqn:E;
    [|vm_compute in E; discriminate E].
  exists r. split; [reflexivity|].
  exact (@wave_spectra_dof_even plain_lib _ _ _ _ _ _ _ _ r E).
Defined.

Lemma wave_spectra_blanks_weak_bands_witness :
  exists (r : puv) (min_spec : float),
    @wave_spectra plain_lib (arange1 20) (arange1 20) (arange1 20) 1 100 0 0
      [0.03; 200; 1; 0] = Ok r /\
    [0.03; 200; 1; 0] !! 2%nat = Some min_spec /\
    forall i x, p_spectra r !! i = Some x -> (x <? min_spec) = true ->
                puv_Tdir r !! i = Some nan /\ puv_Ts r !! i = Some nan.
Proof.
  destruct (@wave_spectra plain_lib (arange1 20) (arange1 20) (arange1 20) 1 100 0 0
              [0.03; 200; 1; 0]) as [r|e] eqn:E;
    [|vm_compute in E; discriminate E].
  destruct (@wave_spectra_blanks_weak_bands plain_lib _ _ _ _ _ _ _ _ r E)
    as (m & Hm & H).
  exists r, m. split; [reflexivity|]. split; [exact Hm|exact H].
Defined.

Lemma wave_spectra_statistics_interior_peak_witness :
  peak_bins [1; 3; 2] = [1%nat] /\
  forall lib : NumLib,
    exists Hm0 Fs : float,
      wave_spectra_statistics [1; 3; 2] [1; 3; 2] directions spreads rising unit_widths
      = Ok (Hm0, Fs, 20, 50).
Proof.
  split; [reflexivity|].
  intros lib.
  destruct (@wave_spectra_statistics_interior_peak lib [1; 3; 2] [1; 3; 2]
              directions spreads rising unit_widths 0 1 3 2 1 2 3 20 50)
    as (Hm0 & Hr); try reflexivity.
  exists Hm0. eexists. exact Hr.
Defined.

End Spectra.

(** ** Mean wave direction in real arithmetic: [arctan3] and the direction
    lines of [wave_spectra]

    The range of the direction is a statement about real numbers, so this
    section redoes [arctan3] and the three direction lines of
    [wave_spectra] on [R].  An entry that the source overwrites with
    [np.nan] is [None]. *)

Module Direction.

Local Open Scope R_scope.

(** [np.arctan2] on real arguments. *)
Definition arctan2 (y x : R) : R :=
  if Rlt_dec 0 x then atan (y / x)
  else if Rlt_dec x 0 then
    if Rle_dec 0 y then atan (y / x) + PI else atan (y / x) - PI
  else if Rlt_dec 0 y then PI / 2
  else if Rlt_dec y 0 then - (PI / 2)
  else 0.

(** [theta[index] = theta[index] + 2*np.pi] at the entries below zero. *)
Definition lift_negative (theta : R) : R :=
  if Rlt_dec theta 0 then theta + 2 * PI else theta.

Definition arctan3 (y x : list R) : result (list R) :=
  theta ← broadcast2 arctan2 y x;
  Ok (map lift_negative theta).

Definition below (bound : R) (x : R) : bool :=
  if Rlt_dec x bound then true else false.

(** [Tdir = 57.296*arctan3(Cpu, Cpv)] followed by [Tdir[ad] = np.nan] for
    [ad = np.where(p_spectra < min_spec)[0]]. *)
Definition mean_direction (Cpu Cpv p_spectra : list R) (min_spec : R)
  : result (list (option R)) :=
  theta ← arctan3 Cpu Cpv;
  let Tdir := map (fun t => 57.296 * t) theta in
  let ad := np_where (below min_spec) p_spectra in
  put (map Some Tdir) ad None.

Lemma PI_bounds : 3.14159 < PI < 3.1416.
Proof.
  pose proof (PI_2_3_7_ineq 3) as [Hlo Hhi].
  unfold sum_f_R0, tg_alt, PI_2_3_7_tg, Ratan_seq in Hlo, Hhi.
  simpl in Hlo, Hhi.
  split; lra.
Qed.

Lemma atan_le_id (x : R) : 0 < x < 1 -> atan x <= x.
Proof.
  intros Hx. rewrite atan_eq_ps_atan by assumption.
  unfold ps_atan. destruct (Ratan.in_int x) as [i|n]; [|exfalso; apply n; lra].
  destruct (ps_atan_exists_1 x i) as [v Pv].
  assert (Hdec : Un_decreasing (Ratan_seq x)) by (apply Ratan_seq_decreasing; lra).
  assert (Hcv : Un_cv (Ratan_seq x) 0) by (apply Ratan_seq_converging; lra).
  destruct (alternated_series_ineq _ v 0%nat Hdec Hcv Pv) as [_ H].
  simpl in H. unfold tg_alt, Ratan_seq in H. simpl in H. lra.
Qed.

Lemma atan_nonneg (t : R) : 0 <= t -> 0 <= atan t.
Proof.
  intros [Ht|<-]; [|rewrite atan_0; lra].
  rewrite <- atan_0. left. now apply atan_increasing.
Qed.

Lemma atan_neg (t : R) : t < 0 -> atan t < 0.
Proof. intros Ht. rewrite <- atan_0. now apply atan_increasing. Qed.

Lemma arctan2_range (y x : R) : - PI < arctan2 y x <= PI.
Proof.
  pose proof PI_RGT_0 as Hpi.
  pose proof (atan_bound (y / x)) as Hb.
  unfold arctan2.
  destruct (Rlt_dec 0 x) as [Hx|Hx]; [lra|].
  destruct (Rlt_dec x 0) as [Hx'|Hx'].
  - destruct (Rle_dec 0 y) as [Hy|Hy].
    + assert (Hq : y / x <= 0).
      { pose proof (Rinv_lt_0_compat x Hx') as Hix. unfold Rdiv. nra. }
      assert (atan (y / x) <= 0).
      { destruct Hq as [Hq|Hq]; [left; now apply atan_neg|rewrite Hq, atan_0; lra]. }
      lra.
    + assert (Hq : 0 < y / x).
      { pose proof (Rinv_lt_0_compat x Hx') as Hix. unfold Rdiv. nra. }
      assert (0 <= atan (y / x)) by (apply atan_nonneg; lra).
      assert (atan (y / x) <> 0).
      { intros H0. apply atan_eq0 in H0. lra. }
      lra.
  - destruct (Rlt_dec 0 y); [lra|]. destruct (Rlt_dec y 0); lra.
Qed.

Lemma lift_negative_range (theta : R) :
  - PI < theta <= PI -> 0 <= lift_negative theta < 2 * PI.
Proof.
  pose proof PI_RGT_0. intros Ht. unfold lift_negative.
  destruct (Rlt_dec theta 0); lra.
Qed.

Lemma arctan3_range (y x theta : list R) :
  arctan3 y x = Ok theta -> Forall (fun t => 0 <= t < 2 * PI) theta.
Proof.
  intros H. unfold arctan3 in H. inv_bind H. injection H as <-.
  eapply Forall_map_image; [intros t Ht; apply lift_negative_range, Ht|].
  eapply (broadcast2_Forall arctan2); [|eassumption].
  intros; apply arctan2_range.
Qed.

(** A direction entry is either missing or a number of degrees in the
    half-open range from 0 to [57.296 * 2 * PI]. *)
Definition direction_entry_ok (d : option R) : Prop :=
  match d with
  | Some t => 0 <= t < 57.296 * (2 * PI)
  | None => True
  end.

(** C6 (amended).  [arctan3] returns angles in [0, 2*PI) for all real
    argument pairs.  The mean direction is 57.296 times that angle, so each
    band that is not blanked for low pressure energy lies in
    [0, 57.296 * 2 * PI); this bound is slightly above 360 degrees (and
    below 360.003) because 57.296 exceeds 180 / PI. *)
Theorem mean_direction_range :
  (forall y x theta : list R,
      arctan3 y x = Ok theta -> Forall (fun t => 0 <= t < 2 * PI) theta) /\
  (forall (Cpu Cpv p_spectra : list R) (min_spec : R) (Tdir : list (option R)),
      mean_direction Cpu Cpv p_spectra min_spec = Ok Tdir ->
      Forall direction_entry_ok Tdir) /\
  360 < 57.296 * (2 * PI) < 360.003.
Proof.
  split; [exact arctan3_range|]. split.
  - intros Cpu Cpv ps min_spec Tdir H.
    unfold mean_direction in H.
    unfold mbind, result_bind, rbind in H.
    destruct (arctan3 Cpu Cpv) as [theta|] eqn:Eth; [|discriminate].
    eapply put_Forall; [exact H| |exact I].
    apply Forall_map_image with (P := fun t => 0 <= t < 57.296 * (2 * PI));
      [intros t Ht; exact Ht|].
    eapply Forall_map_image; [|apply (arctan3_range _ _ _ Eth)].
    simpl. intros t Ht. lra.
  - pose proof PI_bounds. lra.
Qed.

Lemma mean_direction_range_witness :
  exists Tdir : list (option R),
    mean_direction [1; -1] [1; 1] [1; 0] (1 / 10) = Ok Tdir /\
    Forall direction_entry_ok Tdir.
Proof.
  destruct (broadcast2 arctan2 [1; -1] [1; 1]) as [theta|e] eqn:E; [|discriminate E].
  assert (Hput : exists Tdir,
             put (map Some (map (fun t => 57.296 * t) (map lift_negative theta)))
                 (np_where (below (1 / 10)) [1; 0]) None = Ok Tdir).
  { injection E as <-. unfold np_where, where_from, below.
    destruct (Rlt_dec 1 (1 / 10)); [lra|].
    destruct (Rlt_dec 0 (1 / 10)); [|lra].
    simpl. eexists. reflexivity. }
  destruct Hput as [Tdir HT].
  assert (Hrun : mean_direction [1; -1] [1; 1] [1; 0] (1 / 10) = Ok Tdir).
  { unfold mean_direction, arctan3, mbind, result_bind, rbind. rewrite E. exact HT. }
  exists Tdir. split; [exact Hrun|].
  exact (proj1 (proj2 mean_direction_range) _ _ _ _ _ Hrun).
Defined.

(** C6 (counterexample).  One band with [Cpu = -1], [Cpv = 10^6] and
    pressure energy above the threshold: the angle is just below [2*PI]
    and the reported direction is above 360 degrees. *)
Lemma mean_direction_exceeds_360 :
  exists t : R,
    mean_direction [-1] [1000000] [1] (1 / 10) = Ok [Some t] /\ 360 < t.
Proof.
  exists (57.296 * (atan (-1 / 1000000) + 2 * PI)). split.
  - unfold mean_direction, arctan3, broadcast2, mbind, result_bind, rbind. simpl.
    unfold arctan2, lift_negative, np_where, where_from, below.
    destruct (Rlt_dec 0 1000000); [|lra].
    destruct (Rlt_dec (atan (-1 / 1000000)) 0) as [_|Hn];
      [|exfalso; apply Hn, atan_neg; lra].
    destruct (Rlt_dec 1 (1 / 10)); [lra|].
    reflexivity.
  - pose proof PI_bounds as Hpi.
    pose proof (atan_le_id (1 / 1000000) ltac:(lra)) as Hat.
    replace (-1 / 1000000) with (- (1 / 1000000)) by lra.
    rewrite atan_opp. lra.
Qed.

End Direction.

(** ** Despiking: [despike]

    [despike] assigns to rows of the array it was given, so the array is
    modelled as an object in a store: a location names the array, and the
    statement [data[row, :] = ft(t)] updates the store at that location.
    [np.atleast_2d] hands a two-dimensional array back as the same object. *)

Module Despike.

Import F64.
Local Open Scope float_scope.

(** A two-dimensional float64 array, as its list of rows. *)
Abbreviation ndarray2 := (list (list float)) (only parsing).

(** Object identities, and the store that maps each array object to its
    current contents. *)
Abbreviation loc := nat (only parsing).
Abbreviation store := (gmap nat ndarray2) (only parsing).

Definition not_nan (x : float) : bool := negb (is_nan x).

Fixpoint insert_sorted (x : float) (l : list float) : list float :=
  match l with
  | [] => [x]
  | y :: l' => if x <=? y then x :: l else y :: insert_sorted x l'
  end.

Definition sort (l : list float) : list float := fold_right insert_sorted [] l.

(** Sum of an array, accumulated from left to right starting at zero. *)
Definition fsum (l : list float) : float := fold_left PrimFloat.add l 0.

Definition count (l : list float) : float := of_Z (Z.of_nat (length l)).

(** [np.nanmedian]: the middle order statistic of the entries that are
    numbers, the mean of the two middle ones for an even count, and NaN
    when there is none. *)
Definition nanmedian (x : list float) : float :=
  let v := sort (List.filter not_nan x) in
  let k := length v in
  match k with
  | O => nan
  | _ =>
      if Nat.even k
      then (nth (k / 2 - 1) v nan + nth (k / 2) v nan) / 2
      else nth (k / 2) v nan
  end.

(** [np.nanstd]: the population standard deviation of the entries that are
    numbers, NaN when there is none. *)
Definition nanstd (x : list float) : float :=
  let v := List.filter not_nan x in
  match v with
  | [] => nan
  | _ =>
      let avg := fsum v / count v in
      PrimFloat.sqrt (fsum (map (fun a => (a - avg) * (a - avg)) v) / count v)
  end.

(** [np.searchsorted(bds, t, side="left")] where [bds] holds the midpoints
    of neighbouring good positions: the number of midpoints strictly below
    [t].  The midpoint of [a] and [b] is below [t] exactly when
    [a + b < 2 * t]. *)
Fixpoint midpoints_below (good : list nat) (t : nat) : nat :=
  match good with
  | a :: (b :: _) as tl =>
      if (a + b <? 2 * t)%nat then S (midpoints_below tl t) else 0%nat
  | _ => 0%nat
  end.

(** [interp1d(t[good], x[good], kind="nearest", fill_value="extrapolate")(t)]:
    each position takes the value at the nearest good position, the lower
    one on a tie, and the end values outside the good range. *)
Definition nearest_fill (good : list nat) (x : list float) : list float :=
  map (fun t =>
         let k := Nat.min (midpoints_below good t) (length good - 1) in
         nth (nth k good 0%nat) x nan)
      (seq 0 (length x)).

(** The loop state: the store and the local variable [n_bad], unbound
    until the first pass assigns it. *)
Definition state : Type := (store * option Z)%type.

(** One pass of the inner loop for row [row] and iteration [i]. *)
Definition pass (data : loc) (n_std : float) (row i : nat) (st : state) : result state :=
  let '(h, n_bad) := st in
  match h !! data with
  | None => Raise ValueError
  | Some a =>
      x ← getitem a (Z.of_nat row);
      let n := length x in
      let median := nanmedian x in
      let std := nanstd x in
      let good := np_where (fun v => (v <? median + n_std * std)
                                     && (median - n_std * std <? v)
                                     && not_nan v) x in
      let n_bad := if (i =? 0)%nat
                   then Some (Z.of_nat n - Z.of_nat (length good))%Z
                   else n_bad in
      if (0 <? length good)%nat
      then Ok (<[data := <[row := nearest_fill good x]> a]> h, n_bad)
      else Ok (h, n_bad)
  end.

Fixpoint passes (data : loc) (n_std : float) (row : nat) (iterations : list nat)
  (st : state) : result state :=
  match iterations with
  | [] => Ok st
  | i :: rest => st' ← pass data n_std row i st; passes data n_std row rest st'
  end.

(** The outer loop over rows; [bad.append(n_bad)] needs [n_bad] bound. *)
Fixpoint rows_loop (data : loc) (n_std : float) (iters : nat) (rows : list nat)
  (st : state) (bad : list Z) : result (store * list Z) :=
  match rows with
  | [] => Ok (fst st, bad)
  | row :: rows' =>
      st' ← passes data n_std row (seq 0 iters) st;
      match snd st' with
      | None => Raise UnboundLocalError
      | Some n_bad => rows_loop data n_std iters rows' st' (bad ++ [n_bad])
      end
  end.

(** [despike(data, n_std, iters)] for a two-dimensional [data]; the result
    is the store after the call, the returned array and the list [bad]. *)
Definition despike (h : store) (data : loc) (n_std : float) (iters : nat)
  : result (store * (loc * list Z)) :=
  match h !! data with
  | None => Raise ValueError
  | Some a =>
      '(h', bad) ← rows_loop data n_std iters (seq 0 (length a)) (h, None) [];
      Ok (h', (data, bad))
  end.

(** One channel of fifteen samples, flat except for a spike at the end. *)
Definition spiky : ndarray2 := [repeat 0 14 ++ [100]].
Definition flat : ndarray2 := [repeat 0 15].

(** [same_elsewhere data h h']: every array other than [data] is as before. *)
Definition same_elsewhere (data : loc) (h h' : store) : Prop :=
  forall l : loc, l <> data -> h' !! l = h !! l.

(** [still_array data rows h]: [data] names an array of [rows] rows. *)
Definition still_array (data : loc) (rows : nat) (h : store) : Prop :=
  exists a : ndarray2, h !! data = Some a /\ length a = rows.

Lemma same_elsewhere_refl data h : same_elsewhere data h h.
Proof. intros l _. reflexivity. Qed.

Lemma same_elsewhere_trans data h1 h2 h3 :
  same_elsewhere data h1 h2 -> same_elsewhere data h2 h3 -> same_elsewhere data h1 h3.
Proof. intros H12 H23 l Hl. rewrite (H23 l Hl). now apply H12. Qed.

Lemma pass_ok (data : loc) (n_std : float) (row i rows : nat) (h : store) (n_bad : option Z) :
  still_array data rows h -> (row < rows)%nat ->
  exists (h' : store) (n_bad' : option Z),
    pass data n_std row i (h, n_bad) = Ok (h', n_bad') /\
    still_array data rows h' /\
    same_elsewhere data h h' /\
    (i = 0%nat \/ is_Some n_bad -> is_Some n_bad').
Proof.
  intros (a & Ha & Hlen) Hrow. unfold pass. lazy beta iota. rewrite Ha.
  destruct (getitem_in_range a (Z.of_nat row) ltac:(lia)) as [x [Hx _]].
  unfold mbind, result_bind, rbind. rewrite Hx.
  set (good := np_where _ x).
  assert (Hnb : i = 0%nat \/ is_Some n_bad ->
                is_Some (if (i =? 0)%nat
                         then Some (Z.of_nat (length x) - Z.of_nat (length good))%Z
                         else n_bad)).
  { intros [->|Hs]; [simpl; eauto|]. destruct (i =? 0)%nat; eauto. }
  destruct (0 <? length good)%nat.
  - eexists _, _. split; [reflexivity|]. split; [|split; [|exact Hnb]].
    + eexists. rewrite lookup_insert_eq. split; [reflexivity|].
      now rewrite length_insert.
    + intros l Hl. now rewrite lookup_insert_ne.
  - eexists _, _. split; [reflexivity|]. split; [|split; [|exact Hnb]].
    + now exists a.
    + apply same_elsewhere_refl.
Qed.

Lemma passes_ok (data : loc) (n_std : float) (row rows : nat) (iterations : list nat)
  (h : store) (n_bad : option Z) :
  still_array data rows h -> (row < rows)%nat ->
  exists (h' : store) (n_bad' : option Z),
    passes data n_std row iterations (h, n_bad) = Ok (h', n_bad') /\
    still_array data rows h' /\
    same_elsewhere data h h' /\
    (In 0%nat iterations \/ is_Some n_bad -> is_Some n_bad').
Proof.
  revert h n_bad. induction iterations as [|i rest IH]; intros h n_bad Harr Hrow;
    cbn [passes].
  - exists h, n_bad. split; [reflexivity|]. split; [exact Harr|].
    split; [apply same_elsewhere_refl|]. intros [[]|Hs]. exact Hs.
  - destruct (pass_ok data n_std row i rows h n_bad Harr Hrow)
      as (h1 & nb1 & E1 & Harr1 & Hfr1 & Hnb1).
    destruct (IH h1 nb1 Harr1 Hrow) as (h2 & nb2 & E2 & Harr2 & Hfr2 & Hnb2).
    exists h2, nb2. unfold mbind, result_bind, rbind. rewrite E1.
    split; [exact E2|]. split; [exact Harr2|].
    split; [eapply same_elsewhere_trans; eassumption|].
    intros [[Hi|Hin]|Hs]; apply Hnb2.
    + right. apply Hnb1. left. now symmetry.
    + now left.
    + right. apply Hnb1. now right.
Qed.

Lemma rows_loop_ok (data : loc) (n_std : float) (iters rows : nat) (todo : list nat)
  (h : store) (n_bad : option Z) (bad : list Z) :
  (1 <= iters)%nat ->
  still_array data rows h ->
  Forall (fun row => row < rows)%nat todo ->
  exists (h' : store) (bad' : list Z),
    rows_loop data n_std iters todo (h, n_bad) bad = Ok (h', bad') /\
    still_array data rows h' /\
    same_elsewhere data h h' /\
    length bad' = (length bad + length todo)%nat.
Proof.
  intros Hit. revert h n_bad bad.
  induction todo as [|row todo IH]; intros h n_bad bad Harr Hall; cbn [rows_loop].
  - exists h, bad. split; [reflexivity|]. split; [exact Harr|].
    split; [apply same_elsewhere_refl|simpl; lia].
  - inversion Hall as [|? ? Hrow Hrest]; subst.
    destruct (passes_ok data n_std row rows (seq 0 iters) h n_bad Harr Hrow)
      as (h1 & nb1 & E1 & Harr1 & Hfr1 & Hnb1).
    unfold mbind, result_bind, rbind. rewrite E1. cbn [snd].
    destruct Hnb1 as [nb Hnb].
    { left. apply in_seq. lia. }
    subst nb1.
    destruct (IH h1 (Some nb) (bad ++ [nb]) Harr1 Hrest)
      as (h2 & bad2 & E2 & Harr2 & Hfr2 & Hlen2).
    exists h2, bad2. split; [exact E2|]. split; [exact Harr2|].
    split; [eapply same_elsewhere_trans; eassumption|].
    rewrite Hlen2, length_app. simpl. lia.
Qed.

(** C5 (amended).  [despike] cleans the caller's array in place.  Given a
    two-dimensional array and at least one iteration it returns; the array
    it returns is the very array it was given, whose rows now hold the
    cleaned samples; one count is reported per channel; and no other array
    of the program is touched. *)
Theorem despike_cleans_in_place (h : store) (data : loc) (a : ndarray2)
  (n_std : float) (iters : nat) :
  h !! data = Some a ->
  (1 <= iters)%nat ->
  exists (h' : store) (bad : list Z),
    despike h data n_std iters = Ok (h', (data, bad)) /\
    still_array data (length a) h' /\
    length bad = length a /\
    same_elsewhere data h h'.
Proof.
  intros Ha Hit. unfold despike. rewrite Ha.
  destruct (rows_loop_ok data n_std iters (length a) (seq 0 (length a)) h None [] Hit)
    as (h' & bad & E & Harr & Hfr & Hlen).
  - now exists a.
  - apply Forall_forall. intros row Hin. apply list_elem_of_In, in_seq in Hin. lia.
  - exists h', bad. unfold mbind, result_bind, rbind. rewrite E.
    split; [reflexivity|]. split; [exact Harr|]. split; [|exact Hfr].
    rewrite Hlen, length_seq. reflexivity.
Qed.

Lemma despike_cleans_in_place_witness :
  ({[ 0%nat := spiky ]} : store) !! 0%nat = Some spiky /\
  (1 <= 3)%nat /\
  exists (h' : store) (bad : list Z),
    despike {[ 0%nat := spiky ]} 0%nat 4 3 = Ok (h', (0%nat, bad)) /\
    still_array 0%nat 1 h' /\
    length bad = 1%nat.
Proof.
  split; [reflexivity|]. split; [lia|].
  destruct (despike_cleans_in_place {[ 0%nat := spiky ]} 0%nat spiky 4 3)
    as (h' & bad & E & Harr & Hlen & _); [reflexivity|lia|].
  exists h', bad. split; [exact E|]. split; [exact Harr|exact Hlen].
Defined.

(** C5 (counterexample).  The caller holds one channel of fourteen zeros
    and a spike of 100.  After [despike(data)] with the default [n_std = 4]
    and [iters = 3] the caller's array holds fifteen zeros: the spike was
    overwritten in the input itself. *)
Lemma despike_overwrites_input :
  exists h' : store,
    despike {[ 0%nat := spiky ]} 0%nat 4 3 = Ok (h', (0%nat, [1%Z])) /\
    h' !! 0%nat = Some flat /\
    h' !! 0%nat <> ({[ 0%nat := spiky ]} : store) !! 0%nat.
Proof.
  exists {[ 0%nat := flat ]}.
  split; [vm_compute; reflexivity|].
  split; [reflexivity|].
  rewrite !lookup_singleton_eq. intros H.
  apply (f_equal (fun o : option (list (list float)) =>
                    match o with
                    | Some [r] => nth 14 r 0 =? 100
                    | _ => false
                    end)) in H.
  vm_compute in H. discriminate H.
Qed.

(** *** Edge cases of the two loops *)

(** X12.  With [iters = 0] no pass assigns [n_bad]: for an array with at
    least one row the call raises [UnboundLocalError] at the first
    [bad.append(n_bad)]; for an array without rows it returns the array
    and an empty list. *)
Theorem despike_zero_iterations (h : store) (data : loc) (a : ndarray2) (n_std : float) :
  h !! data = Some a ->
  despike h data n_std 0
  = match a with
    | [] => Ok (h, (data, []))
    | _ :: _ => Raise UnboundLocalError
    end.
Proof.
  intros Ha. unfold despike. rewrite Ha. destruct a as [|r a]; reflexivity.
Qed.

Lemma despike_zero_iterations_witness :
  ({[ 0%nat := spiky ]} : store) !! 0%nat = Some spiky /\
  despike {[ 0%nat := spiky ]} 0%nat 4 0 = Raise UnboundLocalError.
Proof.
  split; [reflexivity|].
  apply (despike_zero_iterations {[ 0%nat := spiky ]} 0%nat spiky 4). reflexivity.
Defined.

(** The test of the inner loop: inside the band around the median and a
    number. *)
Definition in_band (median std n_std : float) (v : float) : bool :=
  (v <? median + n_std * std) && (median - n_std * std <? v) && not_nan v.

Definition all_nan (x : list float) : Prop := Forall (fun v => is_nan v = true) x.

Lemma pass_all_nan (data : loc) (n_std : float) (row i : nat) (h : store)
  (a : ndarray2) (x : list float) (n_bad : option Z) :
  h !! data = Some a -> a !! row = Some x -> all_nan x ->
  pass data n_std row i (h, n_bad)
  = Ok (h, if (i =? 0)%nat then Some (Z.of_nat (length x)) else n_bad).
Proof.
  intros Ha Hx Hnan. unfold pass. lazy beta iota. rewrite Ha.
  unfold mbind, result_bind, rbind. rewrite (getitem_lookup a row x Hx).
  rewrite np_where_all_false.
  - simpl. destruct (i =? 0)%nat; [|reflexivity]. do 3 f_equal. lia.
  - eapply Forall_impl; [exact Hnan|]. simpl. intros v Hv.
    unfold not_nan. rewrite Hv. simpl. now rewrite andb_false_r.
Qed.

Lemma passes_all_nan_later (data : loc) (n_std : float) (row : nat) (its : list nat)
  (h : store) (a : ndarray2) (x : list float) :
  h !! data = Some a -> a !! row = Some x -> all_nan x ->
  passes data n_std row its (h, Some (Z.of_nat (length x)))
  = Ok (h, Some (Z.of_nat (length x))).
Proof.
  intros Ha Hx Hnan. induction its as [|i its IH]; [reflexivity|].
  cbn [passes]. unfold mbind, result_bind, rbind.
  rewrite (pass_all_nan data n_std row i h a x _ Ha Hx Hnan).
  destruct (i =? 0)%nat; exact IH.
Qed.

Lemma passes_all_nan (data : loc) (n_std : float) (row iters : nat) (h : store)
  (a : ndarray2) (x : list float) (n_bad : option Z) :
  h !! data = Some a -> a !! row = Some x -> all_nan x -> (1 <= iters)%nat ->
  passes data n_std row (seq 0 iters) (h, n_bad) = Ok (h, Some (Z.of_nat (length x))).
Proof.
  intros Ha Hx Hnan Hit. destruct iters as [|iters]; [lia|].
  cbn [seq passes]. unfold mbind, result_bind, rbind.
  rewrite (pass_all_nan data n_std row 0 h a x n_bad Ha Hx Hnan). simpl.
  now apply (passes_all_nan_later data n_std row (seq 1 iters) h a x).
Qed.

Lemma rows_loop_all_nan (data : loc) (n_std : float) (iters : nat) (h : store)
  (a : ndarray2) (todo : list nat) (n_bad : option Z) (bad : list Z) :
  h !! data = Some a -> (1 <= iters)%nat ->
  Forall all_nan a ->
  Forall (fun row => row < length a)%nat todo ->
  rows_loop data n_std iters todo (h, n_bad) bad
  = Ok (h, bad ++ map (fun row => Z.of_nat (length (nth row a []))) todo).
Proof.
  intros Ha Hit Hnan. revert n_bad bad.
  induction todo as [|row todo IH]; intros n_bad bad Hall; cbn [rows_loop].
  - simpl. now rewrite app_nil_r.
  - inversion Hall as [|? ? Hrow Hrest]; subst.
    destruct (lookup_lt_is_Some_2 a row Hrow) as [x Hx].
    assert (Hxn : all_nan x).
    { rewrite Forall_forall in Hnan. apply Hnan. eapply list_elem_of_lookup_2, Hx. }
    unfold mbind, result_bind, rbind.
    rewrite (passes_all_nan data n_std row iters h a x n_bad Ha Hx Hxn Hit).
    cbn [snd]. rewrite (IH _ _ Hrest). cbn [map]. rewrite <- app_assoc. simpl.
    do 4 f_equal. symmetry. apply nth_lookup_Some with (d := []) in Hx. now rewrite Hx.
Qed.

(** X13.  A channel that holds no number at all is left alone: if every
    sample of every row is NaN, [despike] (with at least one pass) returns
    with the store unchanged and reports every sample of every row as
    bad. *)
Theorem despike_all_nan_untouched (h : store) (data : loc) (a : ndarray2)
  (n_std : float) (iters : nat) :
  h !! data = Some a ->
  (1 <= iters)%nat ->
  Forall all_nan a ->
  despike h data n_std iters
  = Ok (h, (data, map (fun x => Z.of_nat (length x)) a)).
Proof.
  intros Ha Hit Hnan. unfold despike. rewrite Ha.
  unfold mbind, result_bind, rbind.
  rewrite (rows_loop_all_nan data n_std iters h a (seq 0 (length a)) None [] Ha Hit Hnan).
  - simpl. do 3 f_equal. clear.
    induction a as [|x a IH] using rev_ind; [reflexivity|].
    rewrite length_app, Nat.add_comm. cbn [length Nat.add].
    rewrite seq_S, !map_app. cbn [map Nat.add]. f_equal.
    + rewrite <- IH. apply map_ext_in. intros row Hrow. apply in_seq in Hrow.
      rewrite app_nth1 by lia. reflexivity.
    + rewrite app_nth2 by lia. now rewrite Nat.sub_diag.
  - apply Forall_forall. intros row Hrow. apply list_elem_of_In, in_seq in Hrow. lia.
Qed.

(** Two channels of three samples, none of them a number. *)
Definition blank : ndarray2 := [[nan; nan; nan]; [nan; nan; nan]].

Lemma despike_all_nan_untouched_witness :
  ({[ 0%nat := blank ]} : store) !! 0%nat = Some blank /\
  (1 <= 3)%nat /\
  Forall all_nan blank /\
  despike {[ 0%nat := blank ]} 0%nat 4 3
  = Ok ({[ 0%nat := blank ]}, (0%nat, [3%Z; 3%Z])).
Proof.
  assert (H : Forall all_nan blank) by (repeat constructor).
  split; [reflexivity|]. split; [lia|]. split; [exact H|].
  apply (despike_all_nan_untouched {[ 0%nat := blank ]} 0%nat blank 4 3);
    [reflexivity|lia|exact H].
Defined.

(** *** Nearest-neighbour filling *)

Lemma midpoints_below_at (good : list nat) (k : nat) :
  ascending_positions good -> (k < length good)%nat ->
  midpoints_below good (nth k good 0%nat) = k.
Proof.
  revert k. induction good as [|a good IH]; intros k Hasc Hk; simpl in Hk; [lia|].
  destruct good as [|b good].
  - destruct k; [reflexivity|simpl in Hk; lia].
  - cbn [midpoints_below].
    destruct k as [|k].
    + cbn [nth]. pose proof (Hasc 0%nat 1%nat ltac:(simpl; lia)) as H01. simpl in H01.
      destruct (Nat.ltb_spec (a + b) (2 * a)); [lia|reflexivity].
    + change (nth (S k) (a :: b :: good) 0%nat) with (nth k (b :: good) 0%nat).
      pose proof (Hasc 0%nat 1%nat ltac:(simpl; lia)) as H01. simpl in H01.
      assert (Hb : (b <= nth k (b :: good) 0)%nat).
      { destruct k as [|k]; [simpl; lia|].
        pose proof (Hasc 1%nat (S (S k)) ltac:(simpl in *; lia)) as H. simpl in H.
        simpl. lia. }
      destruct (Nat.ltb_spec (a + b) (2 * nth k (b :: good) 0%nat)); [|lia].
      f_equal. apply IH; [eapply ascending_positions_tail, Hasc|simpl in *; lia].
Qed.

(** The filled row: samples at good positions keep their value, and every
    sample of the result is the value of some good position. *)
Lemma nearest_fill_spec (P : float -> bool) (x : list float) :
  np_where P x <> [] ->
  length (nearest_fill (np_where P x) x) = length x /\
  (forall t v, x !! t = Some v -> P v = true ->
               nearest_fill (np_where P x) x !! t = Some v) /\
  (forall t v, nearest_fill (np_where P x) x !! t = Some v ->
               exists g, x !! g = Some v /\ P v = true).
Proof.
  intros Hne. set (good := np_where P x) in *.
  assert (Hasc : ascending_positions good) by apply where_from_ascending_positions.
  assert (Hpos : (1 <= length good)%nat) by (destruct good; [congruence|simpl; lia]).
  unfold nearest_fill. split; [now rewrite length_map, length_seq|]. split.
  - intros t v Hx HP.
    assert (Hin : In t good) by (apply np_where_spec; eauto).
    apply (In_nth _ _ 0%nat) in Hin. destruct Hin as (k & Hk & Hnth).
    rewrite list_lookup_fmap, lookup_seq_lt by (eapply lookup_lt_Some, Hx). simpl.
    rewrite <- Hnth at 1. rewrite midpoints_below_at by assumption.
    rewrite Nat.min_l by lia. rewrite Hnth.
    f_equal. now apply nth_lookup_Some.
  - intros t v Hv. rewrite list_lookup_fmap in Hv.
    destruct (seq 0 (length x) !! t) as [t'|] eqn:Et; [|discriminate].
    simpl in Hv. injection Hv as <-.
    set (k := Nat.min _ _).
    assert (Hin : In (nth k good 0%nat) good) by (apply nth_In; unfold k; lia).
    apply np_where_spec in Hin. destruct Hin as (w & Hw & HP).
    exists (nth k good 0%nat). rewrite (nth_lookup_Some _ _ nan _ Hw). now split.
Qed.

(** *** What the passes do to a channel *)

(** The count the first pass reports for a row: the samples outside the
    band around the median, and the samples that are not numbers. *)
Definition bad_count (n_std : float) (x : list float) : Z :=
  (Z.of_nat (length x)
   - Z.of_nat (length (np_where (in_band (nanmedian x) (nanstd x) n_std) x)))%Z.

(** [cleaned n_std iters x x']: the row [x'] has the length of [x] and
    holds values of [x] only; after a single pass, every sample of [x]
    inside the band is still in its place. *)
Definition cleaned (n_std : float) (iters : nat) (x x' : list float) : Prop :=
  length x' = length x /\
  (forall v, In v x' -> In v x) /\
  (iters = 1%nat ->
   forall t v, x !! t = Some v ->
               in_band (nanmedian x) (nanstd x) n_std v = true -> x' !! t = Some v).

Lemma pass_spec (data : loc) (n_std : float) (row i : nat) (h : store)
  (c : ndarray2) (x : list float) (n_bad : option Z) :
  h !! data = Some c -> c !! row = Some x ->
  exists x' : list float,
    pass data n_std row i (h, n_bad)
    = Ok (<[data := <[row := x']> c]> h,
          if (i =? 0)%nat then Some (bad_count n_std x) else n_bad) /\
    cleaned n_std 1 x x'.
Proof.
  intros Hc Hx. unfold pass. lazy beta iota. rewrite Hc.
  unfold mbind, result_bind, rbind. rewrite (getitem_lookup c row x Hx).
  change (fun v : float => (v <? nanmedian x + n_std * nanstd x)
                           && (nanmedian x - n_std * nanstd x <? v) && not_nan v)
    with (in_band (nanmedian x) (nanstd x) n_std).
  fold (bad_count n_std x).
  set (P := in_band (nanmedian x) (nanstd x) n_std).
  destruct (np_where P x) as [|g0 gs] eqn:Eg.
  - exists x. simpl. rewrite (list_insert_id c row x Hx), (insert_id h data c Hc).
    split; [reflexivity|]. split; [reflexivity|]. split; [auto|].
    intros _ t v Hv _. exact Hv.
  - exists (nearest_fill (np_where P x) x). rewrite <- Eg.
    destruct (Nat.ltb_spec 0 (length (np_where P x))) as [_|H0];
      [|rewrite Eg in H0; simpl in H0; lia].
    split; [reflexivity|].
    destruct (nearest_fill_spec P x) as (Hlen & Hkeep & Hfrom);
      [rewrite Eg; discriminate|].
    split; [exact Hlen|]. split.
    + intros v Hin. apply list_elem_of_In, list_elem_of_lookup in Hin.
      destruct Hin as [t Ht]. destruct (Hfrom t v Ht) as (g & Hg & _).
      apply list_elem_of_In. eapply list_elem_of_lookup_2, Hg.
    + intros _ t v Hv HP. now apply Hkeep.
Qed.

Lemma passes_later (data : loc) (n_std : float) (row : nat) (its : list nat)
  (h : store) (c : ndarray2) (x : list float) (n_bad : option Z) :
  Forall (fun i => i <> 0%nat) its ->
  h !! data = Some c -> c !! row = Some x ->
  exists x' : list float,
    passes data n_std row its (h, n_bad) = Ok (<[data := <[row := x']> c]> h, n_bad) /\
    length x' = length x /\ (forall v, In v x' -> In v x).
Proof.
  intros Hits. revert h c x.
  induction Hits as [|i its Hi _ IH]; intros h c x Hc Hx; cbn [passes].
  - exists x. rewrite (list_insert_id c row x Hx), (insert_id h data c Hc). auto.
  - destruct (pass_spec data n_std row i h c x n_bad Hc Hx) as (x1 & E1 & Hl1 & Hs1 & _).
    unfold mbind, result_bind, rbind. rewrite E1.
    destruct (Nat.eqb_spec i 0) as [|_]; [contradiction|].
    assert (Hrow : (row < length c)%nat) by (eapply lookup_lt_Some, Hx).
    destruct (IH (<[data := <[row := x1]> c]> h) (<[row := x1]> c) x1)
      as (x2 & E2 & Hl2 & Hs2).
    { apply lookup_insert_eq. }
    { now apply list_lookup_insert_eq. }
    exists x2. rewrite E2, insert_insert_eq, list_insert_insert_eq.
    split; [reflexivity|]. split; [congruence|auto].
Qed.

Lemma passes_spec (data : loc) (n_std : float) (row iters : nat) (h : store)
  (c : ndarray2) (x : list float) (n_bad : option Z) :
  (1 <= iters)%nat ->
  h !! data = Some c -> c !! row = Some x ->
  exists x' : list float,
    passes data n_std row (seq 0 iters) (h, n_bad)
    = Ok (<[data := <[row := x']> c]> h, Some (bad_count n_std x)) /\
    cleaned n_std iters x x'.
Proof.
  intros Hit Hc Hx. destruct iters as [|k]; [lia|]. cbn [seq passes].
  destruct (pass_spec data n_std row 0 h c x n_bad Hc Hx) as (x1 & E1 & Hl1 & Hs1 & Hk1).
  unfold mbind, result_bind, rbind. rewrite E1. cbn [Nat.eqb].
  assert (Hrow : (row < length c)%nat) by (eapply lookup_lt_Some, Hx).
  destruct (passes_later data n_std row (seq 1 k) (<[data := <[row := x1]> c]> h)
              (<[row := x1]> c) x1 (Some (bad_count n_std x)))
    as (x2 & E2 & Hl2 & Hs2).
  { apply Forall_forall. intros i Hi. apply list_elem_of_In, in_seq in Hi. lia. }
  { apply lookup_insert_eq. }
  { now apply list_lookup_insert_eq. }
  destruct k as [|k].
  - exists x1. split; [reflexivity|]. split; [exact Hl1|]. split; [exact Hs1|exact Hk1].
  - exists x2. rewrite E2, insert_insert_eq, list_insert_insert_eq.
    split; [reflexivity|]. split; [congruence|]. split; [auto|]. intros; lia.
Qed.

Lemma rows_loop_spec (data : loc) (n_std : float) (iters : nat) (todo : list nat)
  (h : store) (c : ndarray2) (n_bad : option Z) (bad : list Z) :
  (1 <= iters)%nat ->
  NoDup todo ->
  Forall (fun row => row < length c)%nat todo ->
  h !! data = Some c ->
  exists c' : ndarray2,
    rows_loop data n_std iters todo (h, n_bad) bad
    = Ok (<[data := c']> h,
          bad ++ map (fun row => bad_count n_std (nth row c [])) todo) /\
    length c' = length c /\
    (forall row, ~ In row todo -> c' !! row = c !! row) /\
    (forall row x, In row todo -> c !! row = Some x ->
                   exists x', c' !! row = Some x' /\ cleaned n_std iters x x').
Proof.
  intros Hit Hnd. revert h c n_bad bad.
  induction Hnd as [|row todo Hnew Hnd IH]; intros h c n_bad bad Hall Hc; cbn [rows_loop].
  - exists c. rewrite (insert_id h data c Hc), app_nil_r.
    split; [reflexivity|]. split; [reflexivity|]. split; [auto|]. intros ? ? [].
  - inversion Hall as [|? ? Hrow Hrest]; subst.
    destruct (lookup_lt_is_Some_2 c row Hrow) as [x Hx].
    destruct (passes_spec data n_std row iters h c x n_bad Hit Hc Hx) as (x1 & E1 & Hcl).
    unfold mbind, result_bind, rbind. rewrite E1. cbn [snd].
    destruct (IH (<[data := <[row := x1]> c]> h) (<[row := x1]> c)
                (Some (bad_count n_std x)) (bad ++ [bad_count n_std x]))
      as (c' & E2 & Hlen & Hout & Hin).
    { now rewrite length_insert. }
    { apply lookup_insert_eq. }
    exists c'. rewrite E2, insert_insert_eq. split; [|split; [|split]].
    + do 2 f_equal. rewrite <- app_assoc. f_equal. cbn [map app]. f_equal.
      * now rewrite (nth_lookup_Some _ _ [] _ Hx).
      * apply map_ext_in. intros r Hr. f_equal.
        assert (row <> r) by (intros ->; apply Hnew, list_elem_of_In, Hr).
        now rewrite !nth_lookup, list_lookup_insert_ne.
    + now rewrite Hlen, length_insert.
    + intros r Hr. rewrite Hout by (intros Hr'; apply Hr; now right).
      apply list_lookup_insert_ne. intros ->. apply Hr. now left.
    + intros r y [<-|Hr] Hy.
      * exists x1. rewrite Hout by (intros Hr; apply Hnew, list_elem_of_In, Hr).
        rewrite list_lookup_insert_eq by exact Hrow.
        split; [reflexivity|]. congruence.
      * apply (Hin r y Hr). rewrite list_lookup_insert_ne; [exact Hy|].
        intros ->. apply Hnew, list_elem_of_In, Hr.
Qed.

Lemma despike_spec (h : store) (data : loc) (a : ndarray2) (n_std : float) (iters : nat) :
  h !! data = Some a ->
  (1 <= iters)%nat ->
  exists a' : ndarray2,
    despike h data n_std iters = Ok (<[data := a']> h, (data, map (bad_count n_std) a)) /\
    length a' = length a /\
    (forall row x, a !! row = Some x ->
                   exists x', a' !! row = Some x' /\ cleaned n_std iters x x').
Proof.
  intros Ha Hit. unfold despike. rewrite Ha.
  destruct (rows_loop_spec data n_std iters (seq 0 (length a)) h a None [] Hit)
    as (a' & E & Hlen & _ & Hin).
  { apply NoDup_seq. }
  { apply Forall_forall. intros r Hr. apply list_elem_of_In, in_seq in Hr. lia. }
  { exact Ha. }
  exists a'. unfold mbind, result_bind, rbind. rewrite E. cbn [app].
  split; [|split; [exact Hlen|]].
  - do 3 f_equal. clear. induction a as [|x a IH] using rev_ind; [reflexivity|].
    rewrite length_app, Nat.add_comm. cbn [length Nat.add].
    rewrite seq_S, !map_app. cbn [map Nat.add]. f_equal.
    + rewrite <- IH. apply map_ext_in. intros row Hrow. apply in_seq in Hrow.
      rewrite app_nth1 by lia. reflexivity.
    + rewrite app_nth2 by lia. now rewrite Nat.sub_diag.
  - intros row x Hx. apply (Hin row x); [|exact Hx].
    apply in_seq. apply lookup_lt_Some in Hx. lia.
Qed.



(** X15.  [despike] never invents a value and never changes a shape: with
    at least one pass it returns, the array keeps its number of rows, each
    row keeps its length, and every sample of a cleaned row is a value
    that the same row held on input. *)
Theorem despike_keeps_values (h : store) (data : loc) (a : ndarray2)
  (n_std : float) (iters : nat) :
  h !! data = Some a ->
  (1 <= iters)%nat ->
  exists (a' : ndarray2) (bad : list Z),
    despike h data n_std iters = Ok (<[data := a']> h, (data, bad)) /\
    length a' = length a /\
    (forall row x, a !! row = Some x ->
       exists x', a' !! row = Some x' /\ length x' = length x /\
                  forall v, In v x' -> In v x).
Proof.
  intros Ha Hit. destruct (despike_spec h data a n_std iters Ha Hit) as (a' & E & Hl & Hr).
  exists a', (map (bad_count n_std) a). split; [exact E|]. split; [exact Hl|].
  intros row x Hx. destruct (Hr row x Hx) as (x' & Hx' & Hlen & Hsub & _). eauto.
Qed.

Lemma despike_keeps_values_witness :
  ({[ 0%nat := spiky ]} : store) !! 0%nat = Some spiky /\
  (1 <= 3)%nat /\
  exists (a' : ndarray2) (bad : list Z),
    despike {[ 0%nat := spiky ]} 0%nat 4 3
    = Ok (<[0%nat := a']> {[ 0%nat := spiky ]}, (0%nat, bad)) /\
    length a' = 1%nat.
Proof.
  split; [reflexivity|]. split; [lia|].
  destruct (despike_keeps_values {[ 0%nat := spiky ]} 0%nat spiky 4 3)
    as (a' & bad & E & Hl & _); [reflexivity|lia|].
  exists a', bad. split; [exact E|exact Hl].
Defined.



End Despike.

(** ** Zero-crossing statistics in real arithmetic: [wave_statistics]
    and [zero_crossings]

    The statements about the mean height and about the periods are
    statements of real arithmetic, so this section works on [R].  The
    SciPy routines that [wave_statistics] calls are written out from their
    definitions: [detrend] subtracts the least-squares line, [welch]
    averages windowed periodograms of consecutive segments, and [filtfilt]
    runs a filter forwards and backwards over an odd extension of its
    input. *)

Module WaveStats.

Local Open Scope R_scope.

Definition rsum (x : list R) : R := fold_right Rplus 0 x.

(** [np.mean]. *)
Definition mean (x : list R) : R := rsum x / INR (length x).

(** [np.std]: the root of the mean squared deviation from the mean. *)
Definition std (x : list R) : R :=
  R_sqrt.sqrt (mean (map (fun v => (v - mean x) * (v - mean x)) x)).

(** The abscissae [arange(1, N+1) / N] of SciPy's linear detrending. *)
Definition abscissae (N : nat) : list R :=
  map (fun k => INR k / INR N) (seq 1 N).

(** [scipy.signal.detrend(x)]: the residual of the least-squares line
    [slope * t + intercept] through the points [(t_k, x_k)].  The line is
    given by the normal equations; for a single sample the residual is
    zero, as it is for the minimum-norm solution SciPy picks.  An empty
    array cannot be reshaped for the fit. *)
Definition detrend (x : list R) : result (list R) :=
  match x with
  | [] => Raise ValueError
  | _ =>
      let t := abscissae (length x) in
      let tbar := mean t in
      let xbar := mean x in
      let sxx := rsum (map (fun ti => (ti - tbar) * (ti - tbar)) t) in
      let sxy := rsum (zip_with (fun ti xi => (ti - tbar) * (xi - xbar)) t x) in
      let slope := sxy / sxx in
      let intercept := xbar - slope * tbar in
      Ok (zip_with (fun ti xi => xi - (slope * ti + intercept)) t x)
  end.

(** Python's [/] on floats: a zero divisor raises. *)
Definition pydiv (a b : R) : result R :=
  if Req_dec_T b 0 then Raise ZeroDivisionError else Ok (a / b).

(** [np.sign]. *)
Definition sign (v : R) : R :=
  if Rlt_dec v 0 then -1 else if Rlt_dec 0 v then 1 else 0.

Definition differ (p : R * R) : bool :=
  if Req_dec_T (fst p) (snd p) then false else true.

(** [zero_crossings(heave, fs)], with [fs] a Python float. *)
Definition zero_crossings (heave : list R) (fs : R) : result R :=
  let n := Z.of_nat (length heave) in
  T ← pydiv (IZR (n - 1)) fs;
  let heave := map (fun v => v - mean heave) heave in
  let sheave := map sign heave in
  let sw1 := slice sheave 0 (n - 1) in
  let sw2 := slice sheave 1 n in
  let i := np_where differ (combine sw1 sw2) in
  fm ← pydiv (INR (length i) / 2) T;
  pydiv 1 fm.

(** [scipy.signal.windows.hann(M)]: [0.5 + 0.5*cos(fac)] over
    [fac = linspace(-pi, pi, M)]. *)
Definition hann (M : nat) : list R :=
  match M with
  | O => []
  | S O => [1]
  | _ => map (fun t => 0.5 + 0.5 * cos (- PI + 2 * PI * INR t / INR (M - 1))) (seq 0 M)
  end.

(** Real and imaginary part of entry [j] of the discrete Fourier transform. *)
Definition dft_re (y : list R) (j : nat) : R :=
  rsum (imap (fun t v => v * cos (2 * PI * INR j * INR t / INR (length y))) y).

Definition dft_im (y : list R) (j : nat) : R :=
  - rsum (imap (fun t v => v * sin (2 * PI * INR j * INR t / INR (length y))) y).

(** One-sided spectra count every frequency twice, except zero and, for an
    even length, the Nyquist frequency. *)
Definition onesided_factor (N j : nat) : R :=
  if (j =? 0)%nat || (Nat.even N && (2 * j =? N)%nat) then 1 else 2.

(** The density-scaled periodogram of one windowed segment. *)
Definition periodogram (w : list R) (fs : R) (seg : list R) : list R :=
  let N := length w in
  let y := zip_with Rmult w seg in
  let scale := 1 / (fs * rsum (map (fun v => v * v) w)) in
  map (fun j => (dft_re y j * dft_re y j + dft_im y j * dft_im y j)
                * scale * onesided_factor N j)
      (seq 0 (N / 2 + 1)).

(** [K] consecutive segments of [N] samples. *)
Fixpoint chunks (x : list R) (N K : nat) : list (list R) :=
  match K with
  | O => []
  | S K' => firstn N x :: chunks (skipn N x) N K'
  end.

(** [welch(x, fs, window=w, nfft=len(w), noverlap=0, detrend=False)]:
    frequencies [rfftfreq(N, 1/fs)] and the mean of the periodograms of the
    [len(x) // N] whole segments.  An empty input is handed back empty; a
    window that is empty or longer than the input is refused. *)
Definition welch (x : list R) (fs : R) (w : list R) : result (list R * list R) :=
  let N := length w in
  if (length x =? 0)%nat then Ok ([], [])
  else if (N =? 0)%nat then Raise ValueError
  else if (length x <? N)%nat then Raise ValueError
  else
    d ← pydiv 1 fs;
    let Ps := map (periodogram w fs) (chunks x N (length x / N)) in
    let bins := seq 0 (N / 2 + 1) in
    Ok (map (fun j => INR j * (1 / (INR N * d))) bins,
        map (fun j => mean (map (fun P => nth j P 0) Ps)) bins).

(** [lfilter(b, 1, x, zi=z)] for a five-tap filter [b = b0 :: bt] in
    transposed direct form; [z] holds the four delayed partial sums. *)
Fixpoint lfilter_fir (b0 : R) (bt z x : list R) : list R :=
  match x with
  | [] => []
  | v :: x' =>
      let y := b0 * v + hd 0 z in
      let z' := zip_with Rplus (map (fun bk => bk * v) bt) (tl z ++ [0]) in
      y :: lfilter_fir b0 bt z' x'
  end.

(** [lfilter_zi(np.ones(5)/5, 1)]: the filter state of a unit step. *)
Definition boxcar_zi : list R := [4 / 5; 3 / 5; 2 / 5; 1 / 5].

(** [odd_ext(x, edge)]: the input mirrored through its end points. *)
Definition odd_ext (x : list R) (edge : nat) : list R :=
  map (fun v => 2 * hd 0 x - v) (rev (firstn edge (tl x)))
  ++ x
  ++ map (fun v => 2 * List.last x 0 - v) (firstn edge (tl (rev x))).

(** [filtfilt(np.ones(5)/5, 1, x)]: pad by [3 * 5] samples on both sides,
    filter forwards, filter the reversed result, reverse, drop the pads. *)
Definition filtfilt_boxcar (x : list R) : result (list R) :=
  let edge := 15%nat in
  if (length x <=? edge)%nat then Raise ValueError
  else
    let bt := [1 / 5; 1 / 5; 1 / 5; 1 / 5] in
    let ext := odd_ext x edge in
    let y := lfilter_fir (1 / 5) bt (map (fun z => z * hd 0 ext) boxcar_zi) ext in
    let y0 := List.last y 0 in
    let y := lfilter_fir (1 / 5) bt (map (fun z => z * y0) boxcar_zi) (rev y) in
    Ok (firstn (length x) (skipn edge (rev y))).

(** A float64 result that may be a number, infinite, or not a number. *)
Inductive np_float : Type :=
| Num (r : R)
| Inf
| NaN.

(** [1/x] for a NumPy scalar [x]: division by zero gives infinity. *)
Definition np_reciprocal (x : R) : np_float :=
  if Req_dec_T x 0 then Inf else Num (1 / x).

(** [np.max] on reals. *)
Definition np_max (a : list R) : result R :=
  match a with
  | [] => Raise ValueError
  | x :: a' => Ok (fold_left Rmax a' x)
  end.

Definition below (bound x : R) : bool := if Rlt_dec x bound then true else false.
Definition equals (m x : R) : bool := if Req_dec_T x m then true else false.

Record wave_stats : Type := {
  Hsig : R;
  Havg : R;
  Tsig : np_float;
  Tavg : np_float;
}.

Definition wave_statistics (heave : list R) (fs : R) (npt : nat) : result wave_stats :=
  heave ← detrend heave;
  let Hsig := 4 * std heave in
  let Havg := mean heave in
  if Rlt_dec 0.2 Hsig then
    '(fr, wxx) ← welch heave fs (hann npt);
    wxx1 ← getitem wxx 1;
    wxx ← setitem wxx 0 wxx1;
    wxxf ← filtfilt_boxcar wxx;
    wxxf ← put wxxf (np_where (below 0.01) fr) 1e-7;
    top ← np_max wxxf;
    let i := np_where (equals top) wxxf in
    fri ← gather fr (map Z.of_nat i);
    let fr1 := mean fri in
    let Tsig := np_reciprocal fr1 in
    Tavg ← zero_crossings heave fs;
    Ok {| Hsig := Hsig; Havg := Havg; Tsig := Tsig; Tavg := Num Tavg |}
  else
    Ok {| Hsig := Hsig; Havg := Havg; Tsig := NaN; Tavg := NaN |}.

(** *** The mean of a detrended series *)

Lemma rsum_residual (slope intercept : R) (t x : list R) :
  length t = length x ->
  rsum (zip_with (fun ti xi => xi - (slope * ti + intercept)) t x)
  = rsum x - slope * rsum t - INR (length x) * intercept.
Proof.
  revert x. induction t as [|ti t IH]; intros [|xi x] Hlen; try discriminate.
  - simpl. lra.
  - cbn [zip_with rsum fold_right length]. fold (rsum x). fold (rsum t).
    fold (rsum (zip_with (fun ti xi => xi - (slope * ti + intercept)) t x)).
    rewrite IH by (simpl in Hlen; lia). rewrite S_INR. lra.
Qed.

Lemma abscissae_length (N : nat) : length (abscissae N) = N.
Proof. unfold abscissae. now rewrite length_map, length_seq. Qed.

Lemma detrend_returns (x : list R) :
  x <> [] ->
  exists d : list R,
    detrend x = Ok d /\ length d = length x /\ mean d = 0.
Proof.
  intros Hx. destruct x as [|x0 x']; [congruence|].
  set (x := x0 :: x') in *.
  unfold detrend. fold x.
  set (t := abscissae (length x)).
  set (slope := _ / _).
  set (intercept := mean x - slope * mean t).
  eexists. split; [reflexivity|].
  assert (Ht : length t = length x) by apply abscissae_length.
  split; [rewrite length_zip_with; lia|].
  unfold mean at 1. rewrite rsum_residual by exact Ht.
  rewrite length_zip_with, Ht, Nat.min_id.
  assert (HN : INR (length x) <> 0) by (apply not_0_INR; discriminate).
  unfold intercept, mean. rewrite Ht. field. exact HN.
Qed.

(** C8.  The mean wave height that [wave_statistics] reports is the mean
    of the least-squares detrended displacement, and that mean is exactly
    zero in real arithmetic for every non-empty displacement series: the
    reported value carries no information about the waves. *)
Theorem mean_wave_height_is_zero (heave : list R) (fs : R) (npt : nat) :
  heave <> [] ->
  (exists d : list R, detrend heave = Ok d /\ mean d = 0) /\
  (forall r : wave_stats, wave_statistics heave fs npt = Ok r -> Havg r = 0).
Proof.
  intros Hne. destruct (detrend_returns heave Hne) as (d & Hd & _ & Hmean).
  split; [now exists d|].
  intros r Hr. unfold wave_statistics in Hr.
  unfold mbind, result_bind, rbind in Hr. rewrite Hd in Hr.
  destruct (Rlt_dec 0.2 (4 * std d)).
  - repeat match type of Hr with
           | match ?m with Ok _ => _ | Raise _ => _ end = _ =>
               destruct m; [|discriminate Hr]
           | (let '(_, _) := ?p in _) = _ => destruct p
           end.
    injection Hr as <-. exact Hmean.
  - injection Hr as <-. exact Hmean.
Qed.

Lemma mean_wave_height_is_zero_witness :
  [3; 1; 4; 1; 5] <> [] /\
  exists d : list R, detrend [3; 1; 4; 1; 5] = Ok d /\ mean d = 0.
Proof.
  split; [discriminate|].
  exact (proj1 (mean_wave_height_is_zero [3; 1; 4; 1; 5] 1 4 ltac:(discriminate))).
Defined.

(** *** Zero crossings of a series that is not constant *)

Lemma rsum_centered (x : list R) :
  x <> [] -> rsum (map (fun v => v - mean x) x) = 0.
Proof.
  intros Hx.
  assert (H : forall (c : R) (l : list R),
             rsum (map (fun v => v - c) l) = rsum l - INR (length l) * c).
  { intros c l. induction l as [|a l IH]; [simpl; lra|].
    cbn [map rsum fold_right length]. fold (rsum l). fold (rsum (map (fun v => v - c) l)).
    rewrite IH, S_INR. lra. }
  rewrite H. unfold mean. field. apply not_0_INR. now destruct x.
Qed.

Lemma adjacent_equal_constant (a : R) (s : list R) :
  (forall p, In p (combine (a :: s) s) -> fst p = snd p) -> Forall (eq a) s.
Proof.
  revert a. induction s as [|b s IH]; intros a H; [constructor|].
  assert (Hab : a = b) by (apply (H (a, b)); now left).
  constructor; [exact Hab|]. subst b.
  apply IH. intros p Hp. apply H. now right.
Qed.

Lemma rsum_pos (l : list R) : l <> [] -> Forall (fun v => 0 < v) l -> 0 < rsum l.
Proof.
  induction 2 as [|v l Hv Hl IH]; [congruence|].
  cbn [rsum fold_right]. fold (rsum l).
  destruct l as [|w l]; [simpl; lra|].
  assert (0 < rsum (w :: l)) by (apply IH; discriminate). lra.
Qed.

Lemma rsum_neg (l : list R) : l <> [] -> Forall (fun v => v < 0) l -> rsum l < 0.
Proof.
  induction 2 as [|v l Hv Hl IH]; [congruence|].
  cbn [rsum fold_right]. fold (rsum l).
  destruct l as [|w l]; [simpl; lra|].
  assert (rsum (w :: l) < 0) by (apply IH; discriminate). lra.
Qed.

Lemma rsum_zero (l : list R) : Forall (fun v => v = 0) l -> rsum l = 0.
Proof.
  induction 1 as [|v l Hv Hl IH]; [reflexivity|].
  cbn [rsum fold_right]. fold (rsum l). lra.
Qed.

Lemma sign_cases (v : R) :
  (sign v = 1 /\ 0 < v) \/ (sign v = -1 /\ v < 0) \/ (sign v = 0 /\ v = 0).
Proof.
  unfold sign. destruct (Rlt_dec v 0); [right; left; split; [reflexivity|assumption]|].
  destruct (Rlt_dec 0 v); [left; split; [reflexivity|assumption]|].
  right; right. split; [reflexivity|lra].
Qed.

(** The positions at which the sign of the mean-removed series changes. *)
Definition crossings (heave : list R) : list nat :=
  let n := Z.of_nat (length heave) in
  let sheave := map sign (map (fun v => v - mean heave) heave) in
  np_where differ (combine (slice sheave 0 (n - 1)) (slice sheave 1 n)).

Lemma crossings_exist (heave : list R) : 0 < std heave -> crossings heave <> [].
Proof.
  intros Hstd Hnil.
  destruct heave as [|h0 rest]; [unfold std, mean in Hstd; simpl in Hstd;
    rewrite Rdiv_0_l, sqrt_0 in Hstd; lra|].
  set (x := h0 :: rest) in *.
  set (y := map (fun v => v - mean x) x) in *.
  assert (Hsum : rsum y = 0) by (apply rsum_centered; discriminate).
  unfold crossings in Hnil. fold y in Hnil.
  set (s := map sign y) in *.
  assert (Hs : s = sign (h0 - mean x) :: map sign (map (fun v => v - mean x) rest))
    by reflexivity.
  set (a := sign (h0 - mean x)) in *.
  set (s' := map sign (map (fun v => v - mean x) rest)) in *.
  assert (Hpairs : combine (slice s 0 (Z.of_nat (length x) - 1))
                           (slice s 1 (Z.of_nat (length x)))
                   = combine (a :: s') s').
  { unfold slice. rewrite Hs.
    replace (Z.to_nat (Z.of_nat (length x) - 1 - 0)) with (length s')
      by (unfold s', x; simpl; rewrite !length_map; lia).
    replace (Z.to_nat (Z.of_nat (length x) - 1)) with (length s')
      by (unfold s', x; simpl; rewrite !length_map; lia).
    change (Z.to_nat 0) with 0%nat. change (Z.to_nat 1) with 1%nat.
    cbn [skipn]. rewrite firstn_all. apply combine_firstn_l. }
  rewrite Hpairs in Hnil.
  assert (Hconst : Forall (eq a) s').
  { apply adjacent_equal_constant. intros p Hp.
    pose proof (np_where_nil _ _ Hnil p Hp) as Hd.
    unfold differ in Hd. destruct (Req_dec_T (fst p) (snd p)); [assumption|discriminate]. }
  assert (Hall : Forall (fun v => sign v = a) y).
  { unfold y, x. cbn [map]. constructor; [reflexivity|].
    unfold s' in Hconst. rewrite Forall_map in Hconst.
    eapply Forall_impl; [exact Hconst|]. simpl. intros v Hv. now symmetry. }
  destruct (sign_cases (h0 - mean x)) as [[Ha Hp]|[[Ha Hp]|[Ha Hp]]]; fold a in Ha.
  - assert (0 < rsum y).
    { apply rsum_pos; [discriminate|].
      eapply Forall_impl; [exact Hall|]. simpl. intros v Hv.
      destruct (sign_cases v) as [[_ ?]|[[Hs' _]|[Hs' _]]]; [assumption| |]; lra. }
    lra.
  - assert (rsum y < 0).
    { apply rsum_neg; [discriminate|].
      eapply Forall_impl; [exact Hall|]. simpl. intros v Hv.
      destruct (sign_cases v) as [[Hs' _]|[[_ ?]|[Hs' _]]]; [|assumption|]; lra. }
    lra.
  - assert (Hzero : Forall (fun v => v = 0) y).
    { eapply Forall_impl; [exact Hall|]. simpl. intros v Hv.
      destruct (sign_cases v) as [[Hs' _]|[[Hs' _]|[_ ?]]]; [| |assumption]; lra. }
    assert (Hsq : rsum (map (fun v => (v - mean x) * (v - mean x)) x) = 0).
    { apply rsum_zero. unfold y in Hzero. rewrite Forall_map in Hzero.
      apply Forall_map. eapply Forall_impl; [exact Hzero|].
      simpl. intros v Hv. rewrite Hv. lra. }
    unfold std, mean at 1 in Hstd. rewrite Hsq, Rdiv_0_l, sqrt_0 in Hstd. lra.
Qed.

Lemma zero_crossings_returns (heave : list R) (fs : R) :
  0 < std heave -> fs <> 0 ->
  exists tm : R, zero_crossings heave fs = Ok tm /\ tm <> 0.
Proof.
  intros Hstd Hfs.
  pose proof (crossings_exist heave Hstd) as Hc.
  assert (Hn : (2 <= length heave)%nat).
  { destruct heave as [|a [|b l]]; simpl; try lia; exfalso; apply Hc; reflexivity. }
  unfold zero_crossings, pydiv, mbind, result_bind, rbind.
  destruct (Req_dec_T fs 0) as [|_]; [contradiction|].
  fold (crossings heave).
  set (k := length (crossings heave)).
  assert (Hk : 0 < INR k).
  { apply lt_0_INR. unfold k. destruct (crossings heave); [congruence|simpl; lia]. }
  assert (HT : IZR (Z.of_nat (length heave) - 1) / fs <> 0).
  { assert (1 <= IZR (Z.of_nat (length heave) - 1)) by (apply IZR_le; lia).
    unfold Rdiv. apply Rmult_integral_contrapositive_currified; [lra|].
    now apply Rinv_neq_0_compat. }
  destruct (Req_dec_T (IZR (Z.of_nat (length heave) - 1) / fs) 0) as [|_]; [contradiction|].
  assert (Hfm : INR k / 2 / (IZR (Z.of_nat (length heave) - 1) / fs) <> 0).
  { unfold Rdiv at 1. apply Rmult_integral_contrapositive_currified; [lra|].
    now apply Rinv_neq_0_compat. }
  destruct (Req_dec_T _ 0) as [|_]; [contradiction|].
  eexists. split; [reflexivity|].
  unfold Rdiv at 1. apply Rmult_integral_contrapositive_currified; [lra|].
  now apply Rinv_neq_0_compat.
Qed.

(** *** Lengths through the spectral branch *)



Lemma lfilter_fir_length (b0 : R) (bt z x : list R) :
  length (lfilter_fir b0 bt z x) = length x.
Proof. revert z. induction x as [|v x IH]; intros z; simpl; [reflexivity|]. now rewrite IH. Qed.

Lemma odd_ext_length (x : list R) (edge : nat) :
  (edge < length x)%nat -> length (odd_ext x edge) = (edge + length x + edge)%nat.
Proof.
  intros H. unfold odd_ext.
  rewrite !length_app, !length_map, length_rev, !length_firstn.
  assert (length (tl x) = (length x - 1)%nat) by (destruct x; simpl; lia).
  assert (length (tl (rev x)) = (length x - 1)%nat).
  { pose proof (length_rev x) as Hr. destruct (rev x); simpl in *; lia. }
  lia.
Qed.

Lemma filtfilt_boxcar_returns (x : list R) :
  (15 < length x)%nat ->
  exists y : list R, filtfilt_boxcar x = Ok y /\ length y = length x.
Proof.
  intros H. unfold filtfilt_boxcar.
  destruct (Nat.leb_spec (length x) 15); [lia|].
  eexists. split; [reflexivity|].
  rewrite length_firstn, length_skipn, length_rev, !lfilter_fir_length, length_rev,
    lfilter_fir_length, odd_ext_length by lia.
  lia.
Qed.

(** *** The two branches of [wave_statistics] *)


Lemma wave_statistics_inv (heave : list R) (fs : R) (npt : nat) (r : wave_stats) :
  wave_statistics heave fs npt = Ok r ->
  exists d : list R,
    detrend heave = Ok d /\
    Hsig r = 4 * std d /\
    ((~ 0.2 < Hsig r) /\ Tsig r = NaN /\ Tavg r = NaN
     \/
     0.2 < Hsig r /\
     (exists fr1 : R, Tsig r = np_reciprocal fr1) /\
     (exists tm : R, zero_crossings d fs = Ok tm /\ Tavg r = Num tm)).
Proof.
  intros Hr. unfold wave_statistics in Hr.
  unfold mbind, result_bind, rbind in Hr.
  destruct (detrend heave) as [d|] eqn:Hd; [|discriminate].
  exists d. split; [reflexivity|].
  destruct (Rlt_dec 0.2 (4 * std d)) as [Hbig|Hcalm].
  - destruct (welch d fs (hann npt)) as [[fr wxx]|]; [|discriminate].
    repeat match type of Hr with
           | match ?m with Ok _ => _ | Raise _ => _ end = _ =>
               let E := fresh "E" in destruct m eqn:E; [|discriminate Hr]
           end.
    injection Hr as <-. cbn [Hsig Tsig Tavg].
    split; [reflexivity|]. right. split; [exact Hbig|]. split; eauto.
  - injection Hr as <-. cbn [Hsig Tsig Tavg].
    split; [reflexivity|]. left. auto.
Qed.


(** *** A record whose analysed segment is silent *)

Definition all_zero (l : list R) : Prop := Forall (fun v => v = 0) l.

Lemma all_zero_repeat (l : list R) : all_zero l -> l = repeat 0 (length l).
Proof. induction 1 as [|v l Hv _ IH]; simpl; [reflexivity|]. now rewrite Hv, <- IH. Qed.

Lemma all_zero_map (f : R -> R) (l : list R) :
  f 0 = 0 -> all_zero l -> all_zero (map f l).
Proof. intros Hf. induction 1 as [|v l Hv _ IH]; simpl; constructor; subst; auto. Qed.

Lemma all_zero_app (l1 l2 : list R) : all_zero l1 -> all_zero l2 -> all_zero (l1 ++ l2).
Proof. intros H1 H2. apply Forall_app. now split. Qed.

Lemma all_zero_rev (l : list R) : all_zero l -> all_zero (rev l).
Proof.
  intros H. apply Forall_forall. intros v Hv.
  apply list_elem_of_In, in_rev, list_elem_of_In in Hv.
  unfold all_zero in H. rewrite Forall_forall in H. now apply H.
Qed.

Lemma all_zero_firstn (n : nat) (l : list R) : all_zero l -> all_zero (firstn n l).
Proof. apply Forall_take. Qed.

Lemma all_zero_skipn (n : nat) (l : list R) : all_zero l -> all_zero (skipn n l).
Proof. apply Forall_drop. Qed.

Lemma all_zero_tl (l : list R) : all_zero l -> all_zero (tl l).
Proof. intros H. destruct l; [constructor|]. now inversion H. Qed.

Lemma all_zero_hd (l : list R) : all_zero l -> hd 0 l = 0.
Proof. intros H. destruct l; [reflexivity|]. now inversion H. Qed.

Lemma all_zero_last (l : list R) : all_zero l -> List.last l 0 = 0.
Proof.
  intros H. induction H as [|v l Hv Hl IH]; [reflexivity|].
  destruct l; [exact Hv|]. exact IH.
Qed.





Lemma lfilter_fir_silent (b0 : R) (bt z x : list R) :
  length z = length bt -> all_zero z -> all_zero x ->
  all_zero (lfilter_fir b0 bt z x).
Proof.
  intros Hlen Hz Hx. revert z Hlen Hz.
  induction Hx as [|v x Hv _ IH]; intros z Hlen Hz; simpl; [constructor|].
  subst v. constructor.
  - rewrite (all_zero_hd z Hz). lra.
  - apply IH.
    + rewrite length_zip_with, length_map, length_app. simpl.
      destruct z; simpl in *; lia.
    + assert (Hshift : all_zero (tl z ++ [0])).
      { apply all_zero_app; [now apply all_zero_tl|repeat constructor]. }
      revert Hshift. generalize (tl z ++ [0]) as zs. clear.
      induction bt as [|b bt IHb]; intros [|c zs] Hzs; simpl; try constructor.
      * inversion Hzs; subst. lra.
      * apply IHb. now inversion Hzs.
Qed.

Lemma filtfilt_boxcar_silent (x y : list R) :
  filtfilt_boxcar x = Ok y -> all_zero x -> all_zero y.
Proof.
  unfold filtfilt_boxcar. destruct (length x <=? 15)%nat; [discriminate|].
  intros [= <-] Hx.
  assert (Hext : all_zero (odd_ext x 15)).
  { unfold odd_ext. rewrite (all_zero_hd x Hx), (all_zero_last x Hx).
    repeat apply all_zero_app; try assumption;
      apply all_zero_map; try lra.
    - apply all_zero_rev, all_zero_firstn, all_zero_tl, Hx.
    - apply all_zero_firstn, all_zero_tl, all_zero_rev, Hx. }
  apply all_zero_firstn, all_zero_skipn, all_zero_rev.
  set (y1 := lfilter_fir _ _ _ (odd_ext x 15)).
  assert (Hy1 : all_zero y1).
  { apply lfilter_fir_silent; [reflexivity| |exact Hext].
    rewrite (all_zero_hd _ Hext). repeat constructor; lra. }
  apply lfilter_fir_silent; [reflexivity| |now apply all_zero_rev].
  rewrite (all_zero_last _ Hy1). repeat constructor; lra.
Qed.

Lemma where_from_none {A : Type} (P : A -> bool) (i : nat) (l : list A) :
  Forall (fun x => P x = false) l -> where_from P i l = [].
Proof.
  intros H. revert i. induction H as [|x l Hx _ IH]; intros i; simpl; [reflexivity|].
  now rewrite Hx.
Qed.



(** *** A series that detrending leaves alone *)











(** *** Zero crossings: what the period does not depend on *)

Lemma rsum_affine (c d : R) (x : list R) :
  rsum (map (fun v => c * v + d) x) = c * rsum x + INR (length x) * d.
Proof.
  induction x as [|v x IH]; [simpl; lra|].
  cbn [map rsum fold_right length]. fold (rsum x).
  fold (rsum (map (fun v => c * v + d) x)). rewrite IH, S_INR. lra.
Qed.

Lemma mean_affine (c d : R) (x : list R) :
  x <> [] -> mean (map (fun v => c * v + d) x) = c * mean x + d.
Proof.
  intros Hx. unfold mean. rewrite rsum_affine, length_map. field.
  apply not_0_INR. now destruct x.
Qed.

Lemma sign_scale (c v : R) : c <> 0 -> sign (c * v) = sign c * sign v.
Proof.
  intros Hc.
  destruct (sign_cases c) as [[-> Hc']|[[-> Hc']|[_ Hc']]]; [| |contradiction];
    destruct (sign_cases v) as [[-> Hv]|[[-> Hv]|[-> Hv]]];
    destruct (sign_cases (c * v)) as [[-> H]|[[-> H]|[-> H]]]; try lra; nra.
Qed.

Lemma sign_nonzero (c : R) : c <> 0 -> sign c <> 0.
Proof. intros Hc. destruct (sign_cases c) as [[-> _]|[[-> _]|[_ ?]]]; lra. Qed.

Lemma slice_map {A B : Type} (g : A -> B) (l : list A) (i j : Z) :
  slice (map g l) i j = map g (slice l i j).
Proof. unfold slice. now rewrite skipn_map, firstn_map. Qed.

Lemma combine_map_both {A B : Type} (g : A -> B) (a b : list A) :
  combine (map g a) (map g b) = map (fun p => (g (fst p), g (snd p))) (combine a b).
Proof.
  revert b. induction a as [|x a IH]; intros [|y b]; simpl; try reflexivity.
  now rewrite IH.
Qed.

Lemma crossings_affine (c d : R) (heave : list R) :
  c <> 0 -> crossings (map (fun v => c * v + d) heave) = crossings heave.
Proof.
  intros Hc. destruct heave as [|h0 rest]; [reflexivity|].
  set (x := h0 :: rest).
  unfold crossings. rewrite length_map.
  assert (Hs : map sign (map (fun v => v - mean (map (fun v => c * v + d) x))
                           (map (fun v => c * v + d) x))
               = map (fun s => sign c * s) (map sign (map (fun v => v - mean x) x))).
  { rewrite !map_map. apply map_ext. intros v.
    rewrite mean_affine by discriminate.
    replace (c * v + d - (c * mean x + d)) with (c * (v - mean x)) by ring.
    now apply sign_scale. }
  rewrite Hs, !slice_map, combine_map_both.
  unfold np_where. rewrite where_from_map. apply where_from_ext.
  intros [a b]. unfold differ. simpl.
  pose proof (sign_nonzero c Hc) as Hsc.
  destruct (Req_dec_T a b) as [->|Hab].
  - destruct (Req_dec_T _ _); [reflexivity|congruence].
  - destruct (Req_dec_T _ _) as [He|]; [|reflexivity].
    exfalso. apply Hab. nra.
Qed.

Lemma zero_crossings_counts (heave : list R) (fs : R) :
  zero_crossings heave fs
  = (T ← pydiv (IZR (Z.of_nat (length heave) - 1)) fs;
     fm ← pydiv (INR (length (crossings heave)) / 2) T;
     pydiv 1 fm).
Proof. reflexivity. Qed.

(** X17.  The zero-crossing period depends on the shape of the record
    only: scaling the displacement by any non-zero factor (negative ones
    included) and adding any constant offset leaves the result of
    [zero_crossings] unchanged, errors included. *)
Theorem zero_crossings_affine_invariant (heave : list R) (fs c d : R) :
  c <> 0 ->
  zero_crossings (map (fun v => c * v + d) heave) fs = zero_crossings heave fs.
Proof.
  intros Hc. rewrite !zero_crossings_counts.
  now rewrite crossings_affine, length_map.
Qed.

Lemma zero_crossings_affine_invariant_witness :
  2 <> 0 /\
  zero_crossings (map (fun v => 2 * v + 5) [1; -1; 3]) 1 = zero_crossings [1; -1; 3] 1.
Proof.
  split; [lra|].
  apply (zero_crossings_affine_invariant [1; -1; 3] 1 2 5). lra.
Defined.

Lemma crossings_count (heave : list R) :
  (length (crossings heave) <= length heave - 1)%nat.
Proof.
  unfold crossings, np_where.
  etransitivity; [apply where_from_length|].
  rewrite length_combine. unfold slice.
  rewrite !length_firstn, !length_skipn, !length_map. lia.
Qed.

(** X18.  Whenever [zero_crossings] returns for a positive sampling
    frequency, the period it reports is at least two sampling intervals
    and at most twice the duration [(n - 1) / fs] of the record. *)
Theorem zero_crossings_period_bounds (heave : list R) (fs tm : R) :
  0 < fs ->
  zero_crossings heave fs = Ok tm ->
  2 / fs <= tm <= 2 * INR (length heave - 1) / fs.
Proof.
  intros Hfs Htm. rewrite zero_crossings_counts in Htm.
  unfold pydiv, mbind, result_bind, rbind in Htm.
  pose proof (crossings_count heave) as Hcount.
  set (k := length (crossings heave)) in *.
  destruct (Req_dec_T fs 0); [discriminate|].
  destruct (Req_dec_T _ 0) as [|HT]; [discriminate|].
  destruct (Req_dec_T _ 0) as [|Hfm]; [discriminate|].
  injection Htm as <-.
  assert (Hk : (1 <= k)%nat).
  { destruct k; [|lia]. exfalso. apply Hfm. simpl. unfold Rdiv. ring. }
  assert (Hn : IZR (Z.of_nat (length heave) - 1) = INR (length heave - 1)).
  { rewrite INR_IZR_INZ. f_equal. lia. }
  rewrite Hn in *.
  assert (HK1 : 1 <= INR k) by (apply (le_INR 1); exact Hk).
  assert (HKN : INR k <= INR (length heave - 1)) by (apply le_INR; exact Hcount).
  set (K := INR k) in *. set (N := INR (length heave - 1)) in *.
  replace (1 / (K / 2 / (N / fs))) with (2 * N / (fs * K)) by (field; lra).
  assert (HfK : 0 < fs * K) by nra.
  split.
  - apply (Rmult_le_reg_r (fs * K)); [exact HfK|].
    replace (2 / fs * (fs * K)) with (2 * K) by (field; lra).
    replace (2 * N / (fs * K) * (fs * K)) with (2 * N) by (field; lra).
    lra.
  - apply (Rmult_le_reg_r (fs * K)); [exact HfK|].
    replace (2 * N / (fs * K) * (fs * K)) with (2 * N) by (field; lra).
    replace (2 * N / fs * (fs * K)) with (2 * N * K) by (field; lra).
    nra.
Qed.

Lemma zero_crossings_period_bounds_witness :
  0 < 1 /\
  exists tm : R,
    zero_crossings [1; -1] 1 = Ok tm /\
    2 / 1 <= tm <= 2 * INR (length [1; -1] - 1) / 1.
Proof.
  split; [lra|].
  destruct (zero_crossings_returns [1; -1] 1) as (tm & E & _).
  - unfold std, mean. simpl. apply sqrt_lt_R0. lra.
  - lra.
  - exists tm. split; [exact E|].
    apply (zero_crossings_period_bounds [1; -1] 1 tm); [lra|exact E].
Defined.

Lemma rsum_repeat (c : R) (n : nat) : rsum (repeat c n) = INR n * c.
Proof.
  induction n as [|n IH]; [simpl; lra|].
  cbn [repeat rsum fold_right]. fold (rsum (repeat c n)). rewrite IH, S_INR. lra.
Qed.

Lemma crossings_constant (c : R) (n : nat) : crossings (repeat c n) = [].
Proof.
  unfold crossings, np_where. apply where_from_none.
  set (s := map sign _).
  assert (Hs : all_zero s).
  { unfold s. destruct n as [|n]; [constructor|].
    assert (Hm : mean (repeat c (S n)) = c).
    { unfold mean. rewrite rsum_repeat, repeat_length. field.
      apply not_0_INR. discriminate. }
    rewrite Hm, map_map. apply Forall_forall. intros v Hv.
    apply list_elem_of_In, in_map_iff in Hv. destruct Hv as (w & <- & Hw).
    apply repeat_spec in Hw. subst w.
    replace (c - c) with 0 by ring.
    unfold sign. destruct (Rlt_dec 0 0); [lra|reflexivity]. }
  generalize (all_zero_firstn (Z.to_nat (Z.of_nat (length (repeat c n)) - 1 - 0)) _
                (all_zero_skipn (Z.to_nat 0) _ Hs)).
  generalize (all_zero_firstn (Z.to_nat (Z.of_nat (length (repeat c n)) - 1)) _
                (all_zero_skipn (Z.to_nat 1) _ Hs)).
  unfold slice. generalize (firstn (Z.to_nat (Z.of_nat (length (repeat c n)) - 1 - 0))
                              (skipn (Z.to_nat 0) s)).
  generalize (firstn (Z.to_nat (Z.of_nat (length (repeat c n)) - 1))
                (skipn (Z.to_nat 1) s)).
  intros b a Hb Ha. revert b Hb.
  induction Ha as [|x a Hx _ IH]; intros b Hb; [constructor|].
  destruct Hb as [|y b Hy Hb]; [constructor|].
  simpl. constructor; [|now apply IH].
  subst. unfold differ. simpl. destruct (Req_dec_T 0 0); [reflexivity|lra].
Qed.

(** X19.  A record without a sign change has no zero-crossing period:
    for every constant series, the empty and the one-sample series
    included, and every sampling frequency, [zero_crossings] raises
    [ZeroDivisionError]. *)
Theorem zero_crossings_constant_raises (c fs : R) (n : nat) :
  zero_crossings (repeat c n) fs = Raise ZeroDivisionError.
Proof.
  rewrite zero_crossings_counts, crossings_constant.
  unfold pydiv, mbind, result_bind, rbind.
  destruct (Req_dec_T fs 0); [reflexivity|].
  destruct (Req_dec_T _ 0); [reflexivity|].
  destruct (Req_dec_T _ 0) as [|Hfm]; [reflexivity|].
  exfalso. apply Hfm. simpl. unfold Rdiv. ring.
Qed.

(** *** Detrending removes any straight line *)

Lemma rsum_add_line (al be : R) (t x : list R) :
  length t = length x ->
  rsum (zip_with (fun ti xi => xi + (al + be * ti)) t x)
  = rsum x + INR (length x) * al + be * rsum t.
Proof.
  revert x. induction t as [|ti t IH]; intros [|xi x] Hlen; try discriminate.
  - simpl. lra.
  - cbn [zip_with rsum fold_right length]. fold (rsum x). fold (rsum t).
    fold (rsum (zip_with (fun ti xi => xi + (al + be * ti)) t x)).
    rewrite IH by (simpl in Hlen; lia). rewrite S_INR. lra.
Qed.

Lemma rsum_cross_add_line (c e al be : R) (t x : list R) :
  length t = length x ->
  rsum (zip_with (fun ti xi => (ti - c) * (xi - (e + al + be * c))) t
          (zip_with (fun ti xi => xi + (al + be * ti)) t x))
  = rsum (zip_with (fun ti xi => (ti - c) * (xi - e)) t x)
    + be * rsum (map (fun ti => (ti - c) * (ti - c)) t).
Proof.
  revert x. induction t as [|ti t IH]; intros [|xi x] Hlen; try discriminate.
  - simpl. lra.
  - cbn [zip_with map rsum fold_right].
    fold (rsum (map (fun ti => (ti - c) * (ti - c)) t)).
    fold (rsum (zip_with (fun ti xi => (ti - c) * (xi - e)) t x)).
    fold (rsum (zip_with (fun ti xi => (ti - c) * (xi - (e + al + be * c))) t
                  (zip_with (fun ti xi => xi + (al + be * ti)) t x))).
    rewrite IH by (simpl in Hlen; lia). lra.
Qed.

Lemma rsum_cons (a : R) (l : list R) : rsum (a :: l) = a + rsum l.
Proof. reflexivity. Qed.

Lemma rsum_squares_zero (c : R) (t : list R) :
  rsum (map (fun ti => (ti - c) * (ti - c)) t) = 0 -> Forall (fun ti => ti = c) t.
Proof.
  assert (Hpos : forall l, 0 <= rsum (map (fun ti => (ti - c) * (ti - c)) l)).
  { induction l as [|a l IH]; [simpl; lra|].
    rewrite map_cons, rsum_cons. pose proof (Rle_0_sqr (a - c)) as Hs.
    unfold Rsqr in Hs. lra. }
  induction t as [|a t IH]; intros H; [constructor|].
  rewrite map_cons, rsum_cons in H.
  pose proof (Hpos t) as Ht. pose proof (Rle_0_sqr (a - c)) as Hs. unfold Rsqr in Hs.
  assert (Ha : (a - c) * (a - c) = 0) by lra.
  constructor; [|apply IH; lra].
  apply Rmult_integral in Ha. lra.
Qed.

Lemma rsum_cross_flat (c e : R) (t x : list R) :
  Forall (fun ti => ti = c) t ->
  rsum (zip_with (fun ti xi => (ti - c) * (xi - e)) t x) = 0.
Proof.
  intros Ht. revert x. induction Ht as [|ti t Hti _ IH]; intros [|xi x]; try reflexivity.
  cbn [zip_with rsum fold_right].
  fold (rsum (zip_with (fun ti xi => (ti - c) * (xi - e)) t x)).
  rewrite IH, Hti. ring.
Qed.

Lemma residual_add_line (al be s s' i i' : R) (t x : list R) :
  (forall ti, In ti t -> al + be * ti - (s' * ti + i') = - (s * ti + i)) ->
  zip_with (fun ti xi => xi - (s' * ti + i')) t
    (zip_with (fun ti xi => xi + (al + be * ti)) t x)
  = zip_with (fun ti xi => xi - (s * ti + i)) t x.
Proof.
  revert x. induction t as [|ti t IH]; intros x H; [reflexivity|].
  destruct x as [|xi x]; [reflexivity|].
  cbn [zip_with]. rewrite IH by (intros; apply H; now right).
  f_equal. pose proof (H ti (or_introl eq_refl)). lra.
Qed.

Lemma detrend_fit (x : list R) :
  x <> [] ->
  detrend x
  = Ok (zip_with
          (fun ti xi =>
             xi - (rsum (zip_with (fun ti xi => (ti - mean (abscissae (length x)))
                                                * (xi - mean x))
                           (abscissae (length x)) x)
                   / rsum (map (fun ti => (ti - mean (abscissae (length x)))
                                          * (ti - mean (abscissae (length x))))
                             (abscissae (length x)))
                   * ti
                   + (mean x
                      - rsum (zip_with (fun ti xi => (ti - mean (abscissae (length x)))
                                                     * (xi - mean x))
                                (abscissae (length x)) x)
                        / rsum (map (fun ti => (ti - mean (abscissae (length x)))
                                               * (ti - mean (abscissae (length x))))
                                  (abscissae (length x)))
                        * mean (abscissae (length x)))))
          (abscissae (length x)) x).
Proof. intros Hx. destruct x; [congruence|reflexivity]. Qed.

(** Adding the line [al + be * t] to the samples does not change the
    residual of the least-squares fit. *)
Lemma detrend_add_line (al be : R) (x : list R) :
  detrend (zip_with (fun ti xi => xi + (al + be * ti)) (abscissae (length x)) x)
  = detrend x.
Proof.
  destruct x as [|x0 x']; [reflexivity|].
  set (x := x0 :: x').
  set (t := abscissae (length x)).
  assert (Ht : length t = length x) by apply abscissae_length.
  set (x1 := zip_with (fun ti xi => xi + (al + be * ti)) t x).
  assert (Hl1 : length x1 = length x) by (unfold x1; rewrite length_zip_with; lia).
  assert (Hne : x1 <> []) by (intros E; rewrite E in Hl1; discriminate).
  rewrite (detrend_fit x1 Hne), (detrend_fit x) by discriminate.
  rewrite Hl1. fold t. f_equal.
  assert (HN : INR (length x) <> 0) by (apply not_0_INR; discriminate).
  assert (Hmean : mean x1 = mean x + al + be * mean t).
  { unfold mean. rewrite Hl1, Ht. unfold x1. rewrite rsum_add_line by exact Ht.
    field. exact HN. }
  set (sxx := rsum (map (fun ti => (ti - mean t) * (ti - mean t)) t)).
  assert (Hsxy : rsum (zip_with (fun ti xi => (ti - mean t) * (xi - mean x1)) t x1)
                 = rsum (zip_with (fun ti xi => (ti - mean t) * (xi - mean x)) t x)
                   + be * sxx).
  { rewrite Hmean. unfold x1. apply rsum_cross_add_line. exact Ht. }
  rewrite Hsxy, Hmean. set (sxy := rsum (zip_with _ t x)).
  unfold x1. apply residual_add_line. intros ti Hti.
  destruct (Req_dec_T sxx 0) as [H0|H0].
  - pose proof (rsum_squares_zero (mean t) t H0) as Hflat.
    assert (Hxy : sxy = 0) by (apply rsum_cross_flat; exact Hflat).
    rewrite Hxy, H0. rewrite List.Forall_forall in Hflat. rewrite (Hflat ti Hti).
    unfold Rdiv. ring.
  - field. exact H0.
Qed.

Lemma imap_as_zip (f : nat -> R -> R) (g : R -> R -> R) (x : list R) (t : list R) :
  length t = length x ->
  (forall k ti xi, t !! k = Some ti -> g ti xi = f k xi) ->
  imap f x = zip_with g t x.
Proof.
  intros Hlen H. apply list_eq. intros k.
  rewrite list_lookup_imap, lookup_zip_with.
  destruct (x !! k) as [xi|] eqn:Ex; simpl.
  - destruct (t !! k) as [ti|] eqn:Et; simpl.
    + f_equal. symmetry. now apply H.
    + apply lookup_ge_None in Et. apply lookup_lt_Some in Ex. lia.
  - destruct (t !! k); reflexivity.
Qed.

Lemma detrend_ignores_trend (a b : R) (x : list R) :
  detrend (imap (fun k v => v + (a + b * INR k)) x) = detrend x.
Proof.
  rewrite <- (detrend_add_line (a - b) (b * INR (length x)) x).
  f_equal. apply imap_as_zip; [apply abscissae_length|].
  intros k ti xi Hk.
  unfold abscissae in Hk. rewrite list_lookup_fmap in Hk.
  destruct (seq 1 (length x) !! k) as [j|] eqn:Ej; [|discriminate].
  apply lookup_seq in Ej. destruct Ej as [-> Hlt]. injection Hk as <-.
  assert (HN : INR (length x) <> 0) by (apply not_0_INR; lia).
  destruct k as [|k]; [simpl|rewrite S_INR]; field; exact HN.
Qed.

(** X20.  [wave_statistics] does not see an offset or a linear drift of
    the displacement: adding [a + b * k] to sample [k], for any [a] and
    [b], changes none of the four statistics, nor whether the call
    fails. *)
Theorem wave_statistics_ignores_trend (heave : list R) (fs a b : R) (npt : nat) :
  wave_statistics (imap (fun k v => v + (a + b * INR k)) heave) fs npt
  = wave_statistics heave fs npt.
Proof. unfold wave_statistics. now rewrite detrend_ignores_trend. Qed.

(** *** The height follows the amplitude *)

Lemma rsum_scale (c : R) (x : list R) : rsum (map (fun v => c * v) x) = c * rsum x.
Proof.
  induction x as [|v x IH]; [simpl; ring|].
  rewrite map_cons, !rsum_cons, IH. ring.
Qed.

Lemma mean_scaled (c : R) (x : list R) : mean (map (fun v => c * v) x) = c * mean x.
Proof. unfold mean. rewrite rsum_scale, length_map. unfold Rdiv. ring. Qed.

Lemma rsum_cross_scale (c tb xb : R) (t x : list R) :
  rsum (zip_with (fun ti xi => (ti - tb) * (xi - c * xb)) t (map (fun v => c * v) x))
  = c * rsum (zip_with (fun ti xi => (ti - tb) * (xi - xb)) t x).
Proof.
  revert x. induction t as [|ti t IH]; intros [|xi x]; try (simpl; ring).
  cbn [map zip_with]. rewrite !rsum_cons, IH. ring.
Qed.

Lemma residual_scale (c s i : R) (t x : list R) :
  zip_with (fun ti xi => xi - (c * s * ti + (c * i))) t (map (fun v => c * v) x)
  = map (fun v => c * v) (zip_with (fun ti xi => xi - (s * ti + i)) t x).
Proof.
  revert x. induction t as [|ti t IH]; intros [|xi x]; try reflexivity.
  cbn [map zip_with]. rewrite IH. f_equal. ring.
Qed.

Lemma detrend_scale (c : R) (x d : list R) :
  detrend x = Ok d -> detrend (map (fun v => c * v) x) = Ok (map (fun v => c * v) d).
Proof.
  intros Hd. assert (Hx : x <> []) by (intros ->; discriminate).
  assert (Hcx : map (fun v => c * v) x <> []) by (destruct x; [congruence|discriminate]).
  rewrite (detrend_fit x Hx) in Hd. injection Hd as <-.
  rewrite (detrend_fit _ Hcx), length_map, mean_scaled, rsum_cross_scale.
  f_equal. rewrite <- residual_scale.
  apply zip_with_ext; [|reflexivity|reflexivity].
  intros ti xi. unfold Rdiv. ring.
Qed.

Lemma std_scale (c : R) (d : list R) : std (map (fun v => c * v) d) = Rabs c * std d.
Proof.
  unfold std. rewrite mean_scaled, map_map.
  rewrite (map_ext _ (fun v => (c * c) * ((v - mean d) * (v - mean d))))
    by (intros; ring).
  rewrite <- (map_map (fun v => (v - mean d) * (v - mean d)) (fun w => c * c * w)).
  rewrite mean_scaled.
  rewrite sqrt_mult_alt by (apply Rle_0_sqr).
  f_equal. apply sqrt_Rsqr_abs.
Qed.

(** X21.  The significant wave height follows the amplitude of the
    displacement: multiplying every sample of a non-empty record by [c]
    multiplies the detrended record by [c] and the reported [Hsig] by
    [|c|], whenever the two calls return. *)
Theorem wave_statistics_height_scales (heave : list R) (fs c : R) (npt : nat) :
  heave <> [] ->
  exists d : list R,
    detrend heave = Ok d /\
    detrend (map (fun v => c * v) heave) = Ok (map (fun v => c * v) d) /\
    4 * std (map (fun v => c * v) d) = Rabs c * (4 * std d) /\
    (forall r r' : wave_stats,
        wave_statistics heave fs npt = Ok r ->
        wave_statistics (map (fun v => c * v) heave) fs npt = Ok r' ->
        Hsig r' = Rabs c * Hsig r).
Proof.
  intros Hne. destruct (detrend_returns heave Hne) as (d & Hd & _ & _).
  exists d. split; [exact Hd|]. split; [now apply detrend_scale|].
  split; [rewrite std_scale; ring|].
  intros r r' Hr Hr'.
  destruct (wave_statistics_inv _ _ _ _ Hr) as (d1 & Hd1 & H1 & _).
  destruct (wave_statistics_inv _ _ _ _ Hr') as (d2 & Hd2 & H2 & _).
  rewrite (detrend_scale c heave d Hd) in Hd2. rewrite Hd in Hd1.
  injection Hd1 as <-. injection Hd2 as <-.
  rewrite H1, H2, std_scale. ring.
Qed.

Lemma wave_statistics_height_scales_witness :
  [3; 1; 4; 1; 5] <> [] /\
  exists d : list R,
    detrend [3; 1; 4; 1; 5] = Ok d /\
    detrend (map (fun v => 2 * v) [3; 1; 4; 1; 5]) = Ok (map (fun v => 2 * v) d) /\
    4 * std (map (fun v => 2 * v) d) = Rabs 2 * (4 * std d).
Proof.
  split; [discriminate|].
  destruct (wave_statistics_height_scales [3; 1; 4; 1; 5] 1 2 4)
    as (d & H1 & H2 & H3 & _); [discriminate|].
  exists d. split; [exact H1|]. split; [exact H2|exact H3].
Defined.

End WaveStats.

(** ** Angular update: [updater]

    [updater] turns the angular rates measured in the body frame into the
    rates of change of the Euler angles.  It is modelled on [R] like
    [rotate], with the same column layout of (3 x n) arrays. *)

Module Euler.

Import Rotation.
Local Open Scope R_scope.

(** The body of [updater] at one sample index. *)
Definition updater_sample (IN ANGLES : vec3) : vec3 :=
  let '(p, t, ps) := ANGLES in
  let '(up, vp, wp) := IN in
  let u := up + vp * sin p * tan t + wp * cos p * tan t in
  let v := 0 + vp * cos p - wp * sin p in
  let w := 0 + vp * sin p / cos t + wp * cos p / cos t in
  (u, v, w).

(** [updater(IN, ANGLES)], with NumPy's broadcasting of the rows. *)
Definition updater (IN ANGLES : series) : result series :=
  broadcast2 updater_sample IN ANGLES.

(** The angular velocity in the body frame that belongs to the rates of
    change [(dphi, dtheta, dpsi)] of the Euler angles of a 3-2-1 rotation. *)
Definition body_rates (RATES ANGLES : vec3) : vec3 :=
  let '(p, t, ps) := ANGLES in
  let '(dp, dt, dps) := RATES in
  (dp - dps * sin t,
   dt * cos p + dps * cos t * sin p,
   - dt * sin p + dps * cos t * cos p).

Definition pitch (a : vec3) : R := snd (fst a).
Definition roll (a : vec3) : R := fst (fst a).

Lemma updater_sample_inverts (v a : vec3) :
  cos (pitch a) <> 0 -> body_rates (updater_sample v a) a = v.
Proof.
  destruct a as [[p t] ps], v as [[up vp] wp]. unfold pitch. simpl. intros Hc.
  unfold tan.
  pose proof (sin2_cos2 p) as Hp. unfold Rsqr in Hp.
  set (sp := sin p) in *. set (cp := cos p) in *.
  set (st := sin t) in *. set (ct := cos t) in *.
  clearbody sp cp st ct.
  repeat f_equal.
  - field. exact Hc.
  - replace (0 + vp * sp / ct + wp * cp / ct) with ((vp * sp + wp * cp) / ct)
      by (field; exact Hc).
    replace ((vp * sp + wp * cp) / ct * ct) with (vp * sp + wp * cp)
      by (field; exact Hc).
    nsatz.
  - replace (0 + vp * sp / ct + wp * cp / ct) with ((vp * sp + wp * cp) / ct)
      by (field; exact Hc).
    replace ((vp * sp + wp * cp) / ct * ct) with (vp * sp + wp * cp)
      by (field; exact Hc).
    nsatz.
Qed.

(** X22.  [updater] is the inverse of the kinematic relation of the 3-2-1
    Euler sequence: away from a vertical pitch ([cos theta <> 0]), feeding
    the updated rates into the body-rate equations gives back the measured
    rates, sample by sample. *)
Theorem updater_inverts_body_rates (IN ANGLES : series) :
  length IN = length ANGLES ->
  Forall (fun a => cos (pitch a) <> 0) ANGLES ->
  exists OUT : series,
    updater IN ANGLES = Ok OUT /\
    length OUT = length IN /\
    zip_with body_rates OUT ANGLES = IN.
Proof.
  intros Hlen Hcos. unfold updater. rewrite broadcast2_same_length by exact Hlen.
  eexists. split; [reflexivity|]. split; [rewrite length_zip_with; lia|].
  revert ANGLES Hlen Hcos. induction IN as [|v IN IH]; intros [|a ANGLES] Hlen Hcos;
    simpl in *; try discriminate; [reflexivity|].
  inversion Hcos; subst. rewrite updater_sample_inverts by assumption.
  f_equal. apply IH; [congruence|assumption].
Qed.

Lemma updater_inverts_body_rates_witness :
  length [(1, 2, 3)] = length [(1, 0, 2)] /\
  Forall (fun a => cos (pitch a) <> 0) [(1, 0, 2)] /\
  exists OUT : series,
    updater [(1, 2, 3)] [(1, 0, 2)] = Ok OUT /\
    length OUT = 1%nat /\
    zip_with body_rates OUT [(1, 0, 2)] = [(1, 2, 3)].
Proof.
  assert (H : Forall (fun a => cos (pitch a) <> 0) [(1, 0, 2)]).
  { repeat constructor. unfold pitch. simpl. rewrite cos_0. lra. }
  split; [reflexivity|]. split; [exact H|].
  apply (updater_inverts_body_rates [(1, 2, 3)] [(1, 0, 2)]); [reflexivity|exact H].
Defined.

(** X23.  On a level platform (roll and pitch zero) [updater] returns the
    measured rates unchanged, whatever the yaw. *)
Theorem updater_level_platform (IN ANGLES : series) :
  length IN = length ANGLES ->
  Forall (fun a => roll a = 0 /\ pitch a = 0) ANGLES ->
  updater IN ANGLES = Ok IN.
Proof.
  intros Hlen Hlevel. unfold updater. rewrite broadcast2_same_length by exact Hlen.
  f_equal. revert ANGLES Hlen Hlevel.
  induction IN as [|v IN IH]; intros [|a ANGLES] Hlen Hlevel;
    simpl in *; try discriminate; [reflexivity|].
  inversion Hlevel as [|? ? [Hr Hp] Hrest]; subst.
  rewrite IH by (congruence || assumption). f_equal.
  destruct a as [[p t] ps], v as [[up vp] wp]. unfold roll, pitch in *. simpl in *.
  subst. unfold tan. rewrite sin_0, cos_0. repeat f_equal; field.
Qed.

Lemma updater_level_platform_witness :
  length [(1, 2, 3)] = length [(0, 0, 2)] /\
  Forall (fun a => roll a = 0 /\ pitch a = 0) [(0, 0, 2)] /\
  updater [(1, 2, 3)] [(0, 0, 2)] = Ok [(1, 2, 3)].
Proof.
  assert (H : Forall (fun a => roll a = 0 /\ pitch a = 0) [(0, 0, 2)]).
  { repeat constructor. }
  split; [reflexivity|]. split; [exact H|].
  apply (updater_level_platform [(1, 2, 3)] [(0, 0, 2)]); [reflexivity|exact H].
Defined.

End Euler.

(** ** Reading the motion pack: [magnetometer], [accelerations],
    [angular_rates]

    The three readers take their channels from the dataset, stack them and
    reorient the axes.  They are modelled on the channel arrays, in real
    arithmetic. *)

Module Mopak.

Local Open Scope R_scope.

(** A (3 x n) array, as its three rows. *)
Definition rows3 : Type := (list R * list R * list R)%type.

(** [np.vstack([a, b, c])] for one-dimensional arrays: the rows must have
    the same length. *)
Definition vstack3 (a b c : list R) : result rows3 :=
  if (length a =? length b)%nat && (length b =? length c)%nat
  then Ok (a, b, c) else Raise ValueError.

(** [magnetometer(data)], given the three magnetometer channels. *)
Definition magnetometer (magx magy magz : list R) : result (list R) :=
  '(m0, m1, m2) ← vstack3 magx magy magz;
  let dev := -10 * PI / 180 in
  let m1 := map (fun v => -1 * v) m1 in
  let m2 := map (fun v => -1 * v) m2 in
  let compass := zip_with (fun y x => Direction.arctan2 y x + dev) m1 m0 in
  let compass := map (fun c => if Rlt_dec PI c then c - PI else c) compass in
  let compass := map (fun c => if Rlt_dec c (-1 * PI) then c + PI else c) compass in
  Ok (map (fun c => -1 * c) compass).

(** [accelerations(data)], given the three accelerometer channels; the
    result is the scaled array and the local gravity estimate. *)
Definition accelerations (ax ay az : list R) : result (rows3 * R) :=
  let G := 9.8 in
  '(p0, p1, p2) ← vstack3 ax ay az;
  let p1 := map (fun v => -1 * v) p1 in
  let p2 := map (fun v => -1 * v) p2 in
  let gravxyz := (WaveStats.mean p0, WaveStats.mean p1, WaveStats.mean p2) in
  let '(g0, g1, g2) := gravxyz in
  let gravity := R_sqrt.sqrt (g0 * g0 + g1 * g1 + g2 * g2) in
  Ok ((map (fun v => v * G) p0, map (fun v => v * G) p1, map (fun v => v * G) p2),
      gravity).

(** [angular_rates(data)], given the three rate channels. *)
Definition angular_rates (dx dy dz : list R) : result rows3 :=
  '(r0, r1, r2) ← vstack3 dx dy dz;
  let r1 := map (fun v => -1 * v) r1 in
  let r2 := map (fun v => -1 * v) r2 in
  Ok (r0, r1, r2).

Lemma vstack3_same_length (a b c : list R) :
  length a = length b -> length b = length c -> vstack3 a b c = Ok (a, b, c).
Proof. intros H1 H2. unfold vstack3. now rewrite H1, H2, !Nat.eqb_refl. Qed.

Lemma heading_range (y x : R) :
  let c0 := Direction.arctan2 y x + -10 * PI / 180 in
  let c1 := if Rlt_dec PI c0 then c0 - PI else c0 in
  let c2 := if Rlt_dec c1 (-1 * PI) then c1 + PI else c1 in
  c1 = c0 /\ - (17 * PI / 18) <= -1 * c2 <= PI.
Proof.
  pose proof PI_RGT_0 as Hpi.
  pose proof (Direction.arctan2_range y x) as Hr.
  cbv zeta.
  destruct (Rlt_dec PI _) as [H|H]; [lra|].
  split; [reflexivity|].
  destruct (Rlt_dec _ (-1 * PI)); lra.
Qed.

(** X24.  The compass headings [magnetometer] returns lie between
    [-17*PI/18] and [PI].  The first correction of the source
    ([compass > pi]) never applies, and the second moves a heading below
    [-PI] by half a turn, not a full one. *)
Theorem magnetometer_heading_range (magx magy magz : list R) :
  length magx = length magy -> length magy = length magz ->
  exists compass : list R,
    magnetometer magx magy magz = Ok compass /\
    length compass = length magx /\
    Forall (fun c => - (17 * PI / 18) <= c <= PI) compass.
Proof.
  intros H1 H2. unfold magnetometer, mbind, result_bind, rbind.
  rewrite vstack3_same_length by assumption.
  eexists. split; [reflexivity|]. split.
  - rewrite !length_map, length_zip_with, length_map. lia.
  - rewrite !map_map.
    apply Forall_map_image
      with (P := fun c0 => exists y x, c0 = Direction.arctan2 y x + -10 * PI / 180).
    + intros c0 (y & x & ->). apply (heading_range y x).
    + apply Forall_zip_with_all. intros y x. now exists y, x.
Qed.

Lemma magnetometer_heading_range_witness :
  length [1; 0; -1] = length [0; 1; 0] /\
  length [0; 1; 0] = length [5; 5; 5] /\
  exists compass : list R,
    magnetometer [1; 0; -1] [0; 1; 0] [5; 5; 5] = Ok compass /\
    length compass = 3%nat /\
    Forall (fun c => - (17 * PI / 18) <= c <= PI) compass.
Proof.
  split; [reflexivity|]. split; [reflexivity|].
  apply (magnetometer_heading_range [1; 0; -1] [0; 1; 0] [5; 5; 5]); reflexivity.
Defined.

Lemma map_negate_twice (l : list R) : map (fun v => -1 * v) (map (fun v => -1 * v) l) = l.
Proof.
  rewrite map_map. rewrite <- (map_id l) at 2. apply map_ext. intros v. ring.
Qed.

(** X25.  [angular_rates] flips the sign of the y and z channels and
    nothing else: given three channels of one length it returns, and
    applying it to its own result gives the original channels back. *)
Theorem angular_rates_involution (dx dy dz : list R) :
  length dx = length dy -> length dy = length dz ->
  exists r0 r1 r2 : list R,
    angular_rates dx dy dz = Ok (r0, r1, r2) /\
    angular_rates r0 r1 r2 = Ok (dx, dy, dz).
Proof.
  intros H1 H2. unfold angular_rates, mbind, result_bind, rbind.
  rewrite vstack3_same_length by assumption.
  eexists _, _, _. split; [reflexivity|].
  rewrite vstack3_same_length by (rewrite !length_map; assumption).
  now rewrite !map_negate_twice.
Qed.

Lemma angular_rates_involution_witness :
  length [1; 2] = length [3; 4] /\
  length [3; 4] = length [5; 6] /\
  exists r0 r1 r2 : list R,
    angular_rates [1; 2] [3; 4] [5; 6] = Ok (r0, r1, r2) /\
    angular_rates r0 r1 r2 = Ok ([1; 2], [3; 4], [5; 6]).
Proof.
  split; [reflexivity|]. split; [reflexivity|].
  apply (angular_rates_involution [1; 2] [3; 4] [5; 6]); reflexivity.
Defined.

Lemma mean_scale (c : R) (l : list R) :
  WaveStats.mean (map (fun v => v * c) l) = WaveStats.mean l * c.
Proof.
  assert (H : WaveStats.rsum (map (fun v => v * c) l) = WaveStats.rsum l * c).
  { induction l as [|a l IH]; [simpl; lra|].
    cbn [map WaveStats.rsum fold_right]. fold (WaveStats.rsum l).
    fold (WaveStats.rsum (map (fun v => v * c) l)). rewrite IH. ring. }
  unfold WaveStats.mean. rewrite H, length_map. unfold Rdiv. ring.
Qed.

Lemma mean_negate (l : list R) :
  WaveStats.mean (map (fun v => -1 * v) l) = - WaveStats.mean l.
Proof.
  rewrite (map_ext _ (fun v => v * -1)) by (intros; ring).
  rewrite mean_scale. ring.
Qed.

(** X26.  For non-empty channels of one length, the gravity estimate that
    [accelerations] returns is the length of the mean acceleration vector
    in units of g: the axis flips do not affect it, and the mean of the
    returned array, which is in m/s^2, is 9.8 times as long. *)
Theorem accelerations_gravity (ax ay az : list R) :
  ax <> [] -> length ax = length ay -> length ay = length az ->
  exists (p0 p1 p2 : list R) (gravity : R),
    accelerations ax ay az = Ok ((p0, p1, p2), gravity) /\
    gravity = R_sqrt.sqrt (WaveStats.mean ax * WaveStats.mean ax
                           + WaveStats.mean ay * WaveStats.mean ay
                           + WaveStats.mean az * WaveStats.mean az) /\
    R_sqrt.sqrt (WaveStats.mean p0 * WaveStats.mean p0
                 + WaveStats.mean p1 * WaveStats.mean p1
                 + WaveStats.mean p2 * WaveStats.mean p2) = 9.8 * gravity.
Proof.
  intros _ H1 H2. unfold accelerations, mbind, result_bind, rbind.
  rewrite vstack3_same_length by assumption.
  eexists _, _, _, _. split; [reflexivity|].
  rewrite !mean_scale, !mean_negate.
  set (m0 := WaveStats.mean ax). set (m1 := WaveStats.mean ay).
  set (m2 := WaveStats.mean az).
  replace (- m1 * - m1) with (m1 * m1) by ring.
  replace (- m2 * - m2) with (m2 * m2) by ring.
  split; [reflexivity|].
  replace (m0 * 9.8 * (m0 * 9.8) + - m1 * 9.8 * (- m1 * 9.8) + - m2 * 9.8 * (- m2 * 9.8))
    with ((9.8 * 9.8) * (m0 * m0 + m1 * m1 + m2 * m2)) by ring.
  rewrite sqrt_mult_alt by lra. rewrite sqrt_square by lra. reflexivity.
Qed.

Lemma accelerations_gravity_witness :
  [0; 0] <> [] /\
  length [0; 0] = length [0; 0] /\
  length [0; 0] = length [-1; -1] /\
  exists (p0 p1 p2 : list R) (gravity : R),
    accelerations [0; 0] [0; 0] [-1; -1] = Ok ((p0, p1, p2), gravity) /\
    R_sqrt.sqrt (WaveStats.mean p0 * WaveStats.mean p0
                 + WaveStats.mean p1 * WaveStats.mean p1
                 + WaveStats.mean p2 * WaveStats.mean p2) = 9.8 * gravity.
Proof.
  split; [discriminate|]. split; [reflexivity|]. split; [reflexivity|].
  destruct (accelerations_gravity [0; 0] [0; 0] [-1; -1])
    as (p0 & p1 & p2 & g & E & _ & H); [discriminate|reflexivity|reflexivity|].
  exists p0, p1, p2, g. split; [exact E|exact H].
Defined.

End Mopak.

(** ** Platform motion: [heave]

    [heave] rotates the lever-arm velocity and the accelerations into the
    earth frame, removes gravity and integrates twice, filtering before
    and after every integration.  The filter is SciPy's [filtfilt] with the
    coefficients the caller passes on; it is a parameter of this section,
    and each statement says what it needs of it.  The model is on [R], with
    the column layout of [rotate] for (3 x n) arrays and lists for rows. *)

Module Heave.

Import Rotation.
Local Open Scope R_scope.

(** The three rows of a (3 x n) array. *)
Definition rows3 : Type := (list R * list R * list R)%type.

Definition row0 (s : series) : list R := map (fun v => fst (fst v)) s.
Definition row1 (s : series) : list R := map (fun v => snd (fst v)) s.
Definition row2 (s : series) : list R := map (fun v => snd v) s.

(** [np.cross(a, b, axis=0)] at one column. *)
Definition cross (a b : vec3) : vec3 :=
  let '(a0, a1, a2) := a in
  let '(b0, b1, b2) := b in
  (a1 * b2 - a2 * b1, a2 * b0 - a0 * b2, a0 * b1 - a1 * b0).

(** Running sums: [np.cumsum]. *)
Fixpoint cumsum_from (acc : R) (y : list R) : list R :=
  match y with
  | [] => []
  | v :: y' => (acc + v) :: cumsum_from (acc + v) y'
  end.

(** [cumulative_trapezoid(y, initial=0)] with unit spacing: zero, followed
    by the running sums of the means of neighbouring samples.  An empty
    row is refused. *)
Definition cumulative_trapezoid (y : list R) : result (list R) :=
  match y with
  | [] => Raise ValueError
  | _ :: _ =>
      Ok (0 :: cumsum_from 0 (zip_with (fun a b => 1 * (a + b) / 2) (tl y) (removelast y)))
  end.

(** [a[i, :] = y] for a row of [m] entries: [y] must have [m] entries, or
    one entry that is repeated. *)
Definition assign_row (m : nat) (y : list R) : result (list R) :=
  if (length y =? m)%nat then Ok y
  else match y with
       | [c] => Ok (repeat c m)
       | _ => Raise ValueError
       end.

Section WithFilter.

(** [filtfilt(bhi, ahi, x)] for the coefficients passed to [heave]. *)
Variable filtfilt : list R -> result (list R).

(** The body of the first loop for one row: filter the acceleration,
    integrate, add the lever-arm velocity, filter again. *)
Definition velocity_row (m : nat) (fs : R) (acc_i rot_i : list R) : result (list R) :=
  a ← filtfilt acc_i;
  a ← assign_row m a;
  c ← cumulative_trapezoid a;
  motion ← broadcast2 Rplus (map (fun v => v / fs) c) rot_i;
  motion ← assign_row m motion;
  u ← filtfilt motion;
  assign_row m u.

(** The body of the second loop for one row: integrate, then filter. *)
Definition displacement_row (m : nat) (fs : R) (u_i : list R) : result (list R) :=
  c ← cumulative_trapezoid u_i;
  x ← assign_row m (map (fun v => v / fs) c);
  x ← filtfilt x;
  assign_row m x.

Definition heave (omegam euler accm : series) (fs : R) (Rv : list R) (gravity : R)
  : result (rows3 * rows3) :=
  let m := length omegam in
  R0 ← getitem Rv 0;
  R1 ← getitem Rv 1;
  R2 ← getitem Rv 2;
  let Rvec := repeat (R0, R1, R2) m in
  let uvw_rot := zip_with cross omegam Rvec in
  uvw_rot ← rotate uvw_rot euler 0;
  acc ← rotate accm euler 0;
  let acc := map (fun a => (fst (fst a), snd (fst a), snd a - gravity)) acc in
  let cols := length acc in
  u0 ← velocity_row cols fs (row0 acc) (row0 uvw_rot);
  u1 ← velocity_row cols fs (row1 acc) (row1 uvw_rot);
  u2 ← velocity_row cols fs (row2 acc) (row2 uvw_rot);
  x0 ← displacement_row cols fs u0;
  x1 ← displacement_row cols fs u1;
  x2 ← displacement_row cols fs u2;
  Ok ((u0, u1, u2), (x0, x1, x2)).

(** The gravity vector as the accelerometers of a platform with attitude
    [euler] see it. *)
Definition gravity_in_body (gravity : R) (euler : series) : series :=
  map (rotate_sample 1 (0, 0, gravity)) euler.

Definition still (m : nat) : series := repeat (0, 0, 0) m.
Definition zeros (m : nat) : list R := repeat 0 m.

Lemma cross_zero (b : vec3) : cross (0, 0, 0) b = (0, 0, 0).
Proof. destruct b as [[b0 b1] b2]. unfold cross. f_equal; [f_equal|]; ring. Qed.

Lemma rotate_sample_zero (IFLAG : Z) (a : vec3) :
  rotate_sample IFLAG (0, 0, 0) a = (0, 0, 0).
Proof.
  destruct a as [[phi theta] psi]. unfold rotate_sample.
  destruct (IFLAG =? 1)%Z; f_equal; [f_equal| |f_equal|]; ring.
Qed.

Lemma zip_cross_still (m : nat) (b : vec3) :
  zip_with cross (still m) (repeat b m) = still m.
Proof.
  unfold still. induction m as [|m IH]; [reflexivity|].
  cbn [repeat zip_with]. now rewrite cross_zero, IH.
Qed.

Lemma rotate_still (euler : series) :
  rotate (still (length euler)) euler 0 = Ok (still (length euler)).
Proof.
  unfold still. rewrite rotate_same_length by now rewrite repeat_length.
  f_equal. induction euler as [|a euler IH]; [reflexivity|].
  cbn [length repeat zip_with]. now rewrite rotate_sample_zero, IH.
Qed.

Lemma rotate_gravity_back (gravity : R) (euler : series) :
  rotate (gravity_in_body gravity euler) euler 0
  = Ok (repeat (0, 0, gravity) (length euler)).
Proof.
  unfold gravity_in_body. rewrite rotate_same_length by now rewrite length_map.
  f_equal. induction euler as [|a euler IH]; [reflexivity|].
  cbn [length repeat map zip_with]. now rewrite rotate_sample_inverse_rev, IH.
Qed.

Lemma cumsum_from_zeros (k : nat) : cumsum_from 0 (repeat 0 k) = repeat 0 k.
Proof.
  induction k as [|k IH]; [reflexivity|].
  cbn [repeat cumsum_from]. replace (0 + 0) with 0 by ring. now rewrite IH.
Qed.

Lemma removelast_repeat {A : Type} (c : A) (m : nat) :
  removelast (repeat c (S m)) = repeat c m.
Proof.
  induction m as [|m IH]; [reflexivity|].
  change (repeat c (S (S m))) with (c :: repeat c (S m)).
  change (removelast (c :: repeat c (S m))) with (c :: removelast (repeat c (S m))).
  now rewrite IH.
Qed.

Lemma trapezoids_zeros (m : nat) :
  zip_with (fun a b => 1 * (a + b) / 2) (repeat 0 m) (repeat 0 m) = repeat 0 m.
Proof.
  induction m as [|m IH]; [reflexivity|].
  cbn [repeat zip_with]. rewrite IH. f_equal. field.
Qed.

Lemma cumulative_trapezoid_zeros (m : nat) :
  (1 <= m)%nat -> cumulative_trapezoid (zeros m) = Ok (zeros m).
Proof.
  intros Hm. destruct m as [|m]; [lia|]. unfold zeros, cumulative_trapezoid.
  change (repeat 0 (S m)) with (0 :: repeat 0 m) at 1 2 4.
  cbn [tl]. rewrite (removelast_repeat 0 m), trapezoids_zeros, cumsum_from_zeros.
  reflexivity.
Qed.

Lemma assign_row_fits (m : nat) (y : list R) : length y = m -> assign_row m y = Ok y.
Proof. intros H. unfold assign_row. now rewrite H, Nat.eqb_refl. Qed.

Lemma map_div_zeros (fs : R) (m : nat) : map (fun v => v / fs) (zeros m) = zeros m.
Proof.
  unfold zeros. induction m as [|m IH]; [reflexivity|].
  cbn [repeat map]. rewrite IH. f_equal. unfold Rdiv. ring.
Qed.

Lemma zeros_plus_zeros (m : nat) : zip_with Rplus (zeros m) (zeros m) = zeros m.
Proof.
  unfold zeros. induction m as [|m IH]; [reflexivity|].
  cbn [repeat zip_with]. rewrite IH. f_equal. ring.
Qed.

Lemma velocity_row_zeros (m : nat) (fs : R) :
  (1 <= m)%nat -> filtfilt (zeros m) = Ok (zeros m) ->
  velocity_row m fs (zeros m) (zeros m) = Ok (zeros m).
Proof.
  intros Hm HF. unfold velocity_row, mbind, result_bind, rbind.
  assert (Hl : length (zeros m) = m) by apply repeat_length.
  rewrite HF, (assign_row_fits _ _ Hl), (cumulative_trapezoid_zeros m Hm).
  rewrite map_div_zeros, broadcast2_same_length by reflexivity.
  rewrite zeros_plus_zeros, (assign_row_fits _ _ Hl), HF.
  now apply assign_row_fits.
Qed.

Lemma displacement_row_zeros (m : nat) (fs : R) :
  (1 <= m)%nat -> filtfilt (zeros m) = Ok (zeros m) ->
  displacement_row m fs (zeros m) = Ok (zeros m).
Proof.
  intros Hm HF. unfold displacement_row, mbind, result_bind, rbind.
  assert (Hl : length (zeros m) = m) by apply repeat_length.
  rewrite (cumulative_trapezoid_zeros m Hm), map_div_zeros.
  rewrite (assign_row_fits _ _ Hl), HF. now apply assign_row_fits.
Qed.

Lemma rows_of_still (m : nat) :
  row0 (still m) = zeros m /\ row1 (still m) = zeros m /\ row2 (still m) = zeros m.
Proof.
  unfold row0, row1, row2, still, zeros.
  induction m as [|m (IH0 & IH1 & IH2)]; [auto|].
  cbn [repeat map fst snd]. now rewrite IH0, IH1, IH2.
Qed.

(** X27.  A platform that does not move yields no motion: with zero
    angular rates, any attitude [euler], and accelerometers that read
    nothing but gravity as seen from that attitude, [heave] returns zero
    velocities and zero displacements in all three directions, whatever
    the lever arm [R], provided the filter passes a zero series of the
    record's length on as zeros. *)
Theorem heave_at_rest (euler : series) (fs gravity : R) (Rv : list R) :
  (1 <= length euler)%nat ->
  (3 <= length Rv)%nat ->
  fs <> 0 ->
  filtfilt (zeros (length euler)) = Ok (zeros (length euler)) ->
  heave (still (length euler)) euler (gravity_in_body gravity euler) fs Rv gravity
  = Ok ((zeros (length euler), zeros (length euler), zeros (length euler)),
        (zeros (length euler), zeros (length euler), zeros (length euler))).
Proof.
  intros Hm HR _ HF.
  unfold heave, mbind, result_bind, rbind.
  destruct (getitem_in_range Rv 0 ltac:(lia)) as (R0 & -> & _).
  destruct (getitem_in_range Rv 1 ltac:(lia)) as (R1 & -> & _).
  destruct (getitem_in_range Rv 2 ltac:(lia)) as (R2 & -> & _).
  assert (Hs : length (still (length euler)) = length euler) by apply repeat_length.
  rewrite Hs, zip_cross_still, rotate_still, rotate_gravity_back.
  assert (Hacc : forall m,
             map (fun a : vec3 => (fst (fst a), snd (fst a), snd a - gravity))
                 (repeat (0, 0, gravity) m) = still m).
  { unfold still. induction m as [|m IH]; [reflexivity|].
    cbn [repeat map fst snd]. rewrite IH. do 2 f_equal. ring. }
  rewrite Hacc.
  assert (Hs' : @length (R * R * R) (still (length euler)) = length euler)
    by apply repeat_length.
  rewrite Hs'.
  destruct (rows_of_still (length euler)) as (-> & -> & ->).
  rewrite (velocity_row_zeros _ fs Hm HF), (displacement_row_zeros _ fs Hm HF).
  reflexivity.
Qed.

(** X28.  The lever arm [R] enters [heave] through the cross product with
    the angular rates only: when the angular rates are zero, two calls
    that differ in [R] alone (each with the three components [heave]
    reads) give the same result, for any filter. *)
Theorem heave_lever_arm_without_rotation
  (euler accm : series) (fs gravity : R) (Rv Rv' : list R) (m : nat) :
  (3 <= length Rv)%nat -> (3 <= length Rv')%nat ->
  heave (still m) euler accm fs Rv gravity = heave (still m) euler accm fs Rv' gravity.
Proof.
  intros HR HR'. unfold heave, mbind, result_bind, rbind.
  destruct (getitem_in_range Rv 0 ltac:(lia)) as (R0 & -> & _).
  destruct (getitem_in_range Rv 1 ltac:(lia)) as (R1 & -> & _).
  destruct (getitem_in_range Rv 2 ltac:(lia)) as (R2 & -> & _).
  destruct (getitem_in_range Rv' 0 ltac:(lia)) as (R0' & -> & _).
  destruct (getitem_in_range Rv' 1 ltac:(lia)) as (R1' & -> & _).
  destruct (getitem_in_range Rv' 2 ltac:(lia)) as (R2' & -> & _).
  assert (Hs : length (still m) = m) by apply repeat_length.
  now rewrite Hs, !zip_cross_still.
Qed.

End WithFilter.

(** Sixteen samples of a platform tilted by fixed angles. *)
Definition tilted : series := repeat (0.1, 0.2, 0.3) 16.

(** The default lever arm of [uvw_xyz], and another one. *)
Definition com_offset : list R := [0; 0; 0.5].
Definition other_offset : list R := [1; 2; 3].

Lemma filtfilt_boxcar_zeros :
  WaveStats.filtfilt_boxcar (zeros 16) = Ok (zeros 16).
Proof.
  assert (Hz : WaveStats.all_zero (zeros 16)) by (repeat constructor).
  destruct (WaveStats.filtfilt_boxcar_returns (zeros 16)) as (y & E & Hl);
    [simpl; lia|].
  rewrite E. f_equal.
  rewrite (WaveStats.all_zero_repeat y (WaveStats.filtfilt_boxcar_silent _ _ E Hz)).
  now rewrite Hl.
Qed.

Lemma heave_at_rest_witness :
  (1 <= length tilted)%nat /\
  (3 <= length com_offset)%nat /\
  1 <> 0 /\
  WaveStats.filtfilt_boxcar (zeros (length tilted)) = Ok (zeros (length tilted)) /\
  heave WaveStats.filtfilt_boxcar (still (length tilted)) tilted
        (gravity_in_body 9.8 tilted) 1 com_offset 9.8
  = Ok ((zeros 16, zeros 16, zeros 16), (zeros 16, zeros 16, zeros 16)).
Proof.
  split; [simpl; lia|]. split; [simpl; lia|]. split; [lra|].
  split; [exact filtfilt_boxcar_zeros|].
  apply (heave_at_rest WaveStats.filtfilt_boxcar tilted 1 9.8 com_offset);
    [simpl; lia|simpl; lia|lra|exact filtfilt_boxcar_zeros].
Defined.

Lemma heave_lever_arm_without_rotation_witness :
  (3 <= length com_offset)%nat /\
  (3 <= length other_offset)%nat /\
  heave WaveStats.filtfilt_boxcar (still 16) tilted tilted 1 com_offset 9.8
  = heave WaveStats.filtfilt_boxcar (still 16) tilted tilted 1 other_offset 9.8.
Proof.
  split; [simpl; lia|]. split; [simpl; lia|].
  apply (heave_lever_arm_without_rotation WaveStats.filtfilt_boxcar); simpl; lia.
Defined.

End Heave.
